(** * Goldie: chunker, document/vector store, job queue and tool handlers

  A shallow embedding of the indexing and retrieval core of goldie-mcp
  (internal/goldie/goldie.go, internal/store/store.go,
  internal/queue/queue.go and the handlers of main.go), with the
  properties of its specification stated and proved over it. *)

From Stdlib Require Import ZArith Lia Bool Ascii String Decimal DecimalString DecimalZ.
From Stdlib Require Import SpecFloat.
From stdpp Require Import gmap strings list fin_maps sorting.

Local Open Scope Z_scope.

(** * Go values *)

(** Go's [int] on the 64-bit targets the project builds for: a signed 64-bit
  integer; sums and differences wrap around. *)
Module GoInt.

Definition min_int : Z := - 2 ^ 63.
Definition max_int : Z := 2 ^ 63 - 1.

Definition in_range (z : Z) : Prop := min_int <= z <= max_int.

Definition wrap (z : Z) : Z := (z + 2 ^ 63) mod 2 ^ 64 - 2 ^ 63.

Definition add (a b : Z) : Z := wrap (a + b).
Definition sub (a b : Z) : Z := wrap (a - b).

End GoInt.

(** Go's [float64], as the IEEE-754 value it denotes ([spec_float] at
    precision 53). *)
Module GoFloat.

Definition float64 : Type := spec_float.



End GoFloat.

(** The part of the Go standard library the core calls and whose code is not
  part of the repository. *)
Class GoRuntime := {
  (** [strings.TrimSpace]: the argument without its leading and trailing
      white space. *)
  TrimSpace : string -> string;
  (** [hex.EncodeToString] of [sha256.Sum256]. *)
  sha256_hex : string -> string;
  (** [filepath.Base]: the last element of a path. *)
  Base : string -> string;
  (** What the conversion [int(f)] yields for a [float64] that is NaN, an
      infinity, or has an integer part outside the range of [int]: the
      language leaves it to the implementation. *)
  int_out_of_range : spec_float -> Z;
}.

Module GoString.

(** [len(s)]: the number of bytes. *)
Definition len (s : string) : Z := Z.of_nat (String.length s).

(** [s[lo:hi]]; [None] is the run-time panic "slice bounds out of range". *)
Definition slice (s : string) (lo hi : Z) : option string :=
  if (0 <=? lo) && (lo <=? hi) && (hi <=? len s)
  then Some (String.substring (Z.to_nat lo) (Z.to_nat (hi - lo)) s)
  else None.

(** [strings.LastIndex(s, c)] for a one-byte separator: the index of the
    last occurrence, or -1. *)
Fixpoint last_index_from (s : string) (c : ascii) (i acc : Z) : Z :=
  match s with
  | EmptyString => acc
  | String a s' => last_index_from s' c (i + 1) (if Ascii.eqb a c then i else acc)
  end.

Definition LastIndex (s : string) (c : ascii) : Z := last_index_from s c 0 (-1).

(** Trimming of the six ASCII white-space bytes; [strings.TrimSpace] on
    texts whose white space is ASCII. *)
Fixpoint trim_left (s : string) : string :=
  match s with
  | String a s' => if Ascii.is_space a then trim_left s' else s
  | EmptyString => EmptyString
  end.

Definition trim_ascii (s : string) : string :=
  String.rev (trim_left (String.rev (trim_left s))).

(** The verb [%d] of [fmt.Sprintf]: decimal digits, with a minus sign for a
    negative number. *)
Definition itoa (z : Z) : string := NilZero.string_of_int (Z.to_int z).

(** The part of a path after its last slash; [filepath.Base] on paths that
    name a file. *)
Fixpoint after_last_slash (s acc : string) : string :=
  match s with
  | EmptyString => acc
  | String a s' =>
      if Ascii.eqb a "/" then after_last_slash s' s' else after_last_slash s' acc
  end.

(** [strings.Repeat] of a single byte. *)
Fixpoint repeat_byte (c : ascii) (n : nat) : string :=
  match n with
  | O => EmptyString
  | S n' => String c (repeat_byte c n')
  end.

End GoString.

(** * State passing *)

(** A computation that reads and updates a state of type [S]. *)
Definition State (S A : Type) : Type := S -> A * S.

Definition ret {S A} (a : A) : State S A := fun s => (a, s).

Definition bind {S A B} (m : State S A) (k : A -> State S B) : State S B :=
  fun s => let '(a, s') := m s in k a s'.

Notation "'do' x <- m ; k" := (bind m (fun x => k))
  (at level 10, x name, m at level 100, k at level 200).
Notation "'run' m ; k" := (bind m (fun _ => k))
  (at level 10, m at level 100, k at level 200).

(** * internal/store: documents, vectors and jobs *)

Module Store.

(** A [float32], as its IEEE-754 bit pattern. *)
Definition float32 : Type := Z.

(** Neither NaN nor an infinity: the exponent field is not all ones. *)
Definition finite32 (x : float32) : bool :=
  negb (Z.land (Z.shiftr x 23) 255 =? 255).

(** Go errors: a refusal by the database, a message, or a wrapped cause
    ([fmt.Errorf("msg: %w", err)]). *)
Inductive error : Type :=
| Refused (what : string)
| Failure (msg : string)
| Wrapped (msg : string) (cause : error).

(** A Go result pair [(value, err)]. *)
Inductive result (A : Type) : Type :=
| Ok (a : A)
| Err (e : error).
Arguments Ok {A} a.
Arguments Err {A} e.

(** [Document]; the metadata map is [None] for a nil map. *)
Record Document := {
  ID : string;
  Content : string;
  Metadata : option (gmap string string);
  CreatedAt : Z;
}.

(** [Job]. *)
Record Job := {
  JobID : string;
  JobType : string;
  Status : string;
  Params : string;
  Result : string;
  Error : string;
  Progress : Z;
  Total : Z;
  ParentID : string;
  JobCreatedAt : Z;
  UpdatedAt : Z;
}.

Definition JobStatusQueued : string := "queued".
Definition JobStatusProcessing : string := "processing".
Definition JobStatusCompleted : string := "completed".
Definition JobStatusFailed : string := "failed".

Definition JobTypeIndexFile : string := "index_file".
Definition JobTypeIndexDir : string := "index_directory".

(** A row of [documents]. The metadata column holds the JSON text of a
    string map, or the empty text for a nil map; as [json.Marshal] and
    [json.Unmarshal] are inverse on string maps, the column is kept as the
    map itself. Time stamps are in seconds. *)
Record DocRow := {
  d_content : string;
  d_metadata : option (gmap string string);
  d_created_at : Z;
}.

(** A row of [jobs]; [result], [error] and [parent_id] are nullable. *)
Record JobRow := {
  j_id : string;
  j_type : string;
  j_status : string;
  j_params : string;
  j_result : option string;
  j_error : option string;
  j_progress : Z;
  j_total : Z;
  j_parent_id : option string;
  j_created_at : Z;
  j_updated_at : Z;
}.

(** The three tables. [documents] and [documents_vec] have [id] as primary
    key; [vec_dim] is the D of the column [embedding FLOAT[D]] that the
    vector table was created with; [jobs] lists its rows in insertion
    order. *)
Record Tables := {
  documents : gmap string DocRow;
  vec_dim : Z;
  documents_vec : gmap string (list float32);
  jobs : list JobRow;
}.

(** The [Store] struct with the database behind its handle: the committed
    tables, the working copy of the open transaction if there is one, the
    clock that [CURRENT_TIMESTAMP] reads, and for the coming write statements
    (in call order) whether the database will refuse them. Queries are taken
    to succeed. *)
Record Store := {
  dimensions : Z;
  tables : Tables;
  pending : option Tables;
  faults : list bool;
  clock : Z;
}.

Definition with_tables (s : Store) (t : Tables) : Store :=
  {| dimensions := dimensions s; tables := t; pending := pending s;
     faults := faults s; clock := clock s |}.

Definition with_pending (s : Store) (p : option Tables) : Store :=
  {| dimensions := dimensions s; tables := tables s; pending := p;
     faults := faults s; clock := clock s |}.

Definition with_faults (s : Store) (f : list bool) : Store :=
  {| dimensions := dimensions s; tables := tables s; pending := pending s;
     faults := f; clock := clock s |}.

Definition with_jobs (t : Tables) (js : list JobRow) : Tables :=
  {| documents := documents t; vec_dim := vec_dim t;
     documents_vec := documents_vec t; jobs := js |}.

(** State passing over the store. *)
Definition M (A : Type) : Type := State Store A.

(** ** The database interface *)

(** Whether the next write statement is refused. *)
Definition next_fault : M bool := fun s =>
  match faults s with
  | [] => (false, s)
  | f :: fs => (f, with_faults s fs)
  end.

(** [db.Begin]. *)
Definition Begin : M (option error) :=
  do f <- next_fault;
  if f then ret (Some (Refused "begin"))
  else fun s => (None, with_pending s (Some (tables s))).

(** [tx.Exec] of a statement; a failed statement changes nothing. *)
Definition tx_Exec (stmt : Tables -> result Tables) : M (option error) :=
  do f <- next_fault;
  if f then ret (Some (Refused "exec"))
  else fun s =>
    match pending s with
    | None => (Some (Failure "sql: transaction has already been committed or rolled back"), s)
    | Some t =>
        match stmt t with
        | Ok t' => (None, with_pending s (Some t'))
        | Err e => (Some e, s)
        end
    end.

(** [tx.Commit]. *)
Definition Commit : M (option error) :=
  do f <- next_fault;
  if f then ret (Some (Refused "commit"))
  else fun s =>
    match pending s with
    | None => (Some (Failure "sql: transaction has already been committed or rolled back"), s)
    | Some t => (None, with_pending (with_tables s t) None)
    end.

(** [tx.Rollback]: drops the working copy; nothing to do after a commit. *)
Definition Rollback : M unit := fun s => (tt, with_pending s None).

(** [defer tx.Rollback()] around the rest of a function body. *)
Definition defer_Rollback {A} (body : M A) : M A :=
  do a <- body; run Rollback; ret a.

(** [db.Exec] outside a transaction: the statement commits on its own. *)
Definition db_Exec (stmt : Tables -> result Tables) : M (option error) :=
  do f <- next_fault;
  if f then ret (Some (Refused "exec"))
  else fun s =>
    match stmt (tables s) with
    | Ok t' => (None, with_tables s t')
    | Err e => (Some e, s)
    end.

(** [CURRENT_TIMESTAMP]. *)
Definition now : M Z := fun s => (clock s, s).

(** ** Statements *)

(** [INSERT OR REPLACE INTO documents (id, content, metadata)]: the replaced
    row takes a new [created_at]. *)
Definition insert_document (id content : string)
    (metadata : option (gmap string string)) (ts : Z) (t : Tables) : result Tables :=
  Ok {| documents := <[id := {| d_content := content; d_metadata := metadata;
                                d_created_at := ts |}]> (documents t);
        vec_dim := vec_dim t; documents_vec := documents_vec t; jobs := jobs t |}.

(** [INSERT OR REPLACE INTO documents_vec (id, embedding)]: the vector table
    refuses a vector whose length is not the declared dimension. *)
Definition insert_vector (id : string) (embedding : list float32) (t : Tables)
  : result Tables :=
  if Z.of_nat (length embedding) =? vec_dim t then
    Ok {| documents := documents t; vec_dim := vec_dim t;
          documents_vec := <[id := embedding]> (documents_vec t); jobs := jobs t |}
  else Err (Failure "Dimension mismatch for inserted vector for the embedding column").

(** [DELETE FROM documents WHERE id = ?]. *)
Definition delete_document (id : string) (t : Tables) : result Tables :=
  Ok {| documents := delete id (documents t); vec_dim := vec_dim t;
        documents_vec := documents_vec t; jobs := jobs t |}.

(** [DELETE FROM documents_vec WHERE id = ?]. *)
Definition delete_vector (id : string) (t : Tables) : result Tables :=
  Ok {| documents := documents t; vec_dim := vec_dim t;
        documents_vec := delete id (documents_vec t); jobs := jobs t |}.

(** [json.Marshal] of a float slice fails on NaN and on the infinities. *)
Definition marshal_embedding (embedding : list float32) : option error :=
  if forallb finite32 embedding then None
  else Some (Failure "json: unsupported value").

(** ** Documents *)

(** [New] on a database file that is new ([None]) or exists: the tables are
    created if they do not exist, the vector table with the given
    dimension. *)
Definition New (file : option Tables) (dims : Z) (refusals : list bool) (time : Z)
  : Store :=
  {| dimensions := dims;
     tables := match file with
               | Some t => t
               | None => {| documents := ∅; vec_dim := dims;
                            documents_vec := ∅; jobs := [] |}
               end;
     pending := None; faults := refusals; clock := time |}.

Definition wrap_err (msg : string) (e : error) : option error :=
  Some (Wrapped msg e).

(** [AddDocument]. *)
Definition AddDocument (id content : string)
    (metadata : option (gmap string string)) (embedding : list float32)
  : M (option error) :=
  do err <- Begin;
  match err with
  | Some e => ret (wrap_err "beginning transaction" e)
  | None =>
      defer_Rollback (
        do ts <- now;
        do err <- tx_Exec (insert_document id content metadata ts);
        match err with
        | Some e => ret (wrap_err "inserting document" e)
        | None =>
            match marshal_embedding embedding with
            | Some e => ret (wrap_err "marshaling embedding" e)
            | None =>
                do err <- tx_Exec (insert_vector id embedding);
                match err with
                | Some e => ret (wrap_err "inserting vector" e)
                | None => Commit
                end
            end
        end)
  end.

(** [GetDocument]: [Ok None] is "not found". *)
Definition GetDocument (id : string) : M (result (option Document)) := fun s =>
  match documents (tables s) !! id with
  | None => (Ok None, s)
  | Some row =>
      (Ok (Some {| ID := id; Content := d_content row;
                   Metadata := d_metadata row; CreatedAt := d_created_at row |}), s)
  end.

(** [DeleteDocument]. *)
Definition DeleteDocument (id : string) : M (option error) :=
  do err <- Begin;
  match err with
  | Some e => ret (wrap_err "beginning transaction" e)
  | None =>
      defer_Rollback (
        do err <- tx_Exec (delete_document id);
        match err with
        | Some e => ret (wrap_err "deleting document" e)
        | None =>
            do err <- tx_Exec (delete_vector id);
            match err with
            | Some e => ret (wrap_err "deleting vector" e)
            | None => Commit
            end
        end)
  end.

(** The tables after the two inserts of [AddDocument]. *)
Definition added (id content : string) (metadata : option (gmap string string))
    (embedding : list float32) (ts : Z) (t : Tables) : Tables :=
  {| documents := <[id := {| d_content := content; d_metadata := metadata;
                             d_created_at := ts |}]> (documents t);
     vec_dim := vec_dim t;
     documents_vec := <[id := embedding]> (documents_vec t);
     jobs := jobs t |}.

(** The tables after the two deletes of [DeleteDocument]. *)
Definition removed (id : string) (t : Tables) : Tables :=
  {| documents := delete id (documents t); vec_dim := vec_dim t;
     documents_vec := delete id (documents_vec t); jobs := jobs t |}.

(** [Count]. *)
Definition Count : M (result Z) := fun s =>
  (Ok (Z.of_nat (size (documents (tables s)))), s).

(** ** Jobs *)

(** Reading a row into a [Job]: a NULL column leaves the field empty. *)
Definition scan_job (r : JobRow) : Job :=
  {| JobID := j_id r; JobType := j_type r; Status := j_status r;
     Params := j_params r; Result := default "" (j_result r);
     Error := default "" (j_error r); Progress := j_progress r;
     Total := j_total r; ParentID := default "" (j_parent_id r);
     JobCreatedAt := j_created_at r; UpdatedAt := j_updated_at r |}.

Definition with_status (j : Job) (status : string) : Job :=
  {| JobID := JobID j; JobType := JobType j; Status := status;
     Params := Params j; Result := Result j; Error := Error j;
     Progress := Progress j; Total := Total j; ParentID := ParentID j;
     JobCreatedAt := JobCreatedAt j; UpdatedAt := UpdatedAt j |}.

(** [INSERT INTO jobs (id, type, params[, parent_id])]: the status defaults
    to 'queued', the counters to 0 and both time stamps to now; a second row
    with the same primary key is refused. *)
Definition insert_job (id jobType params : string) (parent : option string)
    (ts : Z) (t : Tables) : result Tables :=
  if existsb (fun r => String.eqb (j_id r) id) (jobs t) then
    Err (Failure "UNIQUE constraint failed: jobs.id")
  else
    Ok (with_jobs t (jobs t ++
      [{| j_id := id; j_type := jobType; j_status := "queued";
          j_params := params; j_result := None; j_error := None;
          j_progress := 0; j_total := 0; j_parent_id := parent;
          j_created_at := ts; j_updated_at := ts |}])).

(** The row that [UPDATE ... WHERE id = j] leaves for a row. *)
Definition updated (j : string) (f : JobRow -> JobRow) (r : JobRow) : JobRow :=
  if String.eqb (j_id r) j then f r else r.

(** [UPDATE jobs SET ... WHERE id = ?]. *)
Definition update_job (id : string) (f : JobRow -> JobRow) (t : Tables)
  : result Tables :=
  Ok (with_jobs t (updated id f <$> jobs t)).

Definition set_status (status : string) (ts : Z) (r : JobRow) : JobRow :=
  {| j_id := j_id r; j_type := j_type r; j_status := status;
     j_params := j_params r; j_result := j_result r; j_error := j_error r;
     j_progress := j_progress r; j_total := j_total r;
     j_parent_id := j_parent_id r; j_created_at := j_created_at r;
     j_updated_at := ts |}.

Definition set_progress (progress total ts : Z) (r : JobRow) : JobRow :=
  {| j_id := j_id r; j_type := j_type r; j_status := j_status r;
     j_params := j_params r; j_result := j_result r; j_error := j_error r;
     j_progress := progress; j_total := total;
     j_parent_id := j_parent_id r; j_created_at := j_created_at r;
     j_updated_at := ts |}.

Definition set_result (res : string) (ts : Z) (r : JobRow) : JobRow :=
  {| j_id := j_id r; j_type := j_type r; j_status := JobStatusCompleted;
     j_params := j_params r; j_result := Some res; j_error := j_error r;
     j_progress := j_progress r; j_total := j_total r;
     j_parent_id := j_parent_id r; j_created_at := j_created_at r;
     j_updated_at := ts |}.

Definition set_error (msg : string) (ts : Z) (r : JobRow) : JobRow :=
  {| j_id := j_id r; j_type := j_type r; j_status := JobStatusFailed;
     j_params := j_params r; j_result := j_result r; j_error := Some msg;
     j_progress := j_progress r; j_total := j_total r;
     j_parent_id := j_parent_id r; j_created_at := j_created_at r;
     j_updated_at := ts |}.

(** [SELECT ... FROM jobs WHERE status = ? ORDER BY created_at ASC LIMIT 1];
    of several rows with the least time stamp the first inserted is taken. *)
Definition older (best : option JobRow) (r : JobRow) : option JobRow :=
  match best with
  | None => Some r
  | Some b => if j_created_at r <? j_created_at b then Some r else Some b
  end.

Definition select_oldest (status : string) (t : Tables) : option JobRow :=
  foldl (fun best r => if String.eqb (j_status r) status then older best r else best)
        None (jobs t).

(** [DELETE FROM jobs [WHERE status = ?]]. *)
Definition delete_jobs (status : string) (t : Tables) : result Tables :=
  if String.eqb status "all" then Ok (with_jobs t [])
  else Ok (with_jobs t (filter (fun r => j_status r <> status) (jobs t))).

(** A query inside the open transaction. *)
Definition tx_Query {A} (q : Tables -> A) : M A := fun s =>
  (q (default (tables s) (pending s)), s).

(** [CreateJob]. *)
Definition CreateJob (id jobType params : string) : M (option error) :=
  do ts <- now;
  do err <- db_Exec (insert_job id jobType params None ts);
  match err with
  | Some e => ret (wrap_err "creating job" e)
  | None => ret None
  end.

(** [CreateJobWithParent]. *)
Definition CreateJobWithParent (id jobType params parentID : string)
  : M (option error) :=
  do ts <- now;
  do err <- db_Exec (insert_job id jobType params (Some parentID) ts);
  match err with
  | Some e => ret (wrap_err "creating job" e)
  | None => ret None
  end.

(** [GetJob]: [Ok None] is "not found". *)
Definition GetJob (id : string) : M (result (option Job)) := fun s =>
  (Ok (scan_job <$> List.find (fun r => String.eqb (j_id r) id) (jobs (tables s))), s).

(** [UpdateJobStatus]. *)
Definition UpdateJobStatus (id status : string) : M (option error) :=
  do ts <- now; db_Exec (update_job id (set_status status ts)).

(** [UpdateJobProgress]. *)
Definition UpdateJobProgress (id : string) (progress total : Z) : M (option error) :=
  do ts <- now; db_Exec (update_job id (set_progress progress total ts)).

(** [UpdateJobResult]: stores the result and marks the job completed. *)
Definition UpdateJobResult (id res : string) : M (option error) :=
  do ts <- now; db_Exec (update_job id (set_result res ts)).

(** [UpdateJobError]: stores the message and marks the job failed. *)
Definition UpdateJobError (id errMsg : string) : M (option error) :=
  do ts <- now; db_Exec (update_job id (set_error errMsg ts)).

(** [GetNextPendingJob]: [Ok None] is "no queued job". *)
Definition GetNextPendingJob : M (result (option Job)) :=
  do err <- Begin;
  match err with
  | Some e => ret (Err (Wrapped "beginning transaction" e))
  | None =>
      defer_Rollback (
        do row <- tx_Query (select_oldest JobStatusQueued);
        match row with
        | None => ret (Ok None)
        | Some r =>
            let job := scan_job r in
            do ts <- now;
            do err <- tx_Exec (update_job (JobID job) (set_status JobStatusProcessing ts));
            match err with
            | Some e => ret (Err (Wrapped "claiming job" e))
            | None =>
                do err <- Commit;
                match err with
                | Some e => ret (Err (Wrapped "committing transaction" e))
                | None => ret (Ok (Some (with_status job JobStatusProcessing)))
                end
            end
        end)
  end.

(** [DeleteJobs]: the number of rows removed. *)
Definition DeleteJobs (status : string) : M (result Z) := fun s =>
  let before := length (jobs (tables s)) in
  let '(err, s') := db_Exec (delete_jobs status) s in
  match err with
  | Some e => (Err (Wrapped "deleting jobs" e), s')
  | None => (Ok (Z.of_nat (before - length (jobs (tables s')))), s')
  end.

(** ** Reachable stores *)

(** The calls of the store interface that write, and what the environment
    does between two calls: it moves the clock and decides which of the
    coming statements the database refuses. *)
Inductive op : Type :=
| OpAddDocument (id content : string) (metadata : option (gmap string string))
    (embedding : list float32)
| OpDeleteDocument (id : string)
| OpCreateJob (id jobType params : string)
| OpCreateJobWithParent (id jobType params parentID : string)
| OpUpdateJobStatus (id status : string)
| OpUpdateJobProgress (id : string) (progress total : Z)
| OpUpdateJobResult (id res : string)
| OpUpdateJobError (id errMsg : string)
| OpGetNextPendingJob
| OpDeleteJobs (status : string)
| OpEnvironment (refusals : list bool) (time : Z).

Definition apply_op (o : op) (s : Store) : Store :=
  match o with
  | OpAddDocument id content metadata embedding =>
      (AddDocument id content metadata embedding s).2
  | OpDeleteDocument id => (DeleteDocument id s).2
  | OpCreateJob id jobType params => (CreateJob id jobType params s).2
  | OpCreateJobWithParent id jobType params parentID =>
      (CreateJobWithParent id jobType params parentID s).2
  | OpUpdateJobStatus id status => (UpdateJobStatus id status s).2
  | OpUpdateJobProgress id progress total => (UpdateJobProgress id progress total s).2
  | OpUpdateJobResult id res => (UpdateJobResult id res s).2
  | OpUpdateJobError id errMsg => (UpdateJobError id errMsg s).2
  | OpGetNextPendingJob => (GetNextPendingJob s).2
  | OpDeleteJobs status => (DeleteJobs status s).2
  | OpEnvironment refusals time =>
      {| dimensions := dimensions s; tables := tables s; pending := pending s;
         faults := refusals; clock := time |}
  end.



(** The row that [GetNextPendingJob] marks: every row with the id. *)
Definition claim_row (id : string) (ts : Z) (r : JobRow) : JobRow :=
  updated id (set_status JobStatusProcessing ts) r.

(** Successive calls of [GetNextPendingJob], the environment moving before
    each; the jobs that the calls return, in order. *)
Fixpoint poll (envs : list (list bool * Z)) (s : Store) : list Job :=
  match envs with
  | [] => []
  | (refusals, time) :: rest =>
      let '(r, s') := GetNextPendingJob (apply_op (OpEnvironment refusals time) s) in
      match r with
      | Ok (Some j) => j :: poll rest s'
      | _ => poll rest s'
      end
  end.

(** The ids of the rows with a given status. *)
Definition with_status_ids (status : string) (t : Tables) : list string :=
  j_id <$> filter (fun r => j_status r = status) (jobs t).


(** ** Listings and counts *)

(** The [Document] that a row of [documents] is read into. *)
Definition document_of (id : string) (row : DocRow) : Document :=
  {| ID := id; Content := d_content row; Metadata := d_metadata row;
     CreatedAt := d_created_at row |}.

(** [ORDER BY created_at DESC] on documents. Among rows with the same time
    stamp the database fixes no order; the model has the order of its
    sort. *)
Definition newer_document (a b : Document) : Prop := CreatedAt b <= CreatedAt a.

#[global] Instance newer_document_dec : RelDecision newer_document :=
  fun a b => decide (CreatedAt b <= CreatedAt a).

(** [ListDocuments]. *)
Definition ListDocuments : M (result (list Document)) := fun s =>
  (Ok (merge_sort newer_document
         ((fun kv => document_of kv.1 kv.2) <$> map_to_list (documents (tables s)))), s).

(** [ORDER BY created_at DESC] on jobs. *)
Definition newer_job (a b : JobRow) : Prop := j_created_at b <= j_created_at a.

#[global] Instance newer_job_dec : RelDecision newer_job :=
  fun a b => decide (j_created_at b <= j_created_at a).

(** [ListJobs]: all jobs for the empty status, else those with the status;
    newest first. *)
Definition ListJobs (status : string) : M (result (list Job)) := fun s =>
  let rows :=
    if String.eqb status "" then jobs (tables s)
    else filter (fun r => j_status r = status) (jobs (tables s)) in
  (Ok (scan_job <$> merge_sort newer_job rows), s).

(** [ChildJobStats]. *)
Module ChildJobStats.
Record t := {
  Total : Z;
  Queued : Z;
  Processing : Z;
  Completed : Z;
  Failed : Z;
}.
End ChildJobStats.

(** The children of a job: the rows whose [parent_id] is its id. *)
Definition children (parentID : string) (t : Tables) : list JobRow :=
  filter (fun r => j_parent_id r = Some parentID) (jobs t).

(** [SELECT status, COUNT( * ) FROM jobs WHERE parent_id = ? GROUP BY status]:
    one row for each status that a child has. *)
Definition child_groups (parentID : string) (t : Tables) : list (string * Z) :=
  (fun status =>
     (status, Z.of_nat (length (filter (fun r => j_status r = status)
                                  (children parentID t)))))
    <$> remove_dups (j_status <$> children parentID t).

(** The body of the loop of [GetChildJobStats] over the groups. *)
Definition add_group (stats : ChildJobStats.t) (group : string * Z) : ChildJobStats.t :=
  let '(status, count) := group in
  let total := GoInt.add (ChildJobStats.Total stats) count in
  if String.eqb status JobStatusQueued then
    {| ChildJobStats.Total := total; ChildJobStats.Queued := count;
       ChildJobStats.Processing := ChildJobStats.Processing stats;
       ChildJobStats.Completed := ChildJobStats.Completed stats;
       ChildJobStats.Failed := ChildJobStats.Failed stats |}
  else if String.eqb status JobStatusProcessing then
    {| ChildJobStats.Total := total; ChildJobStats.Queued := ChildJobStats.Queued stats;
       ChildJobStats.Processing := count;
       ChildJobStats.Completed := ChildJobStats.Completed stats;
       ChildJobStats.Failed := ChildJobStats.Failed stats |}
  else if String.eqb status JobStatusCompleted then
    {| ChildJobStats.Total := total; ChildJobStats.Queued := ChildJobStats.Queued stats;
       ChildJobStats.Processing := ChildJobStats.Processing stats;
       ChildJobStats.Completed := count;
       ChildJobStats.Failed := ChildJobStats.Failed stats |}
  else if String.eqb status JobStatusFailed then
    {| ChildJobStats.Total := total; ChildJobStats.Queued := ChildJobStats.Queued stats;
       ChildJobStats.Processing := ChildJobStats.Processing stats;
       ChildJobStats.Completed := ChildJobStats.Completed stats;
       ChildJobStats.Failed := count |}
  else
    {| ChildJobStats.Total := total; ChildJobStats.Queued := ChildJobStats.Queued stats;
       ChildJobStats.Processing := ChildJobStats.Processing stats;
       ChildJobStats.Completed := ChildJobStats.Completed stats;
       ChildJobStats.Failed := ChildJobStats.Failed stats |}.

(** [GetChildJobStats]. *)
Definition GetChildJobStats (parentID : string) : M (result ChildJobStats.t) := fun s =>
  (Ok (foldl add_group
         {| ChildJobStats.Total := 0; ChildJobStats.Queued := 0;
            ChildJobStats.Processing := 0; ChildJobStats.Completed := 0;
            ChildJobStats.Failed := 0 |}
         (child_groups parentID (tables s))), s).

(** The number of rows with a status. *)
Definition count_status (status : string) (l : list JobRow) : Z :=
  Z.of_nat (length (filter (fun r => j_status r = status) l)).

End Store.

(** * internal/goldie: the chunker *)

Module Goldie.

Import GoString.

Definition DefaultDimensions : Z := 384.
Definition DefaultChunkSize : Z := 1000.
Definition DefaultChunkOverlap : Z := 200.

(** The numeric fields of [Config]. *)
Record Config := {
  Dimensions : Z;
  ChunkSize : Z;
  ChunkOverlap : Z;
}.

(** The fields of the [Goldie] struct that the chunker and the indexer
    read; the store it points to is passed as state and the embedder as
    an oracle. *)
Record Goldie := {
  chunkSize : Z;
  chunkOverlap : Z;
}.

(** The dimension that [New] opens the store with. *)
Definition store_dimensions (cfg : Config) : Z :=
  if Dimensions cfg =? 0 then DefaultDimensions else Dimensions cfg.

(** [New]: a zero field takes its default. *)
Definition New (cfg : Config) : Goldie :=
  {| chunkSize := if ChunkSize cfg =? 0 then DefaultChunkSize else ChunkSize cfg;
     chunkOverlap := if ChunkOverlap cfg =? 0 then DefaultChunkOverlap else ChunkOverlap cfg |}.

(** How a run of the chunker can end: with a value, with a run-time panic,
    or (in the model only) by using up the iteration budget. *)
Inductive outcome (A : Type) : Type :=
| Done (a : A)
| Panic
| OutOfFuel.
Arguments Done {A} a.
Arguments Panic {A}.
Arguments OutOfFuel {A}.

(** The variables of the loop of [chunkText]. *)
Record cursor := {
  start : Z;
  prevStart : Z;
  chunks : list string;
}.

Inductive iteration : Type :=
| Exit (cs : list string)   (* loop condition false, or [break] *)
| Next (c : cursor)
| Crash.                    (* slice bounds out of range *)

Section chunker.
Context `{GoRuntime}.

(** The break point: [end] after the word-boundary search. *)
Definition chunk_end (r : Goldie) (text : string) (start : Z) : option Z :=
  let end0 := Z.min (GoInt.add start (chunkSize r)) (len text) in
  if end0 <? len text then
    match slice text start end0 with
    | None => None
    | Some w =>
        let lastSpace := LastIndex w " " in
        Some (if lastSpace >? Z.quot (chunkSize r) 2
              then GoInt.add start lastSpace else end0)
    end
  else Some end0.

(** [newStart] as computed at the end of the loop body. *)
Definition advance (r : Goldie) (start end_ : Z) : Z :=
  let newStart := GoInt.sub end_ (chunkOverlap r) in
  let newStart := if newStart <=? start then end_ else newStart in
  if newStart <? 0 then 0 else newStart.

(** The loop test and one pass through the loop body. *)
Definition chunk_step (r : Goldie) (text : string) (c : cursor) : iteration :=
  if negb (start c <? len text) then Exit (chunks c)
  else if start c =? prevStart c then Exit (chunks c)
  else
    match chunk_end r text (start c) with
    | None => Crash
    | Some end_ =>
        match slice text (start c) end_ with
        | None => Crash
        | Some w =>
            let chunk := TrimSpace w in
            let chunks' :=
              if len chunk >? 0 then chunks c ++ [chunk] else chunks c in
            if Z.of_nat (length chunks') >? 10000 then Exit chunks'
            else Next {| start := advance r (start c) end_;
                         prevStart := start c;
                         chunks := chunks' |}
        end
    end.

Fixpoint chunk_loop (fuel : nat) (r : Goldie) (text : string) (c : cursor)
  : outcome (list string) :=
  match fuel with
  | O => OutOfFuel
  | S fuel' =>
      match chunk_step r text c with
      | Exit cs => Done cs
      | Crash => Panic
      | Next c' => chunk_loop fuel' r text c'
      end
  end.

(** [chunkText]: the loop runs at most [len(text) + 2] times. *)
Definition chunkText (r : Goldie) (text : string) : outcome (list string) :=
  if len text <=? chunkSize r then Done [text]
  else chunk_loop (S (S (String.length text))) r text
         {| start := 0; prevStart := -1; chunks := [] |}.

End chunker.

(** ** The indexer *)

(** The embedder that the indexer drives ([embedder.Interface]). *)
Class Embedder := {
  Embed : string -> Store.result (list Store.float32);
  GetDimensions : Z;
}.

(** [os.ReadFile] on the file system as it is during a call. *)
Class FileSystem := {
  ReadFile : string -> Store.result string;
}.

(** A Go map value: nil, or a reference to a map on the heap. *)
Definition mapref : Type := option nat.

(** What the indexer works on: the store, the heap on which the
    [map[string]string] values live, and the ids that [uuid.New] is going to
    return. *)
Record World := {
  store : Store.Store;
  heap : gmap nat (gmap string string);
  uuids : list string;
}.

Definition W (A : Type) : Type := State World A.

(** A call into the store. *)
Definition in_store {A} (m : Store.M A) : W A := fun w =>
  let '(a, s') := m (store w) in
  (a, {| store := s'; heap := heap w; uuids := uuids w |}).

Definition with_heap (w : World) (h : gmap nat (gmap string string)) : World :=
  {| store := store w; heap := h; uuids := uuids w |}.

(** [make(map[string]string)] and map literals: a new map on the heap. *)
Definition make_map (entries : gmap string string) : W mapref := fun w =>
  let l := fresh (dom (heap w)) in
  (Some l, with_heap w (<[l := entries]> (heap w))).

(** The entries of a map; a nil map has none. *)
Definition entries_of (m : mapref) (h : gmap nat (gmap string string))
  : gmap string string :=
  match m with
  | None => ∅
  | Some l => default ∅ (h !! l)
  end.

(** [maps.Copy(dst, src)]: every entry of [src] is written into [dst]. *)
Definition maps_Copy (dst src : mapref) : W unit := fun w =>
  match dst with
  | None => (tt, w)
  | Some l =>
      (tt, with_heap w (<[l := entries_of src (heap w) ∪ entries_of dst (heap w)]> (heap w)))
  end.

(** [m[k] = v], on a map that has been made: [Index] assigns only to the
    map it has just made for the chunk. *)
Definition map_set (m : mapref) (k v : string) : W unit := fun w =>
  match m with
  | None => (tt, w)
  | Some l => (tt, with_heap w (<[l := <[k := v]> (entries_of m (heap w))]> (heap w)))
  end.

(** What [json.Marshal] reads of a map passed to [AddDocument]. *)
Definition read_map (m : mapref) : W (option (gmap string string)) := fun w =>
  match m with
  | None => (None, w)
  | Some _ => (Some (entries_of m (heap w)), w)
  end.

(** [uuid.New().String()]. *)
Definition uuid_New : W string := fun w =>
  match uuids w with
  | [] => ("", w)
  | u :: us => (u, {| store := store w; heap := heap w; uuids := us |})
  end.

(** [IndexResult]. *)
Record IndexResult := {
  ID : string;
  ChunkCount : Z;
}.

Definition chunk_id (id : string) (i : Z) : string :=
  String.append id (String.append "_chunk_" (itoa i)).

Section indexer.
Context `{GoRuntime} `{Embedder} `{FileSystem}.

(** The loop of [Index] over the chunks, from index [i] on. *)
Fixpoint index_chunks (id : string) (metadata : mapref) (total : Z) (i : Z)
    (chunks : list string) : W (option Store.error) :=
  match chunks with
  | [] => ret None
  | chunk :: rest =>
      let chunkID := chunk_id id i in
      do chunkMeta <- make_map ∅;
      run maps_Copy chunkMeta metadata;
      run map_set chunkMeta "parent_id" id;
      run map_set chunkMeta "chunk_index" (itoa i);
      run map_set chunkMeta "total_chunks" (itoa total);
      match Embed chunk with
      | Store.Err e =>
          ret (Some (Store.Wrapped
                       (String.append "generating embedding for chunk " (itoa i)) e))
      | Store.Ok embedding =>
          do meta <- read_map chunkMeta;
          do err <- in_store (Store.AddDocument chunkID chunk meta embedding);
          match err with
          | Some e =>
              ret (Some (Store.Wrapped (String.append "storing chunk " (itoa i)) e))
          | None => index_chunks id metadata total (i + 1) rest
          end
      end
  end.

(** [if id == "" { id = uuid.New().String() }]. *)
Definition default_id (id : string) : W string :=
  if String.eqb id "" then uuid_New else ret id.

(** [Index]. *)
Definition Index (r : Goldie) (content : string) (metadata : mapref) (id : string)
  : W (outcome (Store.result IndexResult)) :=
  if String.eqb content "" then ret (Done (Store.Err (Store.Failure "empty content")))
  else
    do id <- default_id id;
    if len content <=? chunkSize r then
      match Embed content with
      | Store.Err e => ret (Done (Store.Err (Store.Wrapped "generating embedding" e)))
      | Store.Ok embedding =>
          do meta <- read_map metadata;
          do err <- in_store (Store.AddDocument id content meta embedding);
          match err with
          | Some e => ret (Done (Store.Err (Store.Wrapped "storing document" e)))
          | None => ret (Done (Store.Ok {| ID := id; ChunkCount := 1 |}))
          end
      end
    else
      match chunkText r content with
      | Panic => ret Panic
      | OutOfFuel => ret OutOfFuel
      | Done chunks =>
          do err <- index_chunks id metadata (Z.of_nat (length chunks)) 0 chunks;
          match err with
          | Some e => ret (Done (Store.Err e))
          | None =>
              ret (Done (Store.Ok {| ID := id;
                                     ChunkCount := Z.of_nat (length chunks) |}))
          end
      end.

(** The loop of [DeleteDocumentAndChunks] over the chunk ids, with [n]
    indices left of the 10 000; the errors of the deletes are dropped. *)
Fixpoint delete_chunks (n : nat) (id : string) (i : Z) (deleted : Z) : W Z :=
  match n with
  | O => ret deleted
  | S n' =>
      let chunkID := chunk_id id i in
      do doc <- in_store (Store.GetDocument chunkID);
      match doc with
      | Store.Ok (Some _) =>
          run in_store (Store.DeleteDocument chunkID);
          delete_chunks n' id (i + 1) (deleted + 1)
      | _ => ret deleted
      end
  end.

(** [DeleteDocumentAndChunks]. *)
Definition DeleteDocumentAndChunks (id : string) : W Z :=
  do doc <- in_store (Store.GetDocument id);
  do deleted <-
    match doc with
    | Store.Ok (Some _) => run in_store (Store.DeleteDocument id); ret 1
    | _ => ret 0
    end;
  delete_chunks (Z.to_nat 10000) id 0 deleted.

(** [doc != nil && doc.Metadata != nil && doc.Metadata["checksum"] == checksum];
    a key that is absent reads as the empty string. *)
Definition same_checksum (doc : Store.result (option Store.Document))
    (checksum : string) : bool :=
  match doc with
  | Store.Ok (Some d) =>
      match Store.Metadata d with
      | Some m => String.eqb (default "" (m !! "checksum")) checksum
      | None => false
      end
  | _ => false
  end.

Definition found (doc : Store.result (option Store.Document)) : bool :=
  match doc with
  | Store.Ok (Some _) => true
  | _ => false
  end.

(** [IndexFile]. *)
Definition IndexFile (r : Goldie) (path : string)
  : W (outcome (Store.result IndexResult)) :=
  let id := Base path in
  match ReadFile path with
  | Store.Err e => ret (Done (Store.Err (Store.Wrapped "reading file" e)))
  | Store.Ok content =>
      let checksum := sha256_hex content in
      do existing <- in_store (Store.GetDocument id);
      if same_checksum existing checksum
      then ret (Done (Store.Ok {| ID := id; ChunkCount := 0 |}))
      else
        do existingChunk <- in_store (Store.GetDocument (String.append id "_chunk_0"));
        if same_checksum existingChunk checksum
        then ret (Done (Store.Ok {| ID := id; ChunkCount := 0 |}))
        else
          run (if found existing || found existingChunk
               then run DeleteDocumentAndChunks id; ret tt
               else ret tt);
          do metadata <- make_map (<["source" := path]>
                                   (<["filename" := Base path]>
                                    (<["checksum" := checksum]> ∅)));
          Index r content metadata id
  end.

End indexer.

(** Every map that exists on [h] is on [h'] with the same entries. *)
Definition heap_extends (h h' : gmap nat (gmap string string)) : Prop :=
  forall l, l ∈ dom h -> h' !! l = h !! l.

(** A map value that is nil or refers to a map on the heap. *)
Definition allocated (m : mapref) (h : gmap nat (gmap string string)) : Prop :=
  forall l, m = Some l -> l ∈ dom h.

(** The store holds a document [id] whose metadata carry the checksum. *)
Definition has_checksum (s : Store.Store) (id checksum : string) : Prop :=
  exists row m,
    Store.documents (Store.tables s) !! id = Some row /\
    Store.d_metadata row = Some m /\ m !! "checksum" = Some checksum.

(** The metadata stored with chunk [i] of [total]: the caller's entries and
    the three reserved keys. *)
Definition chunk_meta (entries : gmap string string) (id : string) (i total : Z)
  : gmap string string :=
  <["total_chunks" := itoa total]>
    (<["chunk_index" := itoa i]> (<["parent_id" := id]> (entries ∪ ∅))).

(** Two worlds with the same job table. *)
Definition same_jobs (w w' : World) : Prop :=
  Store.jobs (Store.tables (store w')) = Store.jobs (Store.tables (store w)).

(** The sizes for which no sum or difference of [chunkText] leaves the
    range of [int]. *)
Definition bounded (r : Goldie) (text : string) : Prop :=
  Z.abs (chunkSize r) <= 2 ^ 62 /\ Z.abs (chunkOverlap r) <= 2 ^ 62 /\
  len text < 2 ^ 62.

(** The configuration [New] builds from chunk size 1 (a zero overlap takes
    the default 200). *)
Definition unit_chunks : Goldie :=
  New {| Dimensions := 0; ChunkSize := 1; ChunkOverlap := 0 |}.

(** [windows text cs b]: the entries of [cs] are, in order, trimmed slices of
    [text] taken at strictly increasing offsets, all below [b]. *)
Inductive windows `{GoRuntime} (text : string) : list string -> Z -> Prop :=
| windows_nil b : windows text [] b
| windows_snoc cs b a e w b' :
    windows text cs b -> b <= a -> a < b' -> slice text a e = Some w ->
    windows text (cs ++ [TrimSpace w]) b'.

(** ** The skip patterns of a directory scan *)

(** [strings.HasPrefix]. *)
Definition HasPrefix (s prefix : string) : bool := String.prefix prefix s.

(** [strings.Contains]. *)
Fixpoint Contains (s substr : string) : bool :=
  String.prefix substr s ||
  match s with
  | String _ s' => Contains s' substr
  | EmptyString => false
  end.

(** [strings.CutPrefix(s, "/")]. *)
Definition CutPrefix_slash (s : string) : option string :=
  match s with
  | String "/" rest => Some rest
  | _ => None
  end.

(** [strings.HasSuffix(s, "/")]. *)
Fixpoint HasSuffix_slash (s : string) : bool :=
  match s with
  | EmptyString => false
  | String a EmptyString => Ascii.eqb a "/"
  | String _ s' => HasSuffix_slash s'
  end.

(** [strings.SplitSeq(s, "\n")]: the parts between the line feeds, all of
    them, the empty ones included. *)
Fixpoint split_lines (s : string) : list string :=
  match s with
  | EmptyString => [EmptyString]
  | String a s' =>
      if Ascii.eqb a "010" then EmptyString :: split_lines s'
      else match split_lines s' with
           | line :: rest => String a line :: rest
           | [] => [String a EmptyString]
           end
  end.

(** The functions of [path/filepath] that the scan calls. *)
Class FilePath := {
  (** [filepath.Join] of two elements. *)
  Join : string -> string -> string;
  (** [filepath.Rel(basepath, targpath)]. *)
  Rel : string -> string -> Store.result string;
  (** [filepath.Match(pattern, name)]. *)
  Match : string -> string -> Store.result bool;
}.

(** What [filepath.Walk] meets at a path: a name whose [Lstat] fails, a
    file, or a directory with what its names lead to in lexical order
    ([readable] is false when the names cannot be read). Each entry
    carries the path that the walk passes to its function. *)
#[warnings="-register-all"]
Inductive entry :=
| NoInfo (path : string)
| RegularFile (path : string)
| Folder (path : string) (readable : bool) (names : list entry).

(** The directory tree during a scan: what a walk from a root meets, the
    result of [filepath.Glob], and whether [os.Stat] succeeds on a path
    and reports something that is not a directory. *)
Class FileTree := {
  tree : string -> entry;
  Glob : string -> Store.result (list string);
  is_file : string -> bool;
}.

Definition defaultSkipPatterns : list string :=
  [".[!.]*"; "node_modules/"; "vendor/"; "__pycache__/"; "AGENTS.md"; "CLAUDE.md"].

Section skip.
Context `{GoRuntime} `{FileSystem} `{FilePath}.

(** [loadSkipPatterns]. *)
Definition loadSkipPatterns (dir : string) : list string :=
  match ReadFile (Join dir ".goldieskip") with
  | Store.Err _ => defaultSkipPatterns
  | Store.Ok content =>
      filter (fun line => ~ (line = "" \/ HasPrefix line "#" = true))
             (TrimSpace <$> split_lines content)
  end.

(** [matched, _ := filepath.Match(pattern, name)]. *)
Definition matched (pattern name : string) : bool :=
  match Match pattern name with
  | Store.Ok b => b
  | Store.Err _ => false
  end.

(** The body of the loop of [shouldSkip]: whether one pattern skips the
    path. *)
Definition skips (path relPath pattern : string) : bool :=
  matched pattern (Base path) ||
  matched pattern relPath ||
  match CutPrefix_slash pattern with
  | Some dirPattern =>
      HasPrefix relPath (String.append dirPattern "/") ||
      Contains relPath (String.append "/" (String.append dirPattern "/"))
  | None => false
  end ||
  Contains relPath (String.append "/" (String.append pattern "/")) ||
  HasPrefix relPath (String.append pattern "/").

(** [shouldSkip]. *)
Definition shouldSkip (path baseDir : string) (patterns : list string) : bool :=
  let relPath :=
    match Rel baseDir path with
    | Store.Ok rel => rel
    | Store.Err _ => path
    end in
  existsb (skips path relPath) patterns.

(** [len(skipPatterns) > 0 && r.shouldSkip(path, dir, skipPatterns)]. *)
Definition skipped (path dir : string) (skipPatterns : list string) : bool :=
  negb (Nat.eqb (length skipPatterns) 0) && shouldSkip path dir skipPatterns.

(** [filepath.Walk] with the function of [ScanDirectory] and of
    [IndexDirectory]: the files that it appends, in the order of the walk.
    The function returns nil when it is called with an error, [SkipDir]
    for a skipped directory (the walk then leaves its names out, and ends
    without an error when the directory is the root) and nil elsewhere;
    a pattern that [filepath.Match] refuses appends nothing. *)
Fixpoint walk (dir pattern : string) (skipPatterns : list string) (e : entry)
  : list string :=
  match e with
  | NoInfo _ => []
  | RegularFile path =>
      if skipped path dir skipPatterns then []
      else match Match pattern (Base path) with
           | Store.Ok true => [path]
           | _ => []
           end
  | Folder path readable names =>
      if negb readable then []
      else if skipped path dir skipPatterns then []
      else flat_map (walk dir pattern skipPatterns) names
  end.


Fixpoint readable_files (e : entry) : list string :=
  match e with
  | NoInfo _ => []
  | RegularFile path => [path]
  | Folder _ readable names =>
      if negb readable then [] else flat_map readable_files names
  end.

Context `{FileTree}.

(** [ScanDirectory]: the files of the result, or the error. *)
Definition ScanDirectory (dir pattern : string) (recursive : bool)
  : Store.result (list string) :=
  let pattern := if String.eqb pattern "" then "*" else pattern in
  let skipPatterns := loadSkipPatterns dir in
  if recursive then Store.Ok (walk dir pattern skipPatterns (tree dir))
  else match Glob (Join dir pattern) with
       | Store.Err e => Store.Err (Store.Wrapped "glob pattern" e)
       | Store.Ok files => Store.Ok (filter (fun file => is_file file = true) files)
       end.

End skip.

(** ** Indexing a directory *)

Record IndexDirResult := {
  IndexedFiles : list string;
  SkippedFiles : list string;
  FailedFiles : list string;
  TotalChunks : Z;
}.

Section directories.
Context `{GoRuntime} `{Embedder} `{FileSystem} `{FilePath} `{FileTree}.

(** The loop of [IndexDirectory] over the files that are left. *)
Fixpoint index_files (r : Goldie) (files : list string) (result : IndexDirResult)
  : W (outcome IndexDirResult) :=
  match files with
  | [] => ret (Done result)
  | file :: rest =>
      if negb (is_file file) then index_files r rest result
      else
        do indexed <- IndexFile r file;
        match indexed with
        | Panic => ret Panic
        | OutOfFuel => ret OutOfFuel
        | Done (Store.Err _) =>
            index_files r rest
              {| IndexedFiles := IndexedFiles result;
                 SkippedFiles := SkippedFiles result;
                 FailedFiles := FailedFiles result ++ [file];
                 TotalChunks := TotalChunks result |}
        | Done (Store.Ok indexResult) =>
            if ChunkCount indexResult =? 0
            then index_files r rest
                   {| IndexedFiles := IndexedFiles result;
                      SkippedFiles := SkippedFiles result ++ [file];
                      FailedFiles := FailedFiles result;
                      TotalChunks := TotalChunks result |}
            else index_files r rest
                   {| IndexedFiles := IndexedFiles result ++ [file];
                      SkippedFiles := SkippedFiles result;
                      FailedFiles := FailedFiles result;
                      TotalChunks := GoInt.add (TotalChunks result)
                                       (ChunkCount indexResult) |}
        end
  end.

(** [IndexDirectory]. *)
Definition IndexDirectory (r : Goldie) (dir pattern : string) (recursive : bool)
  : W (outcome (Store.result IndexDirResult)) :=
  let pattern := if String.eqb pattern "" then "*" else pattern in
  let skipPatterns := loadSkipPatterns dir in
  let found :=
    if recursive then Store.Ok (walk dir pattern skipPatterns (tree dir))
    else match Glob (Join dir pattern) with
         | Store.Err e => Store.Err (Store.Wrapped "glob pattern" e)
         | Store.Ok files => Store.Ok files
         end in
  match found with
  | Store.Err e => ret (Done (Store.Err e))
  | Store.Ok files =>
      do result <- index_files r files
                     {| IndexedFiles := []; SkippedFiles := []; FailedFiles := [];
                        TotalChunks := 0 |};
      ret (match result with
           | Done res => Done (Store.Ok res)
           | Panic => Panic
           | OutOfFuel => OutOfFuel
           end)
  end.

End directories.

(** The chunks that a list of windows [(start, end)] of a text gives: the
    trimmed slices that are not empty, in the order of the windows. *)
Definition window_chunks `{GoRuntime} (text : string) (spans : list (Z * Z))
  : list string :=
  filter (fun chunk => 0 < len chunk)
    ((fun span : Z * Z => TrimSpace (default "" (slice text span.1 span.2))) <$> spans).

End Goldie.

(** * internal/queue: the worker *)

Module Queue.

Import Store.

(** [IndexFileParams] and [IndexDirParams]. *)
Record IndexFileParams := { Path : string }.

Record IndexDirParams := {
  Directory : string;
  Pattern : string;
  Recursive : bool;
}.

(** [encoding/json] on the parameter structures and on the result maps of
    the two kinds of job. *)
Class Json := {
  marshal_file_params : IndexFileParams -> result string;
  unmarshal_file_params : string -> result IndexFileParams;
  marshal_dir_params : IndexDirParams -> result string;
  unmarshal_dir_params : string -> result IndexDirParams;
  marshal_file_result : Goldie.IndexResult -> string -> result string;
  marshal_dir_result : Z -> list string -> IndexDirParams -> result string;
}.

(** The verb [%v] on an error. *)
Fixpoint error_text (e : error) : string :=
  match e with
  | Refused what => what
  | Failure msg => msg
  | Wrapped msg cause => String.append msg (String.append ": " (error_text cause))
  end.

Section queue.
Context `{GoRuntime} `{Goldie.Embedder} `{Goldie.FileSystem} `{Json}.

(** [EnqueueIndexFile], for the id that [uuid.New] returns. *)
Definition EnqueueIndexFile (id path : string) : M (result string) :=
  match marshal_file_params {| Path := path |} with
  | Err e => ret (Err (Wrapped "marshaling params" e))
  | Ok params =>
      do err <- CreateJob id JobTypeIndexFile params;
      match err with
      | Some e => ret (Err (Wrapped "creating job" e))
      | None => ret (Ok id)
      end
  end.

(** [EnqueueIndexFileWithParent]. *)
Definition EnqueueIndexFileWithParent (id path parentID : string) : M (result string) :=
  match marshal_file_params {| Path := path |} with
  | Err e => ret (Err (Wrapped "marshaling params" e))
  | Ok params =>
      do err <- CreateJobWithParent id JobTypeIndexFile params parentID;
      match err with
      | Some e => ret (Err (Wrapped "creating job" e))
      | None => ret (Ok id)
      end
  end.

(** [EnqueueIndexDirectory]. *)
Definition EnqueueIndexDirectory (id directory pattern : string) (recursive : bool)
  : M (result string) :=
  match marshal_dir_params {| Directory := directory; Pattern := pattern;
                              Recursive := recursive |} with
  | Err e => ret (Err (Wrapped "marshaling params" e))
  | Ok params =>
      do err <- CreateJob id JobTypeIndexDir params;
      match err with
      | Some e => ret (Err (Wrapped "creating job" e))
      | None => ret (Ok id)
      end
  end.

(** What is left of the job that the worker is processing: the calls it is
    still to make, each with what the worker does with the answer. The
    handlers of the tool server run between any two of these calls. *)
Inductive prog : Type :=
| Halt
| DoUpdateProgress (id : string) (progress total : Z) (k : prog)
| DoUpdateError (id msg : string) (k : prog)
| DoUpdateResult (id res : string) (k : prog)
| DoIndexFile (path : string) (k : Goldie.outcome (result Goldie.IndexResult) -> prog)
| DoScanDirectory (dir pattern : string) (recursive : bool)
    (k : result (list string) -> prog)
| DoEnqueueChild (path parentID : string) (k : result string -> prog).

(** [processIndexFile]. *)
Definition processIndexFile (job : Job) : prog :=
  match unmarshal_file_params (Params job) with
  | Err e =>
      DoUpdateError (JobID job) (String.append "invalid params: " (error_text e)) Halt
  | Ok params =>
      DoUpdateProgress (JobID job) 0 1
        (DoIndexFile (Path params) (fun answer =>
           match answer with
           | Goldie.Done (Err e) =>
               DoUpdateError (JobID job)
                 (String.append "indexing failed: " (error_text e)) Halt
           | Goldie.Done (Ok res) =>
               match marshal_file_result res (Path params) with
               | Err e =>
                   DoUpdateError (JobID job)
                     (String.append "failed to marshal result: " (error_text e)) Halt
               | Ok resultJSON =>
                   DoUpdateProgress (JobID job) 1 1
                     (DoUpdateResult (JobID job) resultJSON Halt)
               end
           | _ => Halt   (* the panic unwinds to the worker's [recover] *)
           end))
  end.

(** The loop of [processIndexDirectory] over the files found; a child that
    cannot be created is skipped. *)
Fixpoint enqueue_children (parentID : string) (files : list string)
    (childJobIDs : list string) (k : list string -> prog) : prog :=
  match files with
  | [] => k childJobIDs
  | file :: rest =>
      DoEnqueueChild file parentID (fun answer =>
        match answer with
        | Err _ => enqueue_children parentID rest childJobIDs k
        | Ok childID => enqueue_children parentID rest (childJobIDs ++ [childID]) k
        end)
  end.

(** [processIndexDirectory]. *)
Definition processIndexDirectory (job : Job) : prog :=
  match unmarshal_dir_params (Params job) with
  | Err e =>
      DoUpdateError (JobID job) (String.append "invalid params: " (error_text e)) Halt
  | Ok params =>
      DoScanDirectory (Directory params) (Pattern params) (Recursive params)
        (fun answer =>
           match answer with
           | Err e =>
               DoUpdateError (JobID job)
                 (String.append "scanning failed: " (error_text e)) Halt
           | Ok files =>
               let fileCount := Z.of_nat (length files) in
               DoUpdateProgress (JobID job) 0 fileCount
                 (enqueue_children (JobID job) files [] (fun childJobIDs =>
                    match marshal_dir_result fileCount childJobIDs params with
                    | Err e =>
                        DoUpdateError (JobID job)
                          (String.append "failed to marshal result: " (error_text e))
                          Halt
                    | Ok resultJSON => DoUpdateResult (JobID job) resultJSON Halt
                    end))
           end)
  end.

(** The [switch] of [processNextJob] on the type of the claimed job. *)
Definition dispatch (job : Job) : prog :=
  if String.eqb (JobType job) JobTypeIndexFile then processIndexFile job
  else if String.eqb (JobType job) JobTypeIndexDir then processIndexDirectory job
  else DoUpdateError (JobID job)
         (String.append "unknown job type: " (JobType job)) Halt.

(** The server: the indexer with its world, what is left of the job in
    progress, and the ids that [uuid.New] has returned so far (it never
    returns one twice). *)
Record Server := {
  goldie : Goldie.Goldie;
  world : Goldie.World;
  worker : prog;
  used : gset string;
}.

Definition with_store (v : Server) (s : Store) (p : prog) (u : gset string) : Server :=
  {| goldie := goldie v;
     world := {| Goldie.store := s; Goldie.heap := Goldie.heap (world v);
                 Goldie.uuids := Goldie.uuids (world v) |};
     worker := p; used := u |}.

(** [handleIndexContent], from the decoded arguments on: the metadata are
    nil or a map that the JSON decoder has just made, the id is left to
    [Index]. *)
Definition index_content (r : Goldie.Goldie) (content : string)
    (metadata : option (gmap string string))
  : Goldie.W (Goldie.outcome (result Goldie.IndexResult)) :=
  do m <- match metadata with
          | Some entries => Goldie.make_map entries
          | None => ret None
          end;
  Goldie.Index r content m "".

(** What happens next: a handler enqueues a job or clears the queue, the
    environment moves, the idle worker polls ([processNextJob] up to the
    dispatch), the busy worker makes its next call, the worker panics and
    restarts, or a handler indexes a content or deletes a document with its
    chunks. *)
Inductive event : Type :=
| EnqueueFile (id path : string)
| EnqueueDirectory (id directory pattern : string) (recursive : bool)
| ClearQueue (status : string)
| Environment (refusals : list bool) (time : Z)
| Poll
| Call (scanned : result (list string)) (id : string)
| WorkerPanic
| IndexContent (content : string) (metadata : option (gmap string string))
| DeleteDocuments (id : string).

Definition valid_clear (status : string) : bool :=
  String.eqb status "queued" || String.eqb status "completed" ||
  String.eqb status "failed" || String.eqb status "all".

(** The next call of the busy worker; [scanned] is what [ScanDirectory]
    answers and [id] what [uuid.New] returns, should the call need them. *)
Definition call (scanned : result (list string)) (id : string) (v : Server)
  : option Server :=
  let s := Goldie.store (world v) in
  match worker v with
  | Halt => None
  | DoUpdateProgress job progress total k =>
      Some (with_store v (UpdateJobProgress job progress total s).2 k (used v))
  | DoUpdateError job msg k =>
      Some (with_store v (UpdateJobError job msg s).2 k (used v))
  | DoUpdateResult job res k =>
      Some (with_store v (UpdateJobResult job res s).2 k (used v))
  | DoIndexFile path k =>
      let '(answer, w') := Goldie.IndexFile (goldie v) path (world v) in
      Some {| goldie := goldie v; world := w'; worker := k answer; used := used v |}
  | DoScanDirectory _ _ _ k =>
      Some {| goldie := goldie v; world := world v; worker := k scanned;
              used := used v |}
  | DoEnqueueChild path parentID k =>
      if decide (id ∈ used v) then None
      else
        let '(answer, s') := EnqueueIndexFileWithParent id path parentID s in
        Some (with_store v s' (k answer) ({[id]} ∪ used v))
  end.

Definition step (e : event) (v : Server) : option Server :=
  let s := Goldie.store (world v) in
  match e with
  | EnqueueFile id path =>
      if decide (id ∈ used v) then None
      else Some (with_store v (EnqueueIndexFile id path s).2 (worker v)
                   ({[id]} ∪ used v))
  | EnqueueDirectory id directory pattern recursive =>
      if decide (id ∈ used v) then None
      else Some (with_store v (EnqueueIndexDirectory id directory pattern recursive s).2
                   (worker v) ({[id]} ∪ used v))
  | ClearQueue status =>
      if valid_clear status
      then Some (with_store v (DeleteJobs status s).2 (worker v) (used v))
      else None
  | Environment refusals time =>
      Some (with_store v (apply_op (OpEnvironment refusals time) s) (worker v) (used v))
  | Poll =>
      match worker v with
      | Halt =>
          let '(answer, s') := GetNextPendingJob s in
          Some (with_store v s'
                  match answer with
                  | Ok (Some job) => dispatch job
                  | _ => Halt
                  end (used v))
      | _ => None
      end
  | Call scanned id => call scanned id v
  | WorkerPanic => Some (with_store v s Halt (used v))
  | IndexContent content metadata =>
      if String.eqb content "" then None
      else
        let '(_, w') := index_content (goldie v) content metadata (world v) in
        Some {| goldie := goldie v; world := w'; worker := worker v; used := used v |}
  | DeleteDocuments id =>
      if String.eqb id "" then None
      else
        let '(_, w') := Goldie.DeleteDocumentAndChunks id (world v) in
        Some {| goldie := goldie v; world := w'; worker := worker v; used := used v |}
  end.

(** A run: the events in order. *)
Fixpoint run_events (es : list event) (v : Server) : option Server :=
  match es with
  | [] => Some v
  | e :: rest =>
      match step e v with
      | Some v' => run_events rest v'
      | None => None
      end
  end.

(** The ids of the jobs that the polls of a run claim, in order. *)
Fixpoint claimed (es : list event) (v : Server) : list string :=
  match es with
  | [] => []
  | e :: rest =>
      match step e v with
      | None => []
      | Some v' =>
          match e, worker v with
          | Poll, Halt =>
              match (GetNextPendingJob (Goldie.store (world v))).1 with
              | Ok (Some job) => [JobID job]
              | _ => []
              end
          | _, _ => []
          end ++ claimed rest v'
      end
  end.

End queue.

(** The status of the job [id], if the table has it. *)
Definition job_status (v : Server) (id : string) : option string :=
  j_status <$> List.find (fun r => String.eqb (j_id r) id)
                 (jobs (tables (Goldie.store (world v)))).

Definition terminal (status : string) : Prop :=
  status = JobStatusCompleted \/ status = JobStatusFailed.

(** A server as it starts: the worker idle, the ids of the jobs in the table
    distinct and among the ids that have been given out. *)
Definition started (v : Server) : Prop :=
  worker v = Halt /\
  NoDup (j_id <$> jobs (tables (Goldie.store (world v)))) /\
  forall r, r ∈ jobs (tables (Goldie.store (world v))) -> j_id r ∈ used v.

(** A program that writes no status. *)
Inductive quiet : prog -> Prop :=
| quiet_Halt : quiet Halt
| quiet_progress id progress total k :
    quiet k -> quiet (DoUpdateProgress id progress total k)
| quiet_index path k : (forall a, quiet (k a)) -> quiet (DoIndexFile path k)
| quiet_scan dir pattern recursive k :
    (forall a, quiet (k a)) -> quiet (DoScanDirectory dir pattern recursive k)
| quiet_child path parentID k :
    (forall a, quiet (k a)) -> quiet (DoEnqueueChild path parentID k).

(** A program that writes a terminal status at most once, to job [j], and no
    other status. *)
Inductive finishing (j : string) : prog -> Prop :=
| finishing_quiet p : quiet p -> finishing j p
| finishing_error msg k : quiet k -> finishing j (DoUpdateError j msg k)
| finishing_result res k : quiet k -> finishing j (DoUpdateResult j res k)
| finishing_progress id progress total k :
    finishing j k -> finishing j (DoUpdateProgress id progress total k)
| finishing_index path k :
    (forall a, finishing j (k a)) -> finishing j (DoIndexFile path k)
| finishing_scan dir pattern recursive k :
    (forall a, finishing j (k a)) -> finishing j (DoScanDirectory dir pattern recursive k)
| finishing_child path parentID k :
    (forall a, finishing j (k a)) -> finishing j (DoEnqueueChild path parentID k).

(** The rows of the job table of a server. *)
Definition jobs_of (v : Server) : list JobRow :=
  jobs (tables (Goldie.store (world v))).

(** No row of job [j] has a terminal status. *)
Definition open_job (j : string) (l : list JobRow) : Prop :=
  forall r, r ∈ l -> j_id r = j -> ~ terminal (j_status r).

(** The worker writes a terminal status to one job at most, and when it is
    still to write one, that job has no terminal status yet. *)
Definition worker_ok (v : Server) : Prop :=
  exists j, finishing j (worker v) /\
    (quiet (worker v) \/ open_job j (jobs_of v)).

(** What holds of a server at every moment of a run. *)
Definition consistent (v : Server) : Prop :=
  NoDup (j_id <$> jobs_of v) /\
  (forall r, r ∈ jobs_of v -> j_id r ∈ used v) /\
  worker_ok v.

(** No row of job [id] is queued. *)
Definition not_queued (id : string) (l : list JobRow) : Prop :=
  forall r, r ∈ l -> j_id r = id -> j_status r <> JobStatusQueued.

(** How an event may change the job table [l] and the ids given out [u]:
    the ids of the rows stay distinct and among the ids given out, no id
    given out is taken back, a row with a terminal status keeps it or is
    deleted by a [ClearQueue] that names its status or "all", an id that
    was given out and has no row gets none, and one that has no queued row
    gets none. *)
Definition table_ok (e : event) (l : list JobRow) (u : gset string)
    (l' : list JobRow) (u' : gset string) : Prop :=
  (NoDup (j_id <$> l) -> NoDup (j_id <$> l')) /\
  ((forall r, r ∈ l -> j_id r ∈ u) -> forall r, r ∈ l' -> j_id r ∈ u') /\
  u ⊆ u' /\
  (forall r, r ∈ l -> terminal (j_status r) ->
     (exists r', r' ∈ l' /\ j_id r' = j_id r /\ j_status r' = j_status r) \/
     ((forall r', r' ∈ l' -> j_id r' <> j_id r) /\
      exists st, e = ClearQueue st /\ (st = "all" \/ st = j_status r))) /\
  (forall id, id ∈ u -> (forall r, r ∈ l -> j_id r <> id) ->
     forall r', r' ∈ l' -> j_id r' <> id) /\
  (forall id, id ∈ u -> not_queued id l -> not_queued id l').

(** A program that, on every path on which no call of [IndexFile] panics,
    writes a terminal status to job [j]. *)
Inductive settles (j : string) : prog -> Prop :=
| settles_error msg k : settles j (DoUpdateError j msg k)
| settles_result res k : settles j (DoUpdateResult j res k)
| settles_progress id progress total k :
    settles j k -> settles j (DoUpdateProgress id progress total k)
| settles_index path k :
    (forall a, settles j (k (Goldie.Done a))) -> settles j (DoIndexFile path k)
| settles_scan dir pattern recursive k :
    (forall a, settles j (k a)) -> settles j (DoScanDirectory dir pattern recursive k)
| settles_child path parentID k :
    (forall a, settles j (k a)) -> settles j (DoEnqueueChild path parentID k).

(** The four statuses of a job. *)
Definition known_status (status : string) : Prop :=
  status ∈ [JobStatusQueued; JobStatusProcessing; JobStatusCompleted; JobStatusFailed].

End Queue.

(** * main.go: the tool handlers *)

Module Main.

Import GoString.

(** A value of [request.Params.Arguments], as the JSON decoder leaves it. *)
Inductive value : Type :=
| VString (s : string)
| VNumber (f : GoFloat.float64)
| VBool (b : bool)
| VOther.

(** A value of a response map before [safeJSONMarshal]. *)
Inductive field : Type :=
| FString (s : string)
| FInt (z : Z)
| FBool (b : bool).

(** [mcp.CallToolResult]: an error result, a plain text, or the JSON text of
    a response map. *)
Inductive CallToolResult : Type :=
| ToolError (msg : string)
| ToolText (text : string)
| ToolJSON (response : gmap string field).

(** The bytes of the dog emoji. *)
Definition statusEmoji : string :=
  String "240" (String "159" (String "144" (String "149" EmptyString))).

Definition formatMessage (msg : string) : string :=
  String.append statusEmoji (String.append " " msg).

Section handlers.
Context `{GoRuntime} `{Goldie.Embedder} `{Goldie.FileSystem}.



(** [handleDeleteDocument]. *)
Definition handleDeleteDocument (arguments : gmap string value)
  : Goldie.W CallToolResult :=
  match arguments !! "id" with
  | Some (VString id) =>
      if String.eqb id "" then ret (ToolError "id is required")
      else
        do deleted <- Goldie.DeleteDocumentAndChunks id;
        if deleted =? 0 then
          ret (ToolError (String.append "document not found: " id))
        else
          ret (ToolJSON
                 (<["success" := FBool true]>
                  (<["id" := FString id]>
                   (<["deleted_count" := FInt deleted]>
                    (<["message" := FString (formatMessage
                        (String.append "Deleted "
                          (String.append (itoa deleted)
                            (String.append " document(s)/chunk(s) for: " id))))]>
                     ∅)))))
  | _ => ret (ToolError "id is required")
  end.

End handlers.


(** ** The handlers of the job tools *)

Section job_handlers.
Context `{Queue.Json}.

(** [request.Params.Arguments[key].(string)], the empty string when the
    argument is absent or not a string. *)
Definition string_argument (arguments : gmap string value) (key : string) : string :=
  match arguments !! key with
  | Some (VString s) => s
  | _ => ""
  end.

(** [handleIndexFile], for the id that [uuid.New] returns. *)
Definition handleIndexFile (arguments : gmap string value) (id : string)
  : Store.M CallToolResult :=
  let path := string_argument arguments "path" in
  if String.eqb path "" then ret (ToolError "path is required")
  else
    do r <- Queue.EnqueueIndexFile id path;
    match r with
    | Store.Err e =>
        ret (ToolError (String.append "failed to queue job: " (Queue.error_text e)))
    | Store.Ok jobID =>
        ret (ToolJSON
               (<["success" := FBool true]>
                (<["job_id" := FString jobID]>
                 (<["status" := FString Store.JobStatusQueued]>
                  (<["status_raw" := FString Store.JobStatusQueued]>
                   (<["path" := FString path]>
                    (<["message" := FString (formatMessage
                        (String.append "Job queued for indexing: "
                          (String.append path
                            (String.append " (job_id: "
                              (String.append jobID ")")))))]>
                     ∅)))))))
    end.

(** [handleIndexDirectory]: the pattern defaults to "*", the recursion flag
    to false. *)
Definition handleIndexDirectory (arguments : gmap string value) (id : string)
  : Store.M CallToolResult :=
  let dir := string_argument arguments "directory" in
  if String.eqb dir "" then ret (ToolError "directory is required")
  else
    let pattern :=
      if String.eqb (string_argument arguments "pattern") "" then "*"
      else string_argument arguments "pattern" in
    let recursive :=
      match arguments !! "recursive" with
      | Some (VBool r) => r
      | _ => false
      end in
    do r <- Queue.EnqueueIndexDirectory id dir pattern recursive;
    match r with
    | Store.Err e =>
        ret (ToolError (String.append "failed to queue job: " (Queue.error_text e)))
    | Store.Ok jobID =>
        ret (ToolJSON
               (<["success" := FBool true]>
                (<["job_id" := FString jobID]>
                 (<["status" := FString Store.JobStatusQueued]>
                  (<["status_raw" := FString Store.JobStatusQueued]>
                   (<["directory" := FString dir]>
                    (<["pattern" := FString pattern]>
                     (<["recursive" := FBool recursive]>
                      (<["message" := FString (formatMessage
                          (String.append "Job queued for indexing directory: "
                            (String.append dir
                              (String.append " (job_id: "
                                (String.append jobID ")")))))]>
                       ∅)))))))))
    end.

(** [handleClearQueue]. *)
Definition handleClearQueue (arguments : gmap string value) : Store.M CallToolResult :=
  let status := string_argument arguments "status" in
  if String.eqb status "" then
    ret (ToolError "status is required (queued, completed, failed, or all)")
  else if negb (Queue.valid_clear status) then
    ret (ToolError "invalid status: must be queued, completed, failed, or all")
  else
    do r <- Store.DeleteJobs status;
    match r with
    | Store.Err e =>
        ret (ToolError (String.append "clearing queue failed: " (Queue.error_text e)))
    | Store.Ok count =>
        ret (ToolJSON
               (<["success" := FBool true]>
                (<["deleted" := FInt count]>
                 (<["status" := FString status]>
                  (<["status_raw" := FString status]>
                   (<["message" := FString (formatMessage
                       (String.append "Cleared "
                         (String.append (itoa count)
                           (String.append " jobs with status: " status))))]>
                    ∅))))))
    end.

End job_handlers.

(** ** The handler of list_files *)

(** One entry of the file set of [handleListFiles]. *)
Record FileEntry := {
  Source : string;
  Filename : string;
  ChunkCount : Z;
}.

(** What [handleListFiles] answers: an error, a plain text, or the response
    with its count, its files and its message. *)
Inductive ListFilesResult : Type :=
| FilesError (msg : string)
| FilesText (text : string)
| FilesJSON (count : Z) (files : list FileEntry) (message : string).

(** [doc.Metadata[key]], the empty string for a nil map or a missing key. *)
Definition metadata_value (doc : Store.Document) (key : string) : string :=
  match Store.Metadata doc with
  | Some m => default "" (m !! key)
  | None => ""
  end.

(** The source under which a document is listed: its [source], or its id
    for a document that has none. *)
Definition listed_source (doc : Store.Document) : string :=
  if String.eqb (metadata_value doc "source") "" then Store.ID doc
  else metadata_value doc "source".

(** The body of the loop of [handleListFiles] over the documents. *)
Definition add_file (fileSet : gmap string FileEntry) (doc : Store.Document)
  : gmap string FileEntry :=
  let source := listed_source doc in
  let filename :=
    if String.eqb (metadata_value doc "source") "" then Store.ID doc
    else metadata_value doc "filename" in
  match fileSet !! source with
  | Some entry =>
      <[source := {| Source := Source entry; Filename := Filename entry;
                     ChunkCount := GoInt.add (ChunkCount entry) 1 |}]> fileSet
  | None =>
      <[source := {| Source := source; Filename := filename; ChunkCount := 1 |}]> fileSet
  end.

(** [handleListFiles]. The files are listed in the order in which the
    iteration over the file set yields them, which Go leaves open; the model
    has the order of its map. *)
Definition handleListFiles : Store.M ListFilesResult :=
  do r <- Store.ListDocuments;
  match r with
  | Store.Err e =>
      ret (FilesError (String.append "listing documents failed: " (Queue.error_text e)))
  | Store.Ok docs =>
      if Z.of_nat (length docs) =? 0 then
        ret (FilesText (formatMessage "No files indexed"))
      else
        let files := (map_to_list (foldl add_file ∅ docs)).*2 in
        ret (FilesJSON (Z.of_nat (length files)) files
               (formatMessage
                  (String.append "Found "
                     (String.append (itoa (Z.of_nat (length files))) " file(s)"))))
  end.

End Main.

(** * Instances used to run the model *)

(** A runtime for running the model on ASCII texts: trimming of ASCII white
    space, a stand-in digest (the properties below hold for every digest
    function; running an example needs some function), base names of
    slash-separated paths, and the float conversion of amd64, where every
    conversion out of range yields the least [int]. *)
Definition ascii_runtime : GoRuntime :=
  {| TrimSpace := GoString.trim_ascii;
     sha256_hex := fun s => String.append "sha256:" s;
     Base := fun p => GoString.after_last_slash p p;
     int_out_of_range := fun _ => GoInt.min_int |}.

(** An embedder of dimension 3 that rejects the empty text. *)
Definition toy_embedder : Goldie.Embedder :=
  {| Goldie.Embed := fun text =>
       if String.eqb text "" then Store.Err (Store.Failure "empty text")
       else Store.Ok [0; 0; 0];
     Goldie.GetDimensions := 3 |}.

(** A file system with the one file of the first end-to-end scenario. *)
Definition toy_files : Goldie.FileSystem :=
  {| Goldie.ReadFile := fun path =>
       if String.eqb path "/tmp/a.txt" then Store.Ok "Go is a programming language"
       else Store.Err (Store.Failure "no such file or directory") |}.

(** A file system where the project directory has a skip file that holds
    a comment and a blank line. *)
Definition toy_skip_file : Goldie.FileSystem :=
  {| Goldie.ReadFile := fun path =>
       if String.eqb path "proj/.goldieskip"
       then Store.Ok (String.append "# keep everything" (String "010" "  "))
       else Store.Err (Store.Failure "no such file or directory") |}.

(** A stand-in for [path/filepath] on slash-separated paths without [.],
    [..] or doubled slashes: the relative path is what follows the base,
    and of the patterns with metacharacters the matcher knows the star and
    the dot-file pattern of the defaults; any other pattern matches the
    name equal to it. *)
Definition toy_paths : Goldie.FilePath :=
  {| Goldie.Join := fun a b => String.append a (String.append "/" b);
     Goldie.Rel := fun basepath targpath =>
       if String.eqb basepath targpath then Store.Ok "."
       else if String.prefix (String.append basepath "/") targpath
       then Store.Ok (String.substring (S (String.length basepath))
                        (String.length targpath) targpath)
       else Store.Err (Store.Failure "Rel: can't make path relative");
     Goldie.Match := fun pattern name =>
       if String.eqb pattern "*" then Store.Ok (negb (Goldie.Contains name "/"))
       else if String.eqb pattern ".[!.]*"
       then Store.Ok (match name with
                      | String "." (String c _) =>
                          negb (Ascii.eqb c ".") && negb (Goldie.Contains name "/")
                      | _ => false
                      end)
       else Store.Ok (String.eqb pattern name) |}.

(** A project directory with a repository folder, an agent file, a note
    and a folder of modules, and a dot-directory with one note. *)
Definition toy_tree : Goldie.FileTree :=
  {| Goldie.tree := fun dir =>
       if String.eqb dir "proj" then
         Goldie.Folder "proj" true
           [Goldie.Folder "proj/.git" true [Goldie.RegularFile "proj/.git/config"];
            Goldie.RegularFile "proj/AGENTS.md";
            Goldie.RegularFile "proj/a.md";
            Goldie.Folder "proj/node_modules" true
              [Goldie.RegularFile "proj/node_modules/x.md"]]
       else if String.eqb dir ".notes" then
         Goldie.Folder ".notes" true [Goldie.RegularFile ".notes/a.md"]
       else Goldie.NoInfo dir;
     Goldie.Glob := fun pattern =>
       if String.eqb pattern "proj/*"
       then Store.Ok ["proj/.git"; "proj/AGENTS.md"; "proj/a.md"; "proj/node_modules"]
       else Store.Ok [];
     Goldie.is_file := fun path =>
       existsb (String.eqb path)
         ["proj/.git/config"; "proj/AGENTS.md"; "proj/a.md";
          "proj/node_modules/x.md"; ".notes/a.md"] |}.

(** A new database of dimension 3, an empty heap, two ids for [uuid.New]
    to return. *)
Definition toy_world : Goldie.World :=
  {| Goldie.store := Store.New None 3 [] 0; Goldie.heap := ∅;
     Goldie.uuids := ["doc-1"; "doc-2"] |}.

(** A stand-in for [encoding/json] on the job structures: the path alone
    for the parameters of a file job, fields separated by bars elsewhere. *)
Definition toy_json : Queue.Json :=
  {| Queue.marshal_file_params := fun p => Store.Ok (Queue.Path p);
     Queue.unmarshal_file_params := fun s => Store.Ok {| Queue.Path := s |};
     Queue.marshal_dir_params := fun p =>
       Store.Ok (String.append (Queue.Directory p)
                   (String.append "|" (Queue.Pattern p)));
     Queue.unmarshal_dir_params := fun s =>
       Store.Ok {| Queue.Directory := s; Queue.Pattern := "*";
                   Queue.Recursive := false |};
     Queue.marshal_file_result := fun res path =>
       Store.Ok (String.append (Goldie.ID res)
                   (String.append "|"
                      (String.append (GoString.itoa (Goldie.ChunkCount res))
                         (String.append "|" path))));
     Queue.marshal_dir_result := fun fileCount childJobIDs p =>
       Store.Ok (String.append (GoString.itoa fileCount)
                   (String.append "|" (Queue.Directory p))) |}.

(** The server on a new database, with the default configuration. *)
Definition toy_server : Queue.Server :=
  {| Queue.goldie := Goldie.New {| Goldie.Dimensions := 3; Goldie.ChunkSize := 0;
                                   Goldie.ChunkOverlap := 0 |};
     Queue.world := toy_world; Queue.worker := Queue.Halt; Queue.used := ∅ |}.

(** * Facts about the Go values *)

Section go_values.
Import GoInt GoString.

Lemma wrap_small z : in_range z -> wrap z = z.
Proof.
  unfold in_range, min_int, max_int, wrap. intros Hz.
  rewrite Z.mod_small; lia.
Qed.

Lemma wrap_in_range z : in_range (wrap z).
Proof.
  unfold in_range, min_int, max_int, wrap.
  pose proof (Z.mod_pos_bound (z + 2 ^ 63) (2 ^ 64) ltac:(lia)). lia.
Qed.

Lemma len_nonneg s : 0 <= len s.
Proof. unfold len. lia. Qed.

Lemma length_substring n m s : (String.length (String.substring n m s) <= m)%nat.
Proof.
  revert n m. induction s as [|a s IH]; intros [|n] [|m]; simpl; try lia.
  - specialize (IH 0%nat m). lia.
  - apply (IH n 0%nat).
  - apply (IH n (S m)).
Qed.

Lemma slice_len s lo hi w : slice s lo hi = Some w -> len w <= hi - lo.
Proof.
  unfold slice. destruct (_ && _) eqn:Hb; [|discriminate].
  intros [= <-]. unfold len.
  pose proof (length_substring (Z.to_nat lo) (Z.to_nat (hi - lo)) s).
  apply andb_true_iff in Hb as [Hb _]. apply andb_true_iff in Hb as [_ Hb].
  apply Z.leb_le in Hb. lia.
Qed.

Lemma slice_bounds s lo hi w :
  slice s lo hi = Some w -> 0 <= lo /\ lo <= hi /\ hi <= len s.
Proof.
  unfold slice. destruct (_ && _) eqn:Hb; [|discriminate]. intros _.
  apply andb_true_iff in Hb as [Hb H3]. apply andb_true_iff in Hb as [H1 H2].
  apply Z.leb_le in H1, H2, H3. lia.
Qed.

Lemma slice_is_Some s lo hi :
  0 <= lo -> lo <= hi -> hi <= len s -> is_Some (slice s lo hi).
Proof.
  intros H1 H2 H3. unfold slice.
  apply Z.leb_le in H1, H2, H3. rewrite H1, H2, H3. simpl. eauto.
Qed.

Lemma last_index_from_bound s c i acc :
  -1 <= acc < i -> -1 <= last_index_from s c i acc < i + len s.
Proof.
  revert i acc. induction s as [|a s IH]; intros i acc Hacc; simpl.
  - unfold len. simpl. lia.
  - unfold len in *. simpl String.length. rewrite Nat2Z.inj_succ.
    destruct (Ascii.eqb a c).
    + specialize (IH (i + 1) i). lia.
    + specialize (IH (i + 1) acc). lia.
Qed.

Lemma LastIndex_bound s c : -1 <= LastIndex s c < len s.
Proof.
  unfold LastIndex. pose proof (last_index_from_bound s c 0 (-1)). lia.
Qed.

End go_values.

(** * The chunker *)

Section chunker_facts.
Context `{GoRuntime}.
Import GoString Goldie.

Lemma add_exact a b :
  Z.abs a <= 2 ^ 62 -> Z.abs b <= 2 ^ 62 -> a + b < 2 ^ 63 -> GoInt.add a b = a + b.
Proof.
  intros Ha Hb Hab. apply wrap_small.
  unfold GoInt.in_range, GoInt.min_int, GoInt.max_int. lia.
Qed.

Lemma sub_exact a b :
  0 <= a < 2 ^ 62 -> Z.abs b <= 2 ^ 62 -> GoInt.sub a b = a - b.
Proof.
  intros Ha Hb. apply wrap_small.
  unfold GoInt.in_range, GoInt.min_int, GoInt.max_int. lia.
Qed.

(** The break point lies in the text, at or after the cursor, and at most a
    chunk size after it. *)
Lemma chunk_end_slice r text s e w :
  chunk_end r text s = Some e -> slice text s e = Some w ->
  0 <= s /\ s <= e /\ e <= len text.
Proof. intros _ Hs. by apply slice_bounds in Hs. Qed.

Lemma chunk_end_width r text s e :
  bounded r text -> 0 <= s < len text ->
  chunk_end r text s = Some e -> e <= s + chunkSize r.
Proof.
  intros (HS & HO & HT) Hs. unfold chunk_end.
  assert (Hadd : GoInt.add s (chunkSize r) = s + chunkSize r)
    by (apply add_exact; lia).
  rewrite Hadd.
  destruct (Z.ltb_spec (Z.min (s + chunkSize r) (len text)) (len text)) as [Hlt|Hge].
  - destruct (slice text s _) as [w|] eqn:Hw; [|discriminate].
    pose proof (slice_len _ _ _ _ Hw) as Hlen.
    pose proof (slice_bounds _ _ _ _ Hw) as (? & ? & ?).
    pose proof (LastIndex_bound w " ") as Hli.
    destruct (Z.gtb_spec (LastIndex w " ") (Z.quot (chunkSize r) 2)); intros [= <-].
    + rewrite add_exact by lia. lia.
    + lia.
  - intros [= <-]. lia.
Qed.

Lemma chunk_end_forward r text s e :
  bounded r text -> 0 <= s < len text -> 0 < chunkSize r ->
  chunk_end r text s = Some e -> s < e.
Proof.
  intros (HS & HO & HT) Hs Hpos. unfold chunk_end.
  assert (Hadd : GoInt.add s (chunkSize r) = s + chunkSize r)
    by (apply add_exact; lia).
  rewrite Hadd.
  destruct (Z.ltb_spec (Z.min (s + chunkSize r) (len text)) (len text)) as [Hlt|Hge].
  - destruct (slice text s _) as [w|] eqn:Hw; [|discriminate].
    pose proof (slice_len _ _ _ _ Hw) as Hlen.
    pose proof (LastIndex_bound w " ") as Hli.
    assert (0 <= Z.quot (chunkSize r) 2) by (apply Z.quot_pos; lia).
    destruct (Z.gtb_spec (LastIndex w " ") (Z.quot (chunkSize r) 2)); intros [= <-].
    + rewrite add_exact by lia. lia.
    + lia.
  - intros [= <-]. lia.
Qed.

(** What a pass through the loop body that reaches the next iteration has
    done. *)
Lemma chunk_step_Next r text c c' :
  chunk_step r text c = Next c' ->
  exists e w,
    start c < len text /\ start c <> prevStart c /\
    chunk_end r text (start c) = Some e /\ slice text (start c) e = Some w /\
    start c' = advance r (start c) e /\ prevStart c' = start c /\
    chunks c' = (if len (TrimSpace w) >? 0 then chunks c ++ [TrimSpace w] else chunks c) /\
    Z.of_nat (length (chunks c')) <= 10000.
Proof.
  unfold chunk_step.
  destruct (Z.ltb_spec (start c) (len text)) as [Hlt|]; [|discriminate]. simpl.
  destruct (Z.eqb_spec (start c) (prevStart c)) as [|Hne]; [discriminate|].
  destruct (chunk_end r text (start c)) as [e|] eqn:He; [|discriminate].
  destruct (slice text (start c) e) as [w|] eqn:Hw; [|discriminate].
  destruct (Z.gtb_spec (Z.of_nat (length
    (if len (TrimSpace w) >? 0 then chunks c ++ [TrimSpace w] else chunks c))) 10000)
    as [|Hcap]; [discriminate|].
  intros [= <-]. exists e, w. simpl. repeat split; auto; lia.
Qed.

(** The cursor never moves backwards, whatever the configuration. *)
Lemma advance_ge r s e : 0 <= s -> s <= e -> s <= advance r s e.
Proof.
  intros Hs He. unfold advance.
  destruct (Z.leb_spec (GoInt.sub e (chunkOverlap r)) s);
    match goal with |- context [?x <? 0] => destruct (Z.ltb_spec x 0) end; lia.
Qed.

Lemma chunk_step_monotone r text c c' :
  chunk_step r text c = Next c' -> start c <= start c' /\ 0 <= start c.
Proof.
  intros (e & w & _ & _ & He & Hw & -> & _)%chunk_step_Next.
  destruct (chunk_end_slice _ _ _ _ _ He Hw) as (? & ? & ?).
  split; [by apply advance_ge|done].
Qed.

(** A cursor that did not move ends the loop at the next test. *)
Lemma chunk_step_stuck r text c :
  start c = prevStart c -> chunk_step r text c = Exit (chunks c).
Proof.
  intros Heq. unfold chunk_step. destruct (start c <? len text); [|done]. simpl.
  by rewrite Heq, Z.eqb_refl.
Qed.

Lemma chunk_loop_fuel r text fuel c :
  (Z.to_nat (len text - start c) + 2 <= fuel)%nat ->
  chunk_loop fuel r text c <> OutOfFuel.
Proof.
  revert c. induction fuel as [|fuel IH]; intros c Hfuel; [lia|].
  simpl. destruct (chunk_step r text c) as [cs|c'|] eqn:Hstep; [done| |done].
  pose proof (chunk_step_monotone _ _ _ _ Hstep) as [Hmono Hpos].
  pose proof (chunk_step_Next _ _ _ _ Hstep) as (e & w & Hlt & _ & _ & _ & _ & Hprev & _).
  destruct (Z.eq_dec (start c') (start c)) as [Heq|Hne].
  - destruct fuel as [|fuel]; [lia|]. simpl.
    rewrite chunk_step_stuck by congruence. done.
  - apply IH. lia.
Qed.

(** [chunkText] returns or panics for every text and every configuration:
    the iteration budget of the model is never used up. *)
Lemma chunkText_total r text : chunkText r text <> OutOfFuel.
Proof.
  unfold chunkText. destruct (len text <=? chunkSize r); [done|].
  apply chunk_loop_fuel. simpl. unfold len. lia.
Qed.

(** Under the range assumption a run panics only for a negative chunk size. *)
Lemma chunk_step_no_crash r text c :
  bounded r text -> 0 <= chunkSize r -> 0 <= start c ->
  chunk_step r text c <> Crash.
Proof.
  intros (HS & HO & HT) Hpos Hs. unfold chunk_step.
  destruct (Z.ltb_spec (start c) (len text)) as [Hlt|]; [|done]. simpl.
  destruct (start c =? prevStart c); [done|].
  assert (He : exists e, chunk_end r text (start c) = Some e /\
                         start c <= e <= len text).
  { unfold chunk_end. rewrite add_exact by lia.
    destruct (Z.ltb_spec (Z.min (start c + chunkSize r) (len text)) (len text)).
    - destruct (slice_is_Some text (start c)
                  (Z.min (start c + chunkSize r) (len text))) as [w Hw]; [lia..|].
      rewrite Hw. pose proof (slice_len _ _ _ _ Hw). pose proof (LastIndex_bound w " ").
      assert (0 <= Z.quot (chunkSize r) 2) by (apply Z.quot_pos; lia).
      destruct (Z.gtb_spec (LastIndex w " ") (Z.quot (chunkSize r) 2)).
      + eexists; split; [done|]. rewrite add_exact by lia. lia.
      + eexists; split; [done|]. lia.
    - eexists; split; [done|]. lia. }
  destruct He as (e & -> & He).
  destruct (slice_is_Some text (start c) e) as [w ->]; [lia..|].
  by destruct (_ >? 10000).
Qed.

Lemma chunk_loop_no_panic r text fuel c :
  bounded r text -> 0 <= chunkSize r -> 0 <= start c ->
  chunk_loop fuel r text c <> Panic.
Proof.
  intros Hb Hpos. revert c. induction fuel as [|fuel IH]; intros c Hs; [done|].
  simpl. destruct (chunk_step r text c) as [cs|c'|] eqn:Hstep; [done| |].
  - apply IH. apply chunk_step_monotone in Hstep. lia.
  - by apply chunk_step_no_crash in Hstep.
Qed.

(** Forward progress of the cursor: past the previous start, by [end - O]
    when that is past it and by [end] otherwise. *)
Lemma chunk_step_progress r text c c' :
  bounded r text -> chunkOverlap r < chunkSize r ->
  chunk_step r text c = Next c' ->
  exists e, chunk_end r text (start c) = Some e /\
    start c < start c' /\
    start c' = (if e - chunkOverlap r <=? start c then e else e - chunkOverlap r).
Proof.
  intros Hb HOS Hstep. pose proof Hb as (HS & HO & HT).
  apply chunk_step_Next in Hstep as (e & w & Hlt & _ & He & Hw & Hst & _).
  destruct (chunk_end_slice _ _ _ _ _ He Hw) as (H0 & Hse & Hel).
  exists e. split; [done|]. rewrite Hst. unfold advance.
  rewrite sub_exact by lia.
  destruct (Z.leb_spec (e - chunkOverlap r) (start c)) as [Hle|Hgt].
  - assert (start c < e) by (eapply chunk_end_forward; eauto; lia).
    destruct (Z.ltb_spec e 0); lia.
  - destruct (Z.ltb_spec (e - chunkOverlap r) 0); lia.
Qed.

End chunker_facts.

(** ** Shape of the result *)

Section chunk_shape.
Context `{GoRuntime}.
Import GoString Goldie.

(** No chunk is longer than the chunk size, given that trimming does not
    lengthen a string, and the list never holds more than 10 001 entries. *)
Lemma chunk_step_sizes r text c :
  bounded r text -> (forall s, len (TrimSpace s) <= len s) ->
  Z.of_nat (length (chunks c)) <= 10000 ->
  Forall (fun ch => len ch <= chunkSize r) (chunks c) ->
  match chunk_step r text c with
  | Exit cs =>
      Z.of_nat (length cs) <= 10001 /\ Forall (fun ch => len ch <= chunkSize r) cs
  | Next c' =>
      Z.of_nat (length (chunks c')) <= 10000 /\
      Forall (fun ch => len ch <= chunkSize r) (chunks c')
  | Crash => True
  end.
Proof.
  intros Hb Htrim Hn Hall. unfold chunk_step.
  destruct (Z.ltb_spec (start c) (len text)) as [Hlt|]; simpl; [|split; [lia|done]].
  destruct (start c =? prevStart c); [split; [lia|done]|].
  destruct (chunk_end r text (start c)) as [e|] eqn:He; [|done].
  destruct (slice text (start c) e) as [w|] eqn:Hw; [|done].
  pose proof (slice_bounds _ _ _ _ Hw) as (? & ? & ?).
  pose proof (slice_len _ _ _ _ Hw) as Hlen.
  assert (Hwidth : e <= start c + chunkSize r)
    by (eapply chunk_end_width; eauto; lia).
  assert (Hall' : Forall (fun ch => len ch <= chunkSize r)
            (if len (TrimSpace w) >? 0 then chunks c ++ [TrimSpace w] else chunks c)).
  { destruct (len (TrimSpace w) >? 0); [|done].
    apply Forall_app. split; [done|]. constructor; [|done].
    specialize (Htrim w). lia. }
  assert (Hn' : Z.of_nat (length
            (if len (TrimSpace w) >? 0 then chunks c ++ [TrimSpace w] else chunks c))
            <= 10001).
  { destruct (len (TrimSpace w) >? 0); [|lia]. rewrite length_app. simpl. lia. }
  destruct (Z.gtb_spec (Z.of_nat (length
    (if len (TrimSpace w) >? 0 then chunks c ++ [TrimSpace w] else chunks c))) 10000);
    simpl; split; auto; lia.
Qed.

Lemma chunk_loop_sizes r text fuel c cs :
  bounded r text -> (forall s, len (TrimSpace s) <= len s) ->
  Z.of_nat (length (chunks c)) <= 10000 ->
  Forall (fun ch => len ch <= chunkSize r) (chunks c) ->
  chunk_loop fuel r text c = Done cs ->
  Z.of_nat (length cs) <= 10001 /\ Forall (fun ch => len ch <= chunkSize r) cs.
Proof.
  intros Hb Htrim. revert c. induction fuel as [|fuel IH]; intros c Hn Hall; [done|].
  simpl. pose proof (chunk_step_sizes r text c Hb Htrim Hn Hall) as Hstep.
  destruct (chunk_step r text c) as [cs'|c'|]; [|destruct Hstep; by apply IH|done].
  by intros [= <-].
Qed.

Lemma chunkText_sizes r text cs :
  bounded r text -> (forall s, len (TrimSpace s) <= len s) ->
  chunkText r text = Done cs ->
  Z.of_nat (length cs) <= 10001 /\ Forall (fun ch => len ch <= chunkSize r) cs.
Proof.
  intros Hb Htrim. unfold chunkText.
  destruct (Z.leb_spec (len text) (chunkSize r)).
  - intros [= <-]. split; [simpl; lia|]. by repeat constructor.
  - apply chunk_loop_sizes; simpl; auto; lia.
Qed.

(** The chunks are trimmed slices of the text, listed in the order of their
    offsets. *)
Lemma windows_mono text cs b b' : windows text cs b -> b <= b' -> windows text cs b'.
Proof.
  intros Hw Hb. destruct Hw as [b|cs b a e w b0 Hw Hba Hab Hs].
  - constructor.
  - eapply windows_snoc; eauto. lia.
Qed.

Lemma chunk_loop_windows r text fuel c cs :
  prevStart c <= start c -> windows text (chunks c) (prevStart c + 1) ->
  chunk_loop fuel r text c = Done cs -> exists b, windows text cs b.
Proof.
  revert c. induction fuel as [|fuel IH]; intros c Hprev Hwin; [done|].
  simpl. destruct (chunk_step r text c) as [cs'|c'|] eqn:Hstep; [| |done].
  - intros [= <-]. revert Hstep. unfold chunk_step.
    destruct (start c <? len text); simpl; [|intros [= <-]; eauto].
    destruct (Z.eqb_spec (start c) (prevStart c)); [intros [= <-]; eauto|].
    destruct (chunk_end r text (start c)) as [e|]; [|done].
    destruct (slice text (start c) e) as [w|] eqn:Hw; [|done].
    destruct (len (TrimSpace w) >? 0).
    + destruct (_ >? 10000); [|done]. intros [= <-].
      exists (start c + 1). eapply windows_snoc; eauto; lia.
    + destruct (_ >? 10000); [|done]. intros [= <-]. eauto.
  - pose proof (chunk_step_monotone _ _ _ _ Hstep) as [Hmono _].
    apply chunk_step_Next in Hstep as (e & w & _ & Hne & _ & Hw & _ & Hp & Hcs & _).
    apply IH; [lia|]. rewrite Hp, Hcs.
    destruct (len (TrimSpace w) >? 0).
    + eapply windows_snoc; eauto; lia.
    + eapply windows_mono; eauto. lia.
Qed.

Lemma chunkText_in_order r text cs :
  chunkSize r < len text -> chunkText r text = Done cs ->
  exists b, windows text cs b.
Proof.
  intros Hlong. unfold chunkText.
  destruct (Z.leb_spec (len text) (chunkSize r)); [lia|].
  apply chunk_loop_windows; simpl; [lia|constructor].
Qed.

End chunk_shape.

(** ** Claims about the chunker *)

Section chunker_claims.
Context `{GoRuntime}.
Import GoString Goldie.


End chunker_claims.



(** ** The cap on the number of chunks *)

Section chunk_cap.
Import GoString Goldie.

Lemma length_repeat_byte c n : String.length (repeat_byte c n) = n.
Proof. induction n as [|n IH]; simpl; congruence. Qed.

Lemma substring_repeat_byte c n k :
  (k < n)%nat -> String.substring k 1 (repeat_byte c n) = String c EmptyString.
Proof.
  revert k. induction n as [|n IH]; intros k Hk; [lia|].
  destruct k as [|k]; simpl.
  - by destruct n.
  - apply IH. lia.
Qed.

Lemma slice_repeat_byte c n k :
  0 <= k < Z.of_nat n ->
  slice (repeat_byte c n) k (k + 1) = Some (String c EmptyString).
Proof.
  intros Hk. unfold slice, len. rewrite length_repeat_byte.
  destruct (Z.leb_spec 0 k); [|lia].
  destruct (Z.leb_spec k (k + 1)); [|lia].
  destruct (Z.leb_spec (k + 1) (Z.of_nat n)); [|lia]. simpl.
  replace (Z.to_nat (k + 1 - k)) with 1%nat by lia.
  rewrite substring_repeat_byte by lia. done.
Qed.

Lemma unit_chunk_end n k :
  0 <= k < Z.of_nat n -> Z.of_nat n < 2 ^ 62 ->
  chunk_end unit_chunks (repeat_byte "x" n) k = Some (k + 1).
Proof.
  intros Hk Hn. unfold chunk_end, len. rewrite length_repeat_byte.
  change (chunkSize unit_chunks) with 1.
  unfold GoInt.add. rewrite wrap_small
    by (unfold GoInt.in_range, GoInt.min_int, GoInt.max_int; lia).
  replace (Z.min (k + 1) (Z.of_nat n)) with (k + 1) by lia.
  destruct (k + 1 <? Z.of_nat n); [|done].
  rewrite slice_repeat_byte by lia. done.
Qed.

Lemma unit_advance k : 0 <= k < 2 ^ 62 -> advance unit_chunks k (k + 1) = k + 1.
Proof.
  intros Hk. unfold advance. change (chunkOverlap unit_chunks) with 200.
  unfold GoInt.sub. rewrite wrap_small
    by (unfold GoInt.in_range, GoInt.min_int, GoInt.max_int; lia).
  destruct (Z.leb_spec (k + 1 - 200) k); [|lia].
  destruct (Z.ltb_spec (k + 1) 0); lia.
Qed.

Lemma unit_chunk_step n cs k :
  0 <= k < Z.of_nat n -> Z.of_nat n < 2 ^ 62 ->
  chunk_step (H := ascii_runtime) unit_chunks (repeat_byte "x" n)
    {| start := k; prevStart := k - 1; chunks := cs |}
  = if Z.of_nat (length (cs ++ ["x"])) >? 10000 then Exit (cs ++ ["x"])
    else Next {| start := k + 1; prevStart := k; chunks := cs ++ ["x"] |}.
Proof.
  intros Hk Hn. unfold chunk_step. cbn [start prevStart chunks].
  unfold len at 1. rewrite length_repeat_byte.
  destruct (Z.ltb_spec k (Z.of_nat n)); [|lia]. cbn [negb].
  destruct (Z.eqb_spec k (k - 1)); [lia|].
  rewrite unit_chunk_end, slice_repeat_byte by lia.
  change (len (TrimSpace "x") >? 0) with true. cbn iota.
  change (TrimSpace "x") with "x".
  by rewrite unit_advance by lia.
Qed.

Lemma unit_chunk_loop n m : forall fuel cs,
  Z.of_nat n = 10001 ->
  Z.of_nat (length cs) + Z.of_nat m = 10000 -> (m < fuel)%nat ->
  exists cs',
    chunk_loop (H := ascii_runtime) fuel unit_chunks (repeat_byte "x" n)
      {| start := Z.of_nat (length cs);
         prevStart := Z.of_nat (length cs) - 1; chunks := cs |} = Done cs' /\
    Z.of_nat (length cs') = 10001.
Proof.
  induction m as [|m IH]; intros fuel cs Hn Hcs Hfuel;
    (destruct fuel as [|fuel]; [lia|]); cbn [chunk_loop];
    rewrite unit_chunk_step by lia; rewrite length_app; cbn [length].
  - destruct (Z.gtb_spec (Z.of_nat (length cs + 1)) 10000); [|lia].
    eexists. split; [done|]. rewrite length_app. simpl. lia.
  - destruct (Z.gtb_spec (Z.of_nat (length cs + 1)) 10000); [lia|].
    destruct (IH fuel (cs ++ ["x"])) as (cs' & Hrun & Hlen); [done| |lia|].
    { rewrite length_app. simpl. lia. }
    exists cs'. split; [|done]. rewrite <- Hrun. rewrite length_app. simpl.
    do 2 f_equal; lia.
Qed.

(** C1. On a text of 10 001 bytes without white space and with chunk
    size 1, [chunkText] returns 10 001 chunks: the cap is tested with
    [len(chunks) > 10000] after the chunk has been appended, so the list
    reaches one entry more than the limit of 10 000 that the claim states
    and that the log message names. *)
Theorem chunkText_exceeds_cap :
  let text := repeat_byte "x" (Z.to_nat 10001) in
  chunkSize unit_chunks < len text /\
  exists cs,
    chunkText (H := ascii_runtime) unit_chunks text = Done cs /\
    Z.of_nat (length cs) = 10001.
Proof.
  intros text. subst text.
  assert (Hn : Z.of_nat (Z.to_nat 10001) = 10001) by lia.
  set (n := Z.to_nat 10001) in *.
  split; [unfold len; rewrite length_repeat_byte; change (chunkSize unit_chunks) with 1; lia|].
  unfold chunkText, len. rewrite length_repeat_byte.
  change (chunkSize unit_chunks) with 1.
  destruct (Z.leb_spec (Z.of_nat n) 1); [lia|].
  apply (unit_chunk_loop n (Z.to_nat 10000) _ []); simpl; lia.
Qed.

End chunk_cap.

(** * The store: documents and vectors *)

(** Case analysis on the refusals that a call meets. *)
Ltac next_refusal :=
  match goal with
  | |- context [match ?l with [] => _ | _ :: _ => _ end] =>
      is_var l; destruct l as [|[] l]; cbn
  end.

Section store_documents.
Import Store.

(** [AddDocument] either commits both rows or leaves the tables as they
    were; it commits only a vector of the declared dimension whose entries
    are finite. *)
Lemma AddDocument_outcome id content metadata embedding s :
  let '(err, s') := AddDocument id content metadata embedding s in
  (pending s = None -> pending s' = None) /\ dimensions s' = dimensions s /\
  match err with
  | None =>
      tables s' = added id content metadata embedding (clock s) (tables s) /\
      Z.of_nat (length embedding) = vec_dim (tables s)
  | Some _ => tables s' = tables s
  end.
Proof.
  unfold AddDocument, Begin, defer_Rollback, tx_Exec, Commit, Rollback, now,
    next_fault, bind, ret, wrap_err, with_pending, with_faults, with_tables.
  destruct s as [dims t p fs clk]; cbn.
  repeat (next_refusal; auto);
    unfold insert_vector; cbn;
    (destruct (marshal_embedding embedding); cbn; auto);
    repeat (next_refusal; auto);
    (destruct (Z.eqb_spec (Z.of_nat (length embedding)) (vec_dim t)); cbn; auto);
    repeat (next_refusal; auto).
Qed.

Lemma DeleteDocument_outcome id s :
  let '(err, s') := DeleteDocument id s in
  (pending s = None -> pending s' = None) /\ dimensions s' = dimensions s /\
  match err with
  | None => tables s' = removed id (tables s)
  | Some _ => tables s' = tables s
  end.
Proof.
  unfold DeleteDocument, Begin, defer_Rollback, tx_Exec, Commit, Rollback,
    next_fault, bind, ret, wrap_err, with_pending, with_faults, with_tables.
  destruct s as [dims t p fs clk]; cbn.
  repeat (next_refusal; auto).
Qed.












(** C7. On a store whose vector table has the configured dimension D,
    [AddDocument] returns an error whenever the embedding does not have D
    entries; and whenever it returns an error, for whatever reason, the
    tables are as they were before the call, so the [documents] row and the
    [documents_vec] row of the id are both absent or both unchanged. *)
Theorem AddDocument_fails_cleanly s id content metadata embedding :
  vec_dim (tables s) = dimensions s ->
  let '(err, s') := AddDocument id content metadata embedding s in
  (Z.of_nat (length embedding) <> dimensions s -> is_Some err) /\
  (is_Some err ->
     tables s' = tables s /\
     documents (tables s') !! id = documents (tables s) !! id /\
     documents_vec (tables s') !! id = documents_vec (tables s) !! id).
Proof.
  intros Hdim. pose proof (AddDocument_outcome id content metadata embedding s) as Hout.
  destruct (AddDocument id content metadata embedding s) as [[e|] s'];
    destruct Hout as (_ & _ & Hout).
  - split; [eauto|]. intros _. by rewrite Hout.
  - destruct Hout as [_ Hlen]. split; [|intros [? ?]; done].
    intros Hne. congruence.
Qed.

End store_documents.


(** C7, witness: a vector of three entries offered to a store of dimension
    384. *)
Lemma AddDocument_fails_cleanly_witness :
  let s := Store.New None 384 [] 0 in
  Store.vec_dim (Store.tables s) = Store.dimensions s /\
  let '(err, s') := Store.AddDocument "doc" "text" None [0; 0; 0] s in
  (Z.of_nat (length [0; 0; 0]) <> Store.dimensions s -> is_Some err) /\
  (is_Some err ->
     Store.tables s' = Store.tables s /\
     Store.documents (Store.tables s') !! "doc" = Store.documents (Store.tables s) !! "doc" /\
     Store.documents_vec (Store.tables s') !! "doc"
       = Store.documents_vec (Store.tables s) !! "doc").
Proof.
  intros s. assert (Hd : Store.vec_dim (Store.tables s) = Store.dimensions s) by reflexivity.
  exact (conj Hd (AddDocument_fails_cleanly s "doc" "text" None [0; 0; 0] Hd)).
Defined.

(** * The store: claiming a job *)

Section store_jobs.
Import Store.

Lemma select_fold status l : forall best,
  let res := foldl (fun best r => if String.eqb (j_status r) status
                                  then older best r else best) best l in
  (res = None <-> best = None /\ forall r, r ∈ l -> j_status r <> status) /\
  (forall r, res = Some r ->
     (best = Some r \/ (r ∈ l /\ j_status r = status)) /\
     (forall b, best = Some b -> j_created_at r <= j_created_at b) /\
     (forall r', r' ∈ l -> j_status r' = status -> j_created_at r <= j_created_at r')).
Proof.
  induction l as [|x l IH]; intros best; cbn.
  - split.
    + split; [intros ->; split; [done|]; by intros r ?%elem_of_nil|by intros [-> _]].
    + intros r ->. split; [by left|]. split; [by intros b [= ->]|].
      by intros r' ?%elem_of_nil.
  - destruct (String.eqb_spec (j_status x) status) as [Hx|Hx].
    + destruct (IH (older best x)) as [HNone HSome]. split.
      * split.
        -- intros Hres. apply HNone in Hres as [Hbest _].
           destruct best as [b|]; cbn in Hbest; [|done].
           by destruct (j_created_at x <? j_created_at b).
        -- intros [-> Hall]. exfalso. apply (Hall x); [left|done].
      * intros r Hres. destruct (HSome r Hres) as (Horigin & Hbest & Hrest).
        assert (Hx_le : j_created_at r <= j_created_at x).
        { destruct best as [b|]; cbn in Hbest.
          - destruct (Z.ltb_spec (j_created_at x) (j_created_at b)).
            + by apply Hbest.
            + specialize (Hbest b eq_refl). lia.
          - by apply Hbest. }
        split; [|split].
        -- destruct Horigin as [Ho|[Hin Hst]]; [|right; split; [by right|done]].
           destruct best as [b|]; cbn in Ho.
           ++ destruct (j_created_at x <? j_created_at b); injection Ho as <-;
                [right; split; [left|done]|by left].
           ++ injection Ho as <-. right. split; [left|done].
        -- intros b ->. cbn in Hbest.
           destruct (Z.ltb_spec (j_created_at x) (j_created_at b)).
           ++ specialize (Hbest x eq_refl). lia.
           ++ by apply Hbest.
        -- intros r' [->|Hin]%elem_of_cons Hst; [done|by apply Hrest].
    + destruct (IH best) as [HNone HSome]. split.
      * split.
        -- intros Hres. apply HNone in Hres as [-> Hall]. split; [done|].
           intros r [->|Hin]%elem_of_cons; [done|by apply Hall].
        -- intros [-> Hall]. apply HNone. split; [done|].
           intros r Hin. apply Hall. by right.
      * intros r Hres. destruct (HSome r Hres) as (Horigin & Hbest & Hrest).
        split; [|split; [done|]].
        -- destruct Horigin as [?|[? ?]]; [by left|right; split; [by right|done]].
        -- intros r' [->|Hin]%elem_of_cons Hst; [done|by apply Hrest].
Qed.

(** The row selected is a row with the status, and none with the status is
    older. *)
Lemma select_oldest_Some status t r :
  select_oldest status t = Some r ->
  r ∈ jobs t /\ j_status r = status /\
  forall r', r' ∈ jobs t -> j_status r' = status -> j_created_at r <= j_created_at r'.
Proof.
  intros Hsel. destruct (select_fold status (jobs t) None) as [_ HSome].
  destruct (HSome r Hsel) as ([?|[? ?]] & _ & ?); done.
Qed.

Lemma select_oldest_None status t :
  select_oldest status t = None <-> forall r, r ∈ jobs t -> j_status r <> status.
Proof.
  destruct (select_fold status (jobs t) None) as [HNone _].
  unfold select_oldest. rewrite HNone. split; [by intros [_ ?]|by split].
Qed.

(** What a call of [GetNextPendingJob] returns and leaves behind. *)
Lemma GetNextPendingJob_outcome s :
  let '(r, s') := GetNextPendingJob s in
  (pending s = None -> pending s' = None) /\
  match r with
  | Ok (Some job) =>
      exists row, select_oldest JobStatusQueued (tables s) = Some row /\
        job = with_status (scan_job row) JobStatusProcessing /\
        tables s' = with_jobs (tables s)
                      (claim_row (j_id row) (clock s) <$> jobs (tables s))
  | Ok None =>
      select_oldest JobStatusQueued (tables s) = None /\ tables s' = tables s
  | Err _ => tables s' = tables s /\ exists i, faults s !! i = Some true
  end.
Proof.
  unfold GetNextPendingJob, Begin, defer_Rollback, tx_Query, tx_Exec, Commit,
    Rollback, now, next_fault, bind, ret, update_job,
    with_pending, with_faults, with_tables.
  destruct s as [dims t p fs clk]; cbn.
  destruct fs as [|[] fs]; cbn;
    try (split; [done|split; [done|by exists 0%nat]]);
    destruct (select_oldest JobStatusQueued t) as [row|] eqn:Hsel; cbn; auto;
    repeat (next_refusal; auto);
    try (split; [done|split; [done|first [by exists 1%nat|by exists 2%nat]]]);
    (split; [done|]); exists row; done.
Qed.

(** Claiming takes the claimed id, and nothing else, out of the queued ids. *)
Lemma queued_after_claim id ts t x :
  x ∈ with_status_ids JobStatusQueued (with_jobs t (claim_row id ts <$> jobs t)) <->
  x ∈ with_status_ids JobStatusQueued t /\ x <> id.
Proof.
  unfold with_status_ids; cbn. rewrite !list_elem_of_fmap. split.
  - intros (r' & -> & Hin). apply list_elem_of_filter in Hin as [Hst Hin].
    apply list_elem_of_fmap in Hin as (r & -> & Hin).
    unfold claim_row, updated in *.
    destruct (String.eqb_spec (j_id r) id) as [Heq|Hne].
    + cbn in Hst. discriminate.
    + split; [|done]. exists r. split; [done|]. by apply list_elem_of_filter.
  - intros [(r & -> & Hin) Hne]. apply list_elem_of_filter in Hin as [Hst Hin].
    exists r. assert (Hr : claim_row id ts r = r).
    { unfold claim_row, updated. by destruct (String.eqb_spec (j_id r) id). }
    split; [done|]. apply list_elem_of_filter. split; [done|].
    apply list_elem_of_fmap. exists r. by rewrite Hr.
Qed.

Lemma poll_queued envs : forall s,
  NoDup (JobID <$> poll envs s) /\
  forall j, j ∈ poll envs s -> JobID j ∈ with_status_ids JobStatusQueued (tables s).
Proof.
  induction envs as [|[refusals time] envs IH]; intros s; cbn [poll].
  - split; [constructor|]. by intros j ?%elem_of_nil.
  - set (s0 := apply_op (OpEnvironment refusals time) s).
    assert (Ht : tables s0 = tables s) by done.
    pose proof (GetNextPendingJob_outcome s0) as Hout.
    destruct (GetNextPendingJob s0) as [[[job|]|e] s'];
      destruct Hout as [_ Hout]; destruct (IH s') as [Hnd Hin].
    + destruct Hout as (row & Hsel & -> & Hs').
      apply select_oldest_Some in Hsel as (Hrow & Hst & _).
      assert (Hsub : forall j, j ∈ poll envs s' ->
                JobID j ∈ with_status_ids JobStatusQueued (tables s) /\
                JobID j <> j_id row).
      { intros j Hj. apply Hin in Hj. rewrite Hs', queued_after_claim in Hj.
        by rewrite <- Ht. }
      split.
      * cbn. apply NoDup_cons. split; [|done].
        intros (j & Hid & Hj)%list_elem_of_fmap. apply Hsub in Hj as [_ Hne].
        by apply Hne.
      * intros j [->|Hj]%elem_of_cons; [|by apply Hsub].
        cbn. unfold with_status_ids. apply list_elem_of_fmap. exists row.
        split; [done|]. apply list_elem_of_filter. by rewrite <- Ht.
    + destruct Hout as [_ Hs']. split; [done|]. intros j Hj.
      apply Hin in Hj. by rewrite Hs', Ht in Hj.
    + destruct Hout as [Hs' _]. split; [done|]. intros j Hj.
      apply Hin in Hj. by rewrite Hs', Ht in Hj.
Qed.

End store_jobs.

(** * The indexer *)

Section indexer_heap.
Context `{GoRuntime} `{Goldie.Embedder} `{Goldie.FileSystem}.
Import GoString Goldie.

Lemma heap_extends_refl h : heap_extends h h.
Proof. by intros l _. Qed.

Lemma heap_extends_trans h1 h2 h3 :
  heap_extends h1 h2 -> heap_extends h2 h3 -> heap_extends h1 h3.
Proof.
  intros H12 H23 l Hl. rewrite H23, H12; [done..|].
  apply elem_of_dom. rewrite H12 by done. by apply elem_of_dom.
Qed.

Lemma heap_extends_dom h h' l : heap_extends h h' -> l ∈ dom h -> l ∈ dom h'.
Proof.
  intros Hext Hl. apply elem_of_dom. rewrite Hext by done. by apply elem_of_dom.
Qed.

Lemma heap_extends_fresh h x : heap_extends h (<[fresh (dom h) := x]> h).
Proof.
  intros l Hl. rewrite lookup_insert_ne; [done|].
  intros <-. by apply is_fresh in Hl.
Qed.

(** Writing to a map that [h] does not hold keeps [h'] an extension. *)
Lemma heap_extends_write h h' l x :
  heap_extends h h' -> l ∉ dom h -> heap_extends h (<[l := x]> h').
Proof.
  intros Hext Hl l' Hl'. rewrite lookup_insert_ne; [by apply Hext|].
  by intros <-.
Qed.

Lemma in_store_heap {A} (m : Store.M A) w :
  heap (in_store m w).2 = heap w /\ uuids (in_store m w).2 = uuids w.
Proof. unfold in_store. by destruct (m (store w)). Qed.

Lemma default_id_frame id w :
  heap (default_id id w).2 = heap w /\ store (default_id id w).2 = store w.
Proof.
  unfold default_id, uuid_New, ret. destruct (String.eqb id ""); [|done].
  by destruct (uuids w).
Qed.

(** The loop of [Index] writes to the maps that it makes and to no other. *)
Lemma index_chunks_heap id metadata total chunks : forall i w,
  heap_extends (heap w) (heap (index_chunks id metadata total i chunks w).2).
Proof.
  induction chunks as [|chunk rest IH]; intros i w; cbn [index_chunks].
  - apply heap_extends_refl.
  - unfold bind, make_map, maps_Copy, map_set, read_map, ret, with_heap. cbn.
    set (l := fresh (dom (heap w))).
    assert (Hl : l ∉ dom (heap w)) by apply is_fresh.
    match goal with |- context [{| store := store w; heap := ?h; uuids := _ |}] =>
      set (h1 := h) end.
    assert (Hext : heap_extends (heap w) h1).
    { subst h1. repeat apply heap_extends_write; auto using heap_extends_refl. }
    destruct (Embed chunk) as [embedding|e]; cbn; [|done].
    match goal with |- context [in_store ?m ?w1] =>
      pose proof (in_store_heap m w1) as [Hh _];
      destruct (in_store m w1) as [[e|] w2] eqn:Hw2 end; cbn in *.
    + by rewrite Hh.
    + eapply heap_extends_trans; [|apply IH]. by rewrite Hh.
Qed.

(** [Index] writes to the maps that it makes and to no other. *)
Lemma Index_heap r content metadata id w :
  heap_extends (heap w) (heap (Index r content metadata id w).2).
Proof.
  unfold Index. destruct (String.eqb content ""); [apply heap_extends_refl|].
  unfold bind at 1. cbn beta.
  pose proof (default_id_frame id w) as [Hw1 _].
  destruct (default_id id w) as [id' w1] eqn:Hid. cbn in Hw1.
  destruct (len content <=? chunkSize r).
  - destruct (Embed content) as [embedding|e]; [|rewrite <- Hw1; apply heap_extends_refl].
    unfold bind, read_map.
    assert (Hadd : forall meta, heap_extends (heap w)
              (heap (let '(err, s') :=
                       in_store (Store.AddDocument id' content meta embedding) w1 in
                     match err with
                     | Some e => ret (Done (Store.Err (Store.Wrapped "storing document" e)))
                     | None => ret (Done (Store.Ok {| ID := id'; ChunkCount := 1 |}))
                     end s').2)).
    { intros meta. pose proof (in_store_heap
        (Store.AddDocument id' content meta embedding) w1) as [Hh _].
      destruct (in_store _ w1) as [[e|] w2]; cbn in *;
        rewrite Hh, Hw1; apply heap_extends_refl. }
    destruct metadata as [l|]; apply Hadd.
  - destruct (chunkText r content) as [chunks| |]; unfold ret, bind; cbn;
      [|rewrite Hw1; apply heap_extends_refl..].
    pose proof (index_chunks_heap id' metadata (Z.of_nat (length chunks)) chunks 0 w1)
      as Hloop.
    destruct (index_chunks id' metadata (Z.of_nat (length chunks)) 0 chunks w1)
      as [[e|] w2]; cbn in *; by rewrite <- Hw1.
Qed.

End indexer_heap.

(** ** Re-indexing an unchanged file *)

Section indexer_checksum.
Context `{GoRuntime} `{Goldie.Embedder} `{Goldie.FileSystem}.
Import GoString Goldie.

Lemma in_store_GetDocument id w :
  in_store (Store.GetDocument id) w = ((Store.GetDocument id (store w)).1, w).
Proof.
  unfold in_store, Store.GetDocument. destruct w as [s h u]; cbn.
  by destruct (Store.documents (Store.tables s) !! id).
Qed.

Lemma same_checksum_has s id checksum :
  has_checksum s id checksum ->
  same_checksum (Store.GetDocument id s).1 checksum = true.
Proof.
  intros (row & m & Hrow & Hm & Hc). unfold Store.GetDocument, same_checksum.
  rewrite Hrow. cbn. rewrite Hm, Hc. cbn. apply String.eqb_refl.
Qed.

(** A document with the checksum of the file, under the base name or as
    chunk 0, makes [IndexFile] return at once. *)
Lemma IndexFile_skip r path content w :
  ReadFile path = Store.Ok content ->
  has_checksum (store w) (Base path) (sha256_hex content) \/
  has_checksum (store w) (String.append (Base path) "_chunk_0") (sha256_hex content) ->
  IndexFile r path w
    = (Done (Store.Ok {| ID := Base path; ChunkCount := 0 |}), w).
Proof.
  intros Hread Hhas. unfold IndexFile. rewrite Hread.
  unfold bind at 1. rewrite in_store_GetDocument.
  destruct (same_checksum (Store.GetDocument (Base path) (store w)).1
              (sha256_hex content)) eqn:Hfirst; [done|].
  unfold bind at 1. rewrite in_store_GetDocument.
  destruct Hhas as [Hhas|Hhas]; apply same_checksum_has in Hhas.
  - congruence.
  - by rewrite Hhas.
Qed.

Local Arguments chunk_id : simpl never.

(** Decimal printing is injective, and so is the naming of the chunks. *)
Lemma itoa_inj a b : itoa a = itoa b -> a = b.
Proof.
  assert (Hnil : forall z, Z.to_int z <> Pos Nil /\ Z.to_int z <> Neg Nil).
  { intros z. split; intros Hz; pose proof (DecimalZ.of_to z) as Hof;
      rewrite Hz in Hof; cbn in Hof; subst z; discriminate. }
  unfold itoa. intros Heq.
  destruct (Hnil a) as [Ha1 Ha2]. destruct (Hnil b) as [Hb1 Hb2].
  pose proof (NilZero.isi _ Ha1 Ha2) as Hia. pose proof (NilZero.isi _ Hb1 Hb2) as Hib.
  rewrite Heq in Hia. rewrite Hia in Hib. injection Hib as Hib.
  by apply DecimalZ.to_int_inj.
Qed.

Lemma chunk_id_inj id i j : chunk_id id i = chunk_id id j -> i = j.
Proof.
  unfold chunk_id. intros Heq. apply String.app_inj in Heq.
  apply String.app_inj in Heq. by apply itoa_inj.
Qed.

Lemma AddDocument_in_store id content metadata embedding w :
  let '(err, w') := in_store (Store.AddDocument id content metadata embedding) w in
  heap w' = heap w /\
  (forall k, k <> id ->
     Store.documents (Store.tables (store w')) !! k
       = Store.documents (Store.tables (store w)) !! k) /\
  (err = None ->
     Store.documents (Store.tables (store w')) !! id
       = Some {| Store.d_content := content; Store.d_metadata := metadata;
                 Store.d_created_at := Store.clock (store w) |}).
Proof.
  unfold in_store.
  pose proof (AddDocument_outcome id content metadata embedding (store w)) as Hout.
  destruct (Store.AddDocument id content metadata embedding (store w)) as [[e|] s'];
    cbn; destruct Hout as (_ & _ & Hout).
  - rewrite Hout. done.
  - destruct Hout as [-> _]. split; [done|]. cbn. split.
    + intros k Hk. by rewrite lookup_insert_ne.
    + intros _. by rewrite lookup_insert_eq.
Qed.

(** The loop of [Index] from index [i] on writes only the chunks from [i]
    on. *)
Lemma index_chunks_other id metadata total chunks k : forall i w,
  (forall j, i <= j -> chunk_id id j <> k) ->
  Store.documents (Store.tables (store (index_chunks id metadata total i chunks w).2)) !! k
    = Store.documents (Store.tables (store w)) !! k.
Proof.
  induction chunks as [|chunk rest IH]; intros i w Hk; cbn [index_chunks]; [done|].
  unfold bind, make_map, maps_Copy, map_set, read_map, ret, with_heap. cbn.
  destruct (Embed chunk) as [embedding|e]; cbn; [|done].
  match goal with |- context [in_store (Store.AddDocument ?a ?b ?c ?d) ?w1] =>
    pose proof (AddDocument_in_store a b c d w1) as Hadd;
    destruct (in_store (Store.AddDocument a b c d) w1) as [[e|] w2] end;
    cbn in *; destruct Hadd as (_ & Hother & _).
  - apply Hother. intros Heq. apply (Hk i); [lia|by symmetry].
  - rewrite IH by (intros j Hj; apply Hk; lia).
    apply Hother. intros Heq. apply (Hk i); [lia|by symmetry].
Qed.

Lemma entries_of_fresh metadata h x :
  allocated metadata h ->
  entries_of metadata (<[fresh (dom h) := x]> h) = entries_of metadata h.
Proof.
  intros Halloc. destruct metadata as [l|]; [|done]. cbn.
  rewrite lookup_insert_ne; [done|]. intros Heq.
  pose proof (Halloc l eq_refl) as Hl. rewrite <- Heq in Hl. by apply is_fresh in Hl.
Qed.

(** The first chunk that the loop stores carries the caller's checksum. *)
Lemma index_chunks_first id metadata total chunk rest i w w1 c :
  allocated metadata (heap w) ->
  entries_of metadata (heap w) !! "checksum" = Some c ->
  index_chunks id metadata total i (chunk :: rest) w = (None, w1) ->
  has_checksum (store w1) (chunk_id id i) c.
Proof.
  intros Halloc Hc. cbn [index_chunks].
  unfold bind, make_map, maps_Copy, map_set, read_map, ret, with_heap. cbn.
  rewrite !lookup_insert_eq. cbn.
  rewrite entries_of_fresh by done.
  destruct (Embed chunk) as [embedding|e]; cbn; [|done].
  match goal with |- context [in_store (Store.AddDocument ?a ?b ?c ?d) ?w1] =>
    pose proof (AddDocument_in_store a b c d w1) as Hadd;
    destruct (in_store (Store.AddDocument a b c d) w1) as [[e|] w2] end;
    cbn in *; [done|]. destruct Hadd as (_ & _ & Hstored).
  intros Hrest.
  pose proof (index_chunks_other id metadata total rest (chunk_id id i) (i + 1) w2) as Hkeep.
  rewrite Hrest in Hkeep. cbn in Hkeep.
  eexists _, _. split; [|split].
  - rewrite Hkeep; [by apply Hstored|].
    intros j Hj Heq%chunk_id_inj. lia.
  - cbn. rewrite lookup_insert_eq. reflexivity.
  - cbn. rewrite !lookup_insert_ne by done. apply lookup_union_Some_l. done.
Qed.

(** Every chunk that the loop stores lies under its chunk id, with the
    chunk as content and with the caller's entries and the three reserved
    keys as metadata. *)
Lemma index_chunks_stored id metadata total chunks : forall i w w1,
  allocated metadata (heap w) ->
  index_chunks id metadata total i chunks w = (None, w1) ->
  forall k chunk, chunks !! k = Some chunk ->
    exists row,
      Store.documents (Store.tables (store w1)) !! chunk_id id (i + Z.of_nat k) = Some row /\
      Store.d_content row = chunk /\
      Store.d_metadata row
        = Some (chunk_meta (entries_of metadata (heap w)) id (i + Z.of_nat k) total).
Proof.
  induction chunks as [|c rest IH]; intros i w w1 Halloc Hrun k chunk Hk; [done|].
  revert Hrun. cbn [index_chunks].
  unfold bind, make_map, maps_Copy, map_set, read_map, ret, with_heap. cbn.
  rewrite !lookup_insert_eq. cbn.
  rewrite entries_of_fresh by done.
  destruct (Embed c) as [embedding|e]; cbn; [|done].
  match goal with |- context [in_store (Store.AddDocument ?a ?b ?c ?d) ?w0] =>
    pose proof (AddDocument_in_store a b c d w0) as Hadd;
    destruct (in_store (Store.AddDocument a b c d) w0) as [[e|] w2] end;
    cbn in *; [done|]. destruct Hadd as (Hheap & _ & Hstored).
  intros Hrest. destruct k as [|k]; cbn in Hk.
  - injection Hk as ->.
    pose proof (index_chunks_other id metadata total rest (chunk_id id i) (i + 1) w2) as Hkeep.
    rewrite Hrest in Hkeep. cbn in Hkeep.
    eexists. split; [|split].
    + replace (i + Z.of_nat 0) with i by lia.
      rewrite Hkeep; [by apply Hstored|]. intros j Hj Heq%chunk_id_inj. lia.
    + done.
    + cbn. rewrite lookup_insert_eq. cbn.
      by replace (i + Z.of_nat 0) with i by lia.
  - assert (Hext : heap_extends (heap w) (heap w2)).
    { assert (Hl : fresh (dom (heap w)) ∉ dom (heap w)) by apply is_fresh.
      rewrite Hheap. repeat apply heap_extends_write; auto using heap_extends_refl. }
    assert (Halloc2 : allocated metadata (heap w2)).
    { intros l Hl. eapply heap_extends_dom; [exact Hext|]. by apply Halloc. }
    destruct (IH (i + 1) w2 w1 Halloc2 Hrest k chunk Hk) as (row & Hrow & Hc & Hm).
    exists row. replace (i + Z.of_nat (S k)) with (i + 1 + Z.of_nat k) by lia.
    split; [done|]. split; [done|]. rewrite Hm. do 2 f_equal.
    destruct metadata as [l|]; [|done]. cbn. by rewrite Hext by by apply Halloc.
Qed.

(** A call of [Index] that stores something leaves a document with the
    caller's checksum behind, under the id or as chunk 0. *)
Lemma Index_stores r content metadata id w res w1 c :
  allocated metadata (heap w) -> id <> "" -> metadata <> None ->
  entries_of metadata (heap w) !! "checksum" = Some c ->
  Index r content metadata id w = (Done (Store.Ok res), w1) ->
  0 < ChunkCount res ->
  ID res = id /\
  (has_checksum (store w1) id c \/ has_checksum (store w1) (chunk_id id 0) c).
Proof.
  intros Halloc Hid Hmd Hc. unfold Index.
  destruct (String.eqb content ""); [done|].
  unfold bind at 1. unfold default_id.
  destruct (String.eqb_spec id ""); [done|]. unfold ret at 1.
  destruct (len content <=? chunkSize r).
  - destruct (Embed content) as [embedding|e]; [|done].
    unfold bind, read_map. destruct metadata as [l|]; [|done].
    match goal with |- context [in_store (Store.AddDocument ?a ?b ?c ?d) ?w1] =>
      pose proof (AddDocument_in_store a b c d w1) as Hadd;
      destruct (in_store (Store.AddDocument a b c d) w1) as [[e|] w2] end;
      cbn in *; [done|]. destruct Hadd as (_ & _ & Hstored).
    intros [= <- <-] _. split; [done|]. left. eexists _, _.
    split; [by apply Hstored|]. done.
  - destruct (chunkText r content) as [chunks| |]; [|done..].
    unfold bind.
    destruct (index_chunks id metadata (Z.of_nat (length chunks)) 0 chunks w)
      as [[e|] w2] eqn:Hloop; [done|].
    intros [= <- <-] Hcount. split; [done|]. right.
    destruct chunks as [|chunk rest]; [cbn in Hcount; lia|].
    by eapply index_chunks_first.
Qed.

(** C10. [Index] on a content longer than the chunk size leaves every map
    that is on the heap when it is called as it is, the caller's metadata map
    among them. The reserved keys [parent_id], [chunk_index] and
    [total_chunks] go to maps that the call makes, one for each chunk: when
    the call succeeds, chunk [k] is stored under "<id>_chunk_<k>" with the
    caller's entries and the three keys as its metadata. *)
Theorem Index_leaves_metadata r content metadata id w :
  allocated metadata (heap w) ->
  chunkSize r < len content ->
  let '(answer, w') := Index r content metadata id w in
  heap_extends (heap w) (heap w') /\
  entries_of metadata (heap w') = entries_of metadata (heap w) /\
  forall res, answer = Done (Store.Ok res) ->
    exists chunks,
      chunkText r content = Done chunks /\
      ChunkCount res = Z.of_nat (length chunks) /\
      forall k chunk, chunks !! k = Some chunk ->
        exists row,
          Store.documents (Store.tables (store w')) !! chunk_id (ID res) (Z.of_nat k)
            = Some row /\
          Store.d_content row = chunk /\
          Store.d_metadata row
            = Some (chunk_meta (entries_of metadata (heap w)) (ID res) (Z.of_nat k)
                      (Z.of_nat (length chunks))).
Proof.
  intros Halloc Hlong.
  pose proof (Index_heap r content metadata id w) as Hext.
  destruct (Index r content metadata id w) as [answer w'] eqn:Hrun. cbn in Hext.
  split; [done|]. split.
  { destruct metadata as [l|]; [|done]. cbn. by rewrite Hext by by apply Halloc. }
  intros res ->. revert Hrun. unfold Index.
  destruct (String.eqb content ""); [done|].
  unfold bind at 1. cbn beta.
  pose proof (default_id_frame id w) as [Hh1 _].
  destruct (default_id id w) as [id' w1]. cbn in Hh1.
  destruct (Z.leb_spec (len content) (chunkSize r)); [lia|].
  destruct (chunkText r content) as [chunks| |]; [|done..].
  unfold bind.
  destruct (index_chunks id' metadata (Z.of_nat (length chunks)) 0 chunks w1)
    as [[e|] w2] eqn:Hloop; [done|].
  intros [= <- <-]. exists chunks. split; [done|]. split; [done|].
  intros k chunk Hk. cbn [ID].
  assert (Halloc1 : allocated metadata (heap w1)) by by rewrite Hh1.
  destruct (index_chunks_stored _ _ _ _ _ _ _ Halloc1 Hloop k chunk Hk)
    as (row & Hrow & Hc & Hm).
  exists row. rewrite Hh1 in Hm. done.
Qed.

(** C2. With the bytes of the file as they are: whenever the store holds a
    document under the base name of the path, or under that name followed by
    "_chunk_0", whose metadata checksum is the hex SHA-256 of the bytes,
    [IndexFile] returns [(id, 0)] and changes nothing, neither in the store
    nor elsewhere. Hence a call of [IndexFile] that has indexed the file is
    followed by a call that returns chunk count 0 and leaves the store as it
    is. *)
Theorem IndexFile_skips_unchanged r path content w :
  ReadFile path = Store.Ok content ->
  (has_checksum (store w) (Base path) (sha256_hex content) \/
   has_checksum (store w) (String.append (Base path) "_chunk_0") (sha256_hex content) ->
   IndexFile r path w
     = (Done (Store.Ok {| ID := Base path; ChunkCount := 0 |}), w)) /\
  (forall res w1 r',
     Base path <> "" ->
     IndexFile r path w = (Done (Store.Ok res), w1) -> 0 < ChunkCount res ->
     IndexFile r' path w1
       = (Done (Store.Ok {| ID := Base path; ChunkCount := 0 |}), w1)).
Proof.
  intros Hread. split; [by apply IndexFile_skip|].
  intros res w1 r' Hbase Hfirst Hcount. apply (IndexFile_skip r' path content w1 Hread).
  revert Hfirst. unfold IndexFile. rewrite Hread.
  unfold bind at 1. rewrite in_store_GetDocument.
  destruct (same_checksum _ _); [intros [= <- <-]; cbn in Hcount; lia|].
  unfold bind at 1. rewrite in_store_GetDocument.
  destruct (same_checksum _ _); [intros [= <- <-]; cbn in Hcount; lia|].
  unfold bind at 1.
  match goal with |- context [let '(_, _) := ?m w in _] =>
    destruct (m w) as [[] wd] end.
  unfold bind at 1, make_map. cbn beta iota zeta.
  intros Hindex. eapply Index_stores in Hindex as [_ Hhas]; eauto.
  - intros l [= <-]. cbn. apply elem_of_dom. rewrite lookup_insert_eq. eauto.
  - cbn. rewrite lookup_insert_eq. cbn.
    rewrite !lookup_insert_ne by done. by rewrite lookup_insert_eq.
Qed.

End indexer_checksum.

(** C10, witness: a caller's map with one entry, a content of 34 bytes and
    chunks of 10. *)
Lemma Index_leaves_metadata_witness :
  let r := {| Goldie.chunkSize := 10; Goldie.chunkOverlap := 3 |} in
  let content := "hello world, this is a simple test" in
  let w := {| Goldie.store := Store.New None 3 [] 0;
              Goldie.heap := {[ 0%nat := {[ "source" := "test" ]} ]};
              Goldie.uuids := [] |} in
  Goldie.allocated (Some 0%nat) (Goldie.heap w) /\
  Goldie.chunkSize r < GoString.len content /\
  Goldie.entries_of (Some 0%nat)
    (Goldie.heap (Goldie.Index (H := ascii_runtime) (H0 := toy_embedder) r content
                    (Some 0%nat) "doc" w).2)
    = {[ "source" := "test" ]}.
Proof.
  intros r content w.
  assert (Ha : Goldie.allocated (Some 0%nat) (Goldie.heap w)).
  { intros l [= <-]. apply elem_of_dom. eexists. reflexivity. }
  assert (Hl : Goldie.chunkSize r < GoString.len content) by reflexivity.
  pose proof (@Index_leaves_metadata ascii_runtime toy_embedder r content
                (Some 0%nat) "doc" w Ha Hl) as Hframe.
  destruct (Goldie.Index r content (Some 0%nat) "doc" w) as [answer w'].
  exact (conj Ha (conj Hl (proj1 (proj2 Hframe)))).
Defined.

(** C2, witness: the file of the first end-to-end scenario, indexed on a new
    database and then indexed again. *)
Lemma IndexFile_skips_unchanged_witness :
  let r := Goldie.New {| Goldie.Dimensions := 3; Goldie.ChunkSize := 0;
                         Goldie.ChunkOverlap := 0 |} in
  let first := Goldie.IndexFile (H := ascii_runtime) (H0 := toy_embedder)
                 (H1 := toy_files) r "/tmp/a.txt" toy_world in
  Goldie.ReadFile (FileSystem := toy_files) "/tmp/a.txt"
    = Store.Ok "Go is a programming language" /\
  first.1 = Goldie.Done (Store.Ok {| Goldie.ID := "a.txt"; Goldie.ChunkCount := 1 |}) /\
  Goldie.IndexFile (H := ascii_runtime) (H0 := toy_embedder) (H1 := toy_files)
      r "/tmp/a.txt" first.2
    = (Goldie.Done (Store.Ok {| Goldie.ID := "a.txt"; Goldie.ChunkCount := 0 |}),
       first.2).
Proof.
  intros r first.
  assert (Hread : Goldie.ReadFile (FileSystem := toy_files) "/tmp/a.txt"
                  = Store.Ok "Go is a programming language") by reflexivity.
  assert (Hfirst : first = (Goldie.Done (Store.Ok {| Goldie.ID := "a.txt";
                                                     Goldie.ChunkCount := 1 |}), first.2))
    by (vm_compute; reflexivity).
  split; [exact Hread|]. split; [by rewrite Hfirst|].
  exact (proj2 (@IndexFile_skips_unchanged ascii_runtime toy_embedder toy_files
                  r "/tmp/a.txt" _ toy_world Hread)
           _ first.2 r ltac:(discriminate) Hfirst ltac:(reflexivity)).
Defined.

(** * The tool handlers *)

Section handler_claims.
Context `{GoRuntime} `{Goldie.Embedder} `{Goldie.FileSystem}.
Import GoString Main.



Lemma delete_chunks_none n id i deleted w :
  Store.documents (Store.tables (Goldie.store w)) !! Goldie.chunk_id id i = None ->
  Goldie.delete_chunks n id i deleted w = (deleted, w).
Proof.
  intros Hnone. destruct n as [|n]; [done|]. cbn [Goldie.delete_chunks].
  unfold bind at 1. rewrite in_store_GetDocument.
  unfold Store.GetDocument. by rewrite Hnone.
Qed.

(** With neither the document nor its chunk 0 in the store, nothing is
    deleted and nothing changes. *)
Lemma DeleteDocumentAndChunks_none id w :
  Store.documents (Store.tables (Goldie.store w)) !! id = None ->
  Store.documents (Store.tables (Goldie.store w)) !! String.append id "_chunk_0" = None ->
  Goldie.DeleteDocumentAndChunks id w = (0, w).
Proof.
  intros Hdoc Hchunk. unfold Goldie.DeleteDocumentAndChunks.
  unfold bind at 1. rewrite in_store_GetDocument.
  unfold Store.GetDocument at 1. rewrite Hdoc. cbn.
  by apply delete_chunks_none.
Qed.

(** C9. For an id of which the store holds neither the document nor chunk
    0, the delete_document tool answers with an error result and changes
    nothing: "document not found: <id>" (for the empty id, which the handler
    rejects first, "id is required"); it does not answer with a success and
    deleted_count 0. The store's own [DeleteDocument] returns no error for
    such an id, unless the database refuses a statement. *)
Theorem handleDeleteDocument_not_found (arguments : gmap string value) id w :
  arguments !! "id" = Some (VString id) ->
  Store.documents (Store.tables (Goldie.store w)) !! id = None ->
  Store.documents (Store.tables (Goldie.store w)) !! String.append id "_chunk_0" = None ->
  handleDeleteDocument arguments w
    = (ToolError (if String.eqb id "" then "id is required"
                  else String.append "document not found: " id), w) /\
  (forall response, (handleDeleteDocument arguments w).1 <> ToolJSON response) /\
  (Store.faults (Goldie.store w) = [] ->
   (Store.DeleteDocument id (Goldie.store w)).1 = None).
Proof.
  intros Harg Hdoc Hchunk.
  assert (Hres : handleDeleteDocument arguments w
            = (ToolError (if String.eqb id "" then "id is required"
                          else String.append "document not found: " id), w)).
  { unfold handleDeleteDocument. rewrite Harg.
    destruct (String.eqb id ""); [done|].
    unfold bind. by rewrite DeleteDocumentAndChunks_none. }
  split; [done|]. split; [by rewrite Hres|].
  intros Hfaults. unfold Store.DeleteDocument, Store.Begin, Store.defer_Rollback,
    Store.tx_Exec, Store.Commit, Store.Rollback, Store.next_fault, bind, ret.
  destruct (Goldie.store w) as [dims t p fs clk]. cbn in Hfaults. by subst fs.
Qed.

End handler_claims.

(** C9, witness: an id that a new database does not hold. *)
Lemma handleDeleteDocument_not_found_witness :
  let arguments : gmap string Main.value := {[ "id" := Main.VString "doc" ]} in
  arguments !! "id" = Some (Main.VString "doc") /\
  Main.handleDeleteDocument arguments toy_world
    = (Main.ToolError "document not found: doc", toy_world).
Proof.
  intros arguments.
  assert (Harg : arguments !! "id" = Some (Main.VString "doc")) by reflexivity.
  exact (conj Harg (proj1 (handleDeleteDocument_not_found
    arguments "doc" toy_world Harg eq_refl eq_refl))).
Defined.

(** * The job table under the calls of the store *)

Section job_table.
Import Store.

Lemma db_Exec_tables stmt s :
  tables (db_Exec stmt s).2 = tables s \/
  stmt (tables s) = Ok (tables (db_Exec stmt s).2).
Proof.
  unfold db_Exec, next_fault, bind, ret. destruct s as [dims t p fs clk]; cbn.
  destruct fs as [|[] fs]; cbn; auto;
    destruct (stmt t) as [t'|e] eqn:Ht; cbn; auto.
Qed.

(** An update leaves the rows as they are or rewrites those with the id. *)
Lemma update_job_rows id f s :
  let s' := (db_Exec (update_job id f) s).2 in
  jobs (tables s') = jobs (tables s) \/
  jobs (tables s') = updated id f <$> jobs (tables s).
Proof.
  pose proof (db_Exec_tables (update_job id f) s) as Hrows. cbn zeta.
  set (s' := (db_Exec (update_job id f) s).2) in *.
  destruct Hrows as [Heq|Hstmt]; [left; by rewrite Heq|].
  right. unfold update_job in Hstmt. injection Hstmt as Hstmt. by rewrite <- Hstmt.
Qed.

(** An insert leaves the rows as they are or appends a queued row whose id
    no row has. *)
Lemma insert_job_rows id jobType params parent ts s :
  let s' := (db_Exec (insert_job id jobType params parent ts) s).2 in
  jobs (tables s') = jobs (tables s) \/
  exists row, jobs (tables s') = jobs (tables s) ++ [row] /\
    j_id row = id /\ j_status row = JobStatusQueued /\
    forall r, r ∈ jobs (tables s) -> j_id r <> id.
Proof.
  pose proof (db_Exec_tables (insert_job id jobType params parent ts) s) as Hrows.
  cbn zeta. set (s' := (db_Exec (insert_job id jobType params parent ts) s).2) in *.
  destruct Hrows as [Heq|Hstmt]; [left; by rewrite Heq|].
  right. unfold insert_job in Hstmt.
  destruct (existsb _ _) eqn:Hex; [done|]. injection Hstmt as Hstmt.
  rewrite <- Hstmt. eexists. split; [done|]. split; [done|]. split; [done|].
  intros r Hr Hid. apply not_true_iff_false in Hex. apply Hex.
  apply existsb_exists. exists r. split; [by apply list_elem_of_In|].
  by apply String.eqb_eq.
Qed.

Lemma CreateJob_rows id jobType params s :
  let s' := (CreateJob id jobType params s).2 in
  jobs (tables s') = jobs (tables s) \/
  exists row, jobs (tables s') = jobs (tables s) ++ [row] /\
    j_id row = id /\ j_status row = JobStatusQueued /\
    forall r, r ∈ jobs (tables s) -> j_id r <> id.
Proof.
  pose proof (insert_job_rows id jobType params None (clock s) s) as Hrows.
  unfold CreateJob, now, bind. cbn zeta in *.
  by destruct (db_Exec _ s) as [[e|] s'].
Qed.

Lemma CreateJobWithParent_rows id jobType params parentID s :
  let s' := (CreateJobWithParent id jobType params parentID s).2 in
  jobs (tables s') = jobs (tables s) \/
  exists row, jobs (tables s') = jobs (tables s) ++ [row] /\
    j_id row = id /\ j_status row = JobStatusQueued /\
    forall r, r ∈ jobs (tables s) -> j_id r <> id.
Proof.
  pose proof (insert_job_rows id jobType params (Some parentID) (clock s) s) as Hrows.
  unfold CreateJobWithParent, now, bind. cbn zeta in *.
  by destruct (db_Exec _ s) as [[e|] s'].
Qed.

(** A delete leaves the rows as they are, or drops all of them, or those
    with the status. *)
Lemma DeleteJobs_rows status s :
  let s' := (DeleteJobs status s).2 in
  jobs (tables s') = jobs (tables s) \/
  jobs (tables s') =
    if String.eqb status "all" then []
    else filter (fun r => j_status r <> status) (jobs (tables s)).
Proof.
  cbn zeta. pose proof (db_Exec_tables (delete_jobs status) s) as Hrows.
  unfold DeleteJobs. destruct (db_Exec (delete_jobs status) s) as [[e|] s'];
    cbn in *; (destruct Hrows as [Heq|Hstmt]; [left; by rewrite Heq|]); right;
    unfold delete_jobs in Hstmt;
    (destruct (String.eqb status "all"); injection Hstmt as Hstmt;
     by rewrite <- Hstmt).
Qed.

Lemma GetNextPendingJob_rows s :
  let '(answer, s') := GetNextPendingJob s in
  match answer with
  | Ok (Some job) =>
      exists row, row ∈ jobs (tables s) /\ j_status row = JobStatusQueued /\
        JobID job = j_id row /\
        jobs (tables s') = updated (j_id row) (set_status JobStatusProcessing (clock s))
                             <$> jobs (tables s)
  | _ => jobs (tables s') = jobs (tables s)
  end.
Proof.
  pose proof (GetNextPendingJob_outcome s) as Hout.
  destruct (GetNextPendingJob s) as [[[job|]|e] s']; destruct Hout as [_ Hout].
  - destruct Hout as (row & Hsel & -> & ->).
    apply select_oldest_Some in Hsel as (Hin & Hst & _). by exists row.
  - by destruct Hout as [_ ->].
  - by destruct Hout as [-> _].
Qed.

End job_table.

(** * The indexer leaves the job table alone *)

Section indexer_jobs.
Context `{GoRuntime} `{Goldie.Embedder} `{Goldie.FileSystem}.
Import GoString Goldie.

Lemma AddDocument_jobs id content metadata embedding w :
  same_jobs w (in_store (Store.AddDocument id content metadata embedding) w).2.
Proof.
  unfold same_jobs, in_store.
  pose proof (AddDocument_outcome id content metadata embedding (store w)) as Hout.
  destruct (Store.AddDocument id content metadata embedding (store w)) as [[e|] s'];
    cbn; destruct Hout as (_ & _ & Hout).
  - by rewrite Hout.
  - by destruct Hout as [-> _].
Qed.

Lemma DeleteDocument_jobs id w :
  same_jobs w (in_store (Store.DeleteDocument id) w).2.
Proof.
  unfold same_jobs, in_store.
  pose proof (DeleteDocument_outcome id (store w)) as Hout.
  destruct (Store.DeleteDocument id (store w)) as [[e|] s'];
    cbn; destruct Hout as (_ & _ & ->); done.
Qed.

Lemma index_chunks_jobs id metadata total chunks : forall i w,
  same_jobs w (index_chunks id metadata total i chunks w).2.
Proof.
  induction chunks as [|chunk rest IH]; intros i w; cbn [index_chunks]; [done|].
  unfold bind, make_map, maps_Copy, map_set, read_map, ret, with_heap. cbn.
  destruct (Embed chunk) as [embedding|e]; cbn; [|done].
  match goal with |- context [in_store (Store.AddDocument ?a ?b ?c ?d) ?w1] =>
    pose proof (AddDocument_jobs a b c d w1) as Hadd;
    destruct (in_store (Store.AddDocument a b c d) w1) as [[e|] w2] end;
    cbn in *; [done|].
  unfold same_jobs in *. by rewrite IH.
Qed.

Lemma Index_jobs r content metadata id w :
  same_jobs w (Index r content metadata id w).2.
Proof.
  unfold Index. destruct (String.eqb content ""); [done|].
  unfold bind at 1. cbn beta.
  pose proof (default_id_frame id w) as [_ Hw1].
  destruct (default_id id w) as [id' w1]. cbn in Hw1.
  assert (Hsame : same_jobs w w1) by (unfold same_jobs; by rewrite Hw1).
  destruct (len content <=? chunkSize r).
  - destruct (Embed content) as [embedding|e]; [|done].
    unfold bind, read_map.
    assert (Hadd : forall meta, same_jobs w
              (let '(err, s') := in_store (Store.AddDocument id' content meta embedding) w1 in
               match err with
               | Some e => ret (Done (Store.Err (Store.Wrapped "storing document" e)))
               | None => ret (Done (Store.Ok {| ID := id'; ChunkCount := 1 |}))
               end s').2).
    { intros meta. pose proof (AddDocument_jobs id' content meta embedding w1) as Hadd.
      destruct (in_store _ w1) as [[e|] w2]; cbn in *;
        unfold same_jobs in *; congruence. }
    destruct metadata as [l|]; apply Hadd.
  - destruct (chunkText r content) as [chunks| |]; [|done..].
    unfold bind.
    pose proof (index_chunks_jobs id' metadata (Z.of_nat (length chunks)) chunks 0 w1)
      as Hloop.
    destruct (index_chunks _ _ _ _ _ w1) as [[e|] w2]; cbn in *;
      unfold same_jobs in *; congruence.
Qed.

Lemma delete_chunks_jobs n id : forall i deleted w,
  same_jobs w (delete_chunks n id i deleted w).2.
Proof.
  induction n as [|n IH]; intros i deleted w; cbn [delete_chunks]; [done|].
  unfold bind at 1. rewrite in_store_GetDocument.
  destruct (Store.GetDocument (chunk_id id i) (store w)).1 as [[doc|]|e]; [|done..].
  unfold bind.
  pose proof (DeleteDocument_jobs (chunk_id id i) w) as Hdel.
  destruct (in_store (Store.DeleteDocument (chunk_id id i)) w) as [err w1].
  cbn in Hdel. unfold same_jobs in *. by rewrite IH.
Qed.

Lemma DeleteDocumentAndChunks_jobs id w :
  same_jobs w (DeleteDocumentAndChunks id w).2.
Proof.
  unfold DeleteDocumentAndChunks. unfold bind at 1. rewrite in_store_GetDocument.
  destruct (Store.GetDocument id (store w)).1 as [[doc|]|e];
    unfold bind, ret; try apply delete_chunks_jobs.
  pose proof (DeleteDocument_jobs id w) as Hdel.
  destruct (in_store (Store.DeleteDocument id) w) as [err w1].
  cbn in Hdel. unfold same_jobs in *. by rewrite delete_chunks_jobs.
Qed.

Lemma IndexFile_jobs r path w : same_jobs w (IndexFile r path w).2.
Proof.
  unfold IndexFile. destruct (ReadFile path) as [content|e]; [|done].
  unfold bind at 1. rewrite in_store_GetDocument.
  destruct (same_checksum _ _); [done|].
  unfold bind at 1. rewrite in_store_GetDocument.
  destruct (same_checksum _ _); [done|].
  unfold bind at 1.
  assert (Hdel : same_jobs w
            ((if found (Store.GetDocument (Base path) (store w)).1
                 || found (Store.GetDocument (String.append (Base path) "_chunk_0")
                             (store w)).1
              then run DeleteDocumentAndChunks (Base path); ret tt
              else ret tt) w).2).
  { destruct (_ || _); [|done]. unfold bind, ret.
    pose proof (DeleteDocumentAndChunks_jobs (Base path) w) as Hdel.
    by destruct (DeleteDocumentAndChunks (Base path) w). }
  match goal with |- context [let '(_, _) := ?m w in _] =>
    destruct (m w) as [[] wd] end.
  unfold bind at 1, make_map. cbn beta iota zeta.
  match goal with |- same_jobs _ (Index ?r ?c ?m ?i ?w0).2 =>
    pose proof (Index_jobs r c m i w0) as Hindex end.
  unfold same_jobs in *. cbn in *. congruence.
Qed.

End indexer_jobs.

(** * The queue: terminal statuses *)

Section queue_tables.
Import Store Queue.

Lemma queued_not_terminal : ~ terminal JobStatusQueued.
Proof. by intros [|]. Qed.

Lemma processing_not_terminal : ~ terminal JobStatusProcessing.
Proof. by intros [|]. Qed.

Lemma updated_id j g r : (forall r, j_id (g r) = j_id r) -> j_id (updated j g r) = j_id r.
Proof. intros Hg. unfold updated. by destruct (String.eqb (j_id r) j). Qed.

Lemma updated_ids j g (l : list JobRow) :
  (forall r, j_id (g r) = j_id r) -> j_id <$> (updated j g <$> l) = j_id <$> l.
Proof.
  intros Hg. rewrite <- list_fmap_compose. apply list_fmap_ext.
  intros i r _. cbn. by apply updated_id.
Qed.

Lemma table_ok_same e l u : table_ok e l u l u.
Proof.
  repeat split; auto. intros r Hr Ht. left. by exists r.
Qed.

Lemma updated_not_queued j g r :
  j_status (g r) <> JobStatusQueued ->
  j_status r <> JobStatusQueued -> j_status (updated j g r) <> JobStatusQueued.
Proof. intros Hg Hr. unfold updated. by destruct (String.eqb (j_id r) j). Qed.

(** More ids given out and the table as it is. *)
Lemma table_ok_used e l u id : table_ok e l u l ({[id]} ∪ u).
Proof.
  split; [done|]. split; [|split; [|split; [|split]]].
  - intros Hu r Hr. apply elem_of_union_r. by apply Hu.
  - apply union_subseteq_r.
  - intros r Hr Ht. left. by exists r.
  - done.
  - done.
Qed.

(** An update that keeps every terminal status and queues nothing. *)
Lemma table_ok_update e l u j g :
  (forall r, j_id (g r) = j_id r) ->
  (forall r, r ∈ l -> terminal (j_status r) -> j_status (updated j g r) = j_status r) ->
  (forall r, j_status r <> JobStatusQueued -> j_status (updated j g r) <> JobStatusQueued) ->
  table_ok e l u (updated j g <$> l) u.
Proof.
  intros Hg Hkeep Hnq. split; [|split; [|split; [|split; [|split]]]].
  - by rewrite updated_ids.
  - intros Hu r' (r & -> & Hr)%list_elem_of_fmap. rewrite updated_id by done. by apply Hu.
  - done.
  - intros r Hr Ht. left. exists (updated j g r).
    split; [by apply list_elem_of_fmap_2|]. split; [by apply updated_id|by apply Hkeep].
  - intros id _ Habs r' (r & -> & Hr)%list_elem_of_fmap.
    rewrite updated_id by done. by apply Habs.
  - intros id _ Hq r' (r & -> & Hr)%list_elem_of_fmap Hid.
    rewrite updated_id in Hid by done. apply Hnq. by apply Hq.
Qed.

(** A new row under an id that has not been given out before. *)
Lemma table_ok_insert e l u row :
  (forall r, r ∈ l -> j_id r ∈ u) -> j_id row ∉ u ->
  table_ok e l u (l ++ [row]) ({[j_id row]} ∪ u).
Proof.
  intros Hin Hfresh. split; [|split; [|split; [|split; [|split]]]].
  - intros Hnd. rewrite fmap_app. cbn. apply NoDup_app. split; [done|]. split.
    + intros x (r & -> & Hr)%list_elem_of_fmap [Heq|[]%elem_of_nil]%elem_of_cons.
      apply Hfresh. rewrite <- Heq. by apply Hin.
    + apply NoDup_singleton.
  - intros _ r [Hr|[->|[]%elem_of_nil]%elem_of_cons]%elem_of_app.
    + apply elem_of_union_r. by apply Hin.
    + apply elem_of_union_l. by apply elem_of_singleton.
  - apply union_subseteq_r.
  - intros r Hr Ht. left. exists r. split; [|done]. apply elem_of_app. by left.
  - intros id Hid Habs r [Hr|[->|[]%elem_of_nil]%elem_of_cons]%elem_of_app.
    + by apply Habs.
    + intros Heq. apply Hfresh. by rewrite Heq.
  - intros id Hid Hq r [Hr|[->|[]%elem_of_nil]%elem_of_cons]%elem_of_app Heq.
    + by apply Hq.
    + destruct Hfresh. by rewrite Heq.
Qed.

(** [ClearQueue]: every row, or the rows with the status, deleted. *)
Lemma table_ok_clear (l : list JobRow) u status :
  NoDup (j_id <$> l) ->
  table_ok (ClearQueue status) l u
    (if String.eqb status "all" then [] else filter (fun r => j_status r <> status) l) u.
Proof.
  intros Hnd0. destruct (String.eqb_spec status "all") as [->|Hall].
  - split; [intros _; constructor|]. split; [by intros _ r ?%elem_of_nil|].
    split; [done|]. split; [|split].
    + intros r Hr Ht. right. split; [by intros r' ?%elem_of_nil|]. exists "all". auto.
    + by intros id _ _ r ?%elem_of_nil.
    + by intros id _ _ r ?%elem_of_nil.
  - split; [|split; [|split; [|split; [|split]]]].
    + intros Hnd. eapply sublist_NoDup; [exact Hnd|].
      apply fmap_sublist. apply sublist_filter.
    + intros Hu r [_ Hr]%list_elem_of_filter. by apply Hu.
    + done.
    + intros r Hr Ht. destruct (decide (j_status r = status)) as [Hst|Hst].
      * right. split; [|exists status; auto].
        intros r' [Hst' Hr']%list_elem_of_filter Hid.
        assert (r' = r); [|congruence].
        apply list_elem_of_lookup in Hr as [i Hi]. apply list_elem_of_lookup in Hr' as [i' Hi'].
        assert (i' = i); [|congruence].
        eapply NoDup_lookup; [exact Hnd0| |].
        -- rewrite list_lookup_fmap, Hi'. cbn. by rewrite Hid.
        -- by rewrite list_lookup_fmap, Hi.
      * left. exists r. split; [|done]. by apply list_elem_of_filter.
    + intros id _ Habs r [_ Hr]%list_elem_of_filter. by apply Habs.
    + intros id _ Hq r [_ Hr]%list_elem_of_filter. by apply Hq.
Qed.

End queue_tables.

Section queue_steps.
Context `{GoRuntime} `{Goldie.Embedder} `{Goldie.FileSystem} `{Queue.Json}.
Import Store Queue.

(** [handleIndexContent] leaves the job table as it is. *)
Lemma index_content_jobs r content metadata w :
  Goldie.same_jobs w (index_content r content metadata w).2.
Proof.
  unfold index_content, bind. destruct metadata as [entries|]; cbn.
  - apply (Index_jobs r content _ "" (Goldie.with_heap w _)).
  - apply Index_jobs.
Qed.

(** The programs of the worker write one terminal status, to their job. *)
Lemma enqueue_children_finishing j parentID files : forall childJobIDs k,
  (forall ids, finishing j (k ids)) ->
  finishing j (enqueue_children parentID files childJobIDs k).
Proof.
  induction files as [|file rest IH]; intros childJobIDs k Hk; cbn; [done|].
  apply finishing_child. intros [childID|e]; by apply IH.
Qed.

Lemma dispatch_finishing job : finishing (JobID job) (dispatch job).
Proof.
  unfold dispatch, processIndexFile, processIndexDirectory.
  destruct (String.eqb (JobType job) JobTypeIndexFile).
  - destruct (unmarshal_file_params (Params job)) as [params|e].
    + apply finishing_progress, finishing_index. intros [[res|e]| |].
      * destruct (marshal_file_result res (Path params)).
        -- apply finishing_progress, finishing_result, quiet_Halt.
        -- apply finishing_error, quiet_Halt.
      * apply finishing_error, quiet_Halt.
      * apply finishing_quiet, quiet_Halt.
      * apply finishing_quiet, quiet_Halt.
    + apply finishing_error, quiet_Halt.
  - destruct (String.eqb (JobType job) JobTypeIndexDir).
    + destruct (unmarshal_dir_params (Params job)) as [params|e].
      * apply finishing_scan. intros [files|e].
        -- apply finishing_progress, enqueue_children_finishing. intros ids.
           destruct (marshal_dir_result _ ids params).
           ++ apply finishing_result, quiet_Halt.
           ++ apply finishing_error, quiet_Halt.
        -- apply finishing_error, quiet_Halt.
      * apply finishing_error, quiet_Halt.
    + apply finishing_error, quiet_Halt.
Qed.

(** The rows that the enqueue calls leave. *)
Lemma EnqueueIndexFile_rows id path s :
  let s' := (EnqueueIndexFile id path s).2 in
  jobs (tables s') = jobs (tables s) \/
  exists row, jobs (tables s') = jobs (tables s) ++ [row] /\
    j_id row = id /\ j_status row = JobStatusQueued.
Proof.
  cbn zeta. unfold EnqueueIndexFile.
  destruct (marshal_file_params _) as [params|e]; [|by left].
  unfold bind. pose proof (CreateJob_rows id JobTypeIndexFile params s) as Hrows.
  destruct (CreateJob id JobTypeIndexFile params s) as [[e|] s']; cbn in *;
    (destruct Hrows as [?|(row & ? & ? & ? & _)]; [by left|right; by exists row]).
Qed.

Lemma EnqueueIndexFileWithParent_rows id path parentID s :
  let s' := (EnqueueIndexFileWithParent id path parentID s).2 in
  jobs (tables s') = jobs (tables s) \/
  exists row, jobs (tables s') = jobs (tables s) ++ [row] /\
    j_id row = id /\ j_status row = JobStatusQueued.
Proof.
  cbn zeta. unfold EnqueueIndexFileWithParent.
  destruct (marshal_file_params _) as [params|e]; [|by left].
  unfold bind.
  pose proof (CreateJobWithParent_rows id JobTypeIndexFile params parentID s) as Hrows.
  destruct (CreateJobWithParent id JobTypeIndexFile params parentID s) as [[e|] s'];
    cbn in *;
    (destruct Hrows as [?|(row & ? & ? & ? & _)]; [by left|right; by exists row]).
Qed.

Lemma EnqueueIndexDirectory_rows id directory pattern recursive s :
  let s' := (EnqueueIndexDirectory id directory pattern recursive s).2 in
  jobs (tables s') = jobs (tables s) \/
  exists row, jobs (tables s') = jobs (tables s) ++ [row] /\
    j_id row = id /\ j_status row = JobStatusQueued.
Proof.
  cbn zeta. unfold EnqueueIndexDirectory.
  destruct (marshal_dir_params _) as [params|e]; [|by left].
  unfold bind. pose proof (CreateJob_rows id JobTypeIndexDir params s) as Hrows.
  destruct (CreateJob id JobTypeIndexDir params s) as [[e|] s']; cbn in *;
    (destruct Hrows as [?|(row & ? & ? & ? & _)]; [by left|right; by exists row]).
Qed.

(** Two rows with the same id are the same row. *)
Lemma same_id_same_row (l : list JobRow) r r' :
  NoDup (j_id <$> l) -> r ∈ l -> r' ∈ l -> j_id r = j_id r' -> r = r'.
Proof.
  intros Hnd [i Hi]%list_elem_of_lookup [i' Hi']%list_elem_of_lookup Hid.
  assert (i = i'); [|congruence].
  eapply NoDup_lookup; [exact Hnd| |].
  - by rewrite list_lookup_fmap, Hi.
  - rewrite list_lookup_fmap, Hi'. cbn. by rewrite Hid.
Qed.

(** An enqueue under a new id. *)
Lemma table_ok_enqueue e (l l' : list JobRow) u id :
  (forall r, r ∈ l -> j_id r ∈ u) -> id ∉ u ->
  l' = l \/ (exists row, l' = l ++ [row] /\ j_id row = id /\ j_status row = JobStatusQueued) ->
  table_ok e l u l' ({[id]} ∪ u).
Proof.
  intros Hin Hfresh [->|(row & -> & <- & _)].
  - apply table_ok_used.
  - by apply table_ok_insert.
Qed.

(** A worker that is still to write a terminal status is not quiet, and it
    writes to its own job. *)
Lemma finishing_error_inv j job msg k :
  finishing j (DoUpdateError job msg k) -> job = j /\ quiet k.
Proof. intros Hf. inversion Hf as [p Hq| | | | | |]; subst; [inversion Hq|done]. Qed.

Lemma finishing_result_inv j job res k :
  finishing j (DoUpdateResult job res k) -> job = j /\ quiet k.
Proof. intros Hf. inversion Hf as [p Hq| | | | | |]; subst; [inversion Hq|done]. Qed.

Lemma error_not_quiet job msg k : ~ quiet (DoUpdateError job msg k).
Proof. intros Hq. inversion Hq. Qed.

Lemma result_not_quiet job res k : ~ quiet (DoUpdateResult job res k).
Proof. intros Hq. inversion Hq. Qed.

Lemma step_table e v v' :
  consistent v -> step e v = Some v' ->
  table_ok e (jobs_of v) (used v) (jobs_of v') (used v').
Proof.
  intros (Hnd & Hin & j & Hfin & Hterm) Hstep.
  destruct e; cbn [step] in Hstep.
  - destruct (decide (id ∈ used v)); [done|]. injection Hstep as <-.
    apply table_ok_enqueue; [done..|]. apply EnqueueIndexFile_rows.
  - destruct (decide (id ∈ used v)); [done|]. injection Hstep as <-.
    apply table_ok_enqueue; [done..|]. apply EnqueueIndexDirectory_rows.
  - destruct (valid_clear status); [|done]. injection Hstep as <-.
    unfold jobs_of at 2. cbn.
    destruct (DeleteJobs_rows status (Goldie.store (world v))) as [->| ->];
      [apply table_ok_same|by apply table_ok_clear].
  - injection Hstep as <-. apply table_ok_same.
  - destruct (worker v) eqn:Hw; try done.
    pose proof (GetNextPendingJob_rows (Goldie.store (world v))) as Hrows.
    destruct (GetNextPendingJob (Goldie.store (world v))) as [answer s'].
    injection Hstep as <-. unfold jobs_of at 2. cbn.
    destruct answer as [[job|]|e]; [|rewrite Hrows; apply table_ok_same..].
    destruct Hrows as (row & Hrow & Hst & Hid & ->).
    apply table_ok_update; [done| |by intros r; apply updated_not_queued].
    intros r Hr Ht. unfold updated.
    destruct (String.eqb_spec (j_id r) (j_id row)) as [Heq|]; [|done].
    assert (r = row) by (eapply same_id_same_row; eauto). subst r.
    rewrite Hst in Ht. by destruct queued_not_terminal.
  - unfold call in Hstep.
    destruct (worker v) as [|job progress total k|job msg k|job res k|path k
                           |dir pattern recursive k|path parentID k] eqn:Hw; try done.
    + injection Hstep as <-. unfold jobs_of at 2. cbn.
      destruct (update_job_rows job
                  (set_progress progress total (clock (Goldie.store (world v))))
                  (Goldie.store (world v))) as [Hrows|Hrows];
        unfold UpdateJobProgress, now, bind; cbn; rewrite Hrows;
        [apply table_ok_same|].
      apply table_ok_update; [done|..];
        intros r; intros; unfold updated; by destruct (String.eqb (j_id r) job).
    + injection Hstep as <-. unfold jobs_of at 2. cbn.
      apply finishing_error_inv in Hfin as [-> Hk].
      destruct Hterm as [Hq|Hterm]; [by apply error_not_quiet in Hq|].
      destruct (update_job_rows j
                  (set_error msg (clock (Goldie.store (world v))))
                  (Goldie.store (world v))) as [Hrows|Hrows];
        unfold UpdateJobError, now, bind; cbn; rewrite Hrows;
        [apply table_ok_same|].
      apply table_ok_update; [done| |by intros r; apply updated_not_queued].
      intros r Hr Ht. unfold updated.
      destruct (String.eqb_spec (j_id r) j) as [Heq|]; [|done].
      by destruct (Hterm r Hr Heq).
    + injection Hstep as <-. unfold jobs_of at 2. cbn.
      apply finishing_result_inv in Hfin as [-> Hk].
      destruct Hterm as [Hq|Hterm]; [by apply result_not_quiet in Hq|].
      destruct (update_job_rows j
                  (set_result res (clock (Goldie.store (world v))))
                  (Goldie.store (world v))) as [Hrows|Hrows];
        unfold UpdateJobResult, now, bind; cbn; rewrite Hrows;
        [apply table_ok_same|].
      apply table_ok_update; [done| |by intros r; apply updated_not_queued].
      intros r Hr Ht. unfold updated.
      destruct (String.eqb_spec (j_id r) j) as [Heq|]; [|done].
      by destruct (Hterm r Hr Heq).
    + pose proof (IndexFile_jobs (goldie v) path (world v)) as Hjobs.
      destruct (Goldie.IndexFile (goldie v) path (world v)) as [answer w'].
      injection Hstep as <-. unfold jobs_of at 2. cbn. unfold Goldie.same_jobs in Hjobs.
      cbn in Hjobs. rewrite Hjobs. apply table_ok_same.
    + injection Hstep as <-. apply table_ok_same.
    + destruct (decide (id ∈ used v)); [done|].
      pose proof (EnqueueIndexFileWithParent_rows id path parentID
                    (Goldie.store (world v))) as Hrows.
      destruct (EnqueueIndexFileWithParent id path parentID (Goldie.store (world v)))
        as [answer s'].
      injection Hstep as <-. by apply table_ok_enqueue.
  - injection Hstep as <-. apply table_ok_same.
  - destruct (String.eqb content ""); [done|].
    pose proof (index_content_jobs (goldie v) content metadata (world v)) as Hjobs.
    destruct (index_content (goldie v) content metadata (world v)) as [answer w'].
    injection Hstep as <-. unfold jobs_of at 2. cbn. unfold Goldie.same_jobs in Hjobs.
    cbn in Hjobs. rewrite Hjobs. apply table_ok_same.
  - destruct (String.eqb id ""); [done|].
    pose proof (DeleteDocumentAndChunks_jobs id (world v)) as Hjobs.
    destruct (Goldie.DeleteDocumentAndChunks id (world v)) as [deleted w'].
    injection Hstep as <-. unfold jobs_of at 2. cbn. unfold Goldie.same_jobs in Hjobs.
    cbn in Hjobs. rewrite Hjobs. apply table_ok_same.
Qed.

(** Rows without a terminal status stay so when rows are added queued. *)
Lemma open_job_enqueue j (l l' : list JobRow) id :
  l' = l \/ (exists row, l' = l ++ [row] /\ j_id row = id /\ j_status row = JobStatusQueued) ->
  open_job j l -> open_job j l'.
Proof.
  intros [->|(row & -> & _ & Hst)] Hopen; [done|].
  intros r [Hr|[->|[]%elem_of_nil]%elem_of_cons]%elem_of_app Hid.
  - by apply Hopen.
  - rewrite Hst. apply queued_not_terminal.
Qed.

Lemma open_job_update j (l : list JobRow) j' g :
  (forall r, j_id (g r) = j_id r) ->
  (forall r, ~ terminal (j_status r) -> ~ terminal (j_status (g r))) ->
  open_job j l -> open_job j (updated j' g <$> l).
Proof.
  intros Hg Hkeep Hopen r' (r & -> & Hr)%list_elem_of_fmap Hid.
  rewrite updated_id in Hid by done. specialize (Hopen r Hr Hid).
  unfold updated. destruct (String.eqb (j_id r) j'); auto.
Qed.

Lemma worker_ok_intro v j :
  finishing j (worker v) -> quiet (worker v) \/ open_job j (jobs_of v) -> worker_ok v.
Proof. intros Hf Hopen. by exists j. Qed.

Lemma step_worker e v v' : consistent v -> step e v = Some v' -> worker_ok v'.
Proof.
  intros (Hnd & Hin & j & Hfin & Hterm) Hstep.
  destruct e; cbn [step] in Hstep.
  - destruct (decide (id ∈ used v)); [done|]. injection Hstep as <-.
    apply (worker_ok_intro _ j); [done|]. destruct Hterm as [?|Hopen]; [by left|right].
    eapply open_job_enqueue; [|exact Hopen]. apply EnqueueIndexFile_rows.
  - destruct (decide (id ∈ used v)); [done|]. injection Hstep as <-.
    apply (worker_ok_intro _ j); [done|]. destruct Hterm as [?|Hopen]; [by left|right].
    eapply open_job_enqueue; [|exact Hopen]. apply EnqueueIndexDirectory_rows.
  - destruct (valid_clear status); [|done]. injection Hstep as <-.
    apply (worker_ok_intro _ j); [done|]. destruct Hterm as [?|Hopen]; [by left|right].
    unfold jobs_of. cbn.
    destruct (DeleteJobs_rows status (Goldie.store (world v))) as [->| ->]; [done|].
    destruct (String.eqb status "all"); [by intros r ?%elem_of_nil|].
    intros r [_ Hr]%list_elem_of_filter. by apply Hopen.
  - injection Hstep as <-. by apply (worker_ok_intro _ j).
  - destruct (worker v) eqn:Hw; try done.
    pose proof (GetNextPendingJob_rows (Goldie.store (world v))) as Hrows.
    destruct (GetNextPendingJob (Goldie.store (world v))) as [answer s'].
    injection Hstep as <-.
    destruct answer as [[job|]|e];
      [|apply (worker_ok_intro _ j); [apply finishing_quiet|left]; apply quiet_Halt..].
    destruct Hrows as (row & Hrow & Hst & Hid & Hrows).
    apply (worker_ok_intro _ (JobID job)); [apply dispatch_finishing|right].
    unfold jobs_of. cbn. rewrite Hrows.
    intros r' (r & -> & Hr)%list_elem_of_fmap Hid'.
    rewrite updated_id in Hid' by done. unfold updated.
    rewrite Hid in Hid'. apply String.eqb_eq in Hid'. rewrite Hid'. cbn.
    apply processing_not_terminal.
  - unfold call in Hstep.
    destruct (worker v) as [|job progress total k|job msg k|job res k|path k
                           |dir pattern recursive k|path parentID k] eqn:Hw; try done.
    + injection Hstep as <-.
      assert (Hk : finishing j k /\ (quiet k \/ open_job j (jobs_of v))).
      { inversion Hfin as [p Hq| | |? ? ? ? Hk| | |]; subst.
        - inversion Hq; subst. split; [by apply finishing_quiet|by left].
        - split; [done|]. destruct Hterm as [Hq|?]; [|by right].
          inversion Hq; subst. by left. }
      destruct Hk as [Hk Hopen]. apply (worker_ok_intro _ j); [done|].
      destruct Hopen as [?|Hopen]; [by left|right]. unfold jobs_of. cbn.
      destruct (update_job_rows job
                  (set_progress progress total (clock (Goldie.store (world v))))
                  (Goldie.store (world v))) as [Hrows|Hrows];
        unfold UpdateJobProgress, now, bind; cbn; rewrite Hrows; [done|].
      by apply open_job_update.
    + injection Hstep as <-. apply finishing_error_inv in Hfin as [-> Hk].
      apply (worker_ok_intro _ j); [by apply finishing_quiet|by left].
    + injection Hstep as <-. apply finishing_result_inv in Hfin as [-> Hk].
      apply (worker_ok_intro _ j); [by apply finishing_quiet|by left].
    + pose proof (IndexFile_jobs (goldie v) path (world v)) as Hjobs.
      destruct (Goldie.IndexFile (goldie v) path (world v)) as [answer w'].
      injection Hstep as <-.
      assert (Hk : finishing j (k answer) /\ (quiet (k answer) \/ open_job j (jobs_of v))).
      { inversion Hfin as [p Hq| | | |? ? Hk| |]; subst.
        - inversion Hq; subst. split; [apply finishing_quiet|left]; auto.
        - split; [done|]. destruct Hterm as [Hq|?]; [|by right].
          inversion Hq; subst. left. auto. }
      destruct Hk as [Hk Hopen]. apply (worker_ok_intro _ j); [done|].
      destruct Hopen as [?|Hopen]; [by left|right]. unfold jobs_of. cbn.
      unfold Goldie.same_jobs in Hjobs. cbn in Hjobs. by rewrite Hjobs.
    + injection Hstep as <-.
      assert (Hk : finishing j (k scanned) /\ (quiet (k scanned) \/ open_job j (jobs_of v))).
      { inversion Hfin as [p Hq| | | | |? ? ? ? Hk|]; subst.
        - inversion Hq; subst. split; [apply finishing_quiet|left]; auto.
        - split; [done|]. destruct Hterm as [Hq|?]; [|by right].
          inversion Hq; subst. left. auto. }
      destruct Hk as [Hk Hopen]. by apply (worker_ok_intro _ j).
    + destruct (decide (id ∈ used v)); [done|].
      pose proof (EnqueueIndexFileWithParent_rows id path parentID
                    (Goldie.store (world v))) as Hrows.
      destruct (EnqueueIndexFileWithParent id path parentID (Goldie.store (world v)))
        as [answer s'].
      injection Hstep as <-.
      assert (Hk : finishing j (k answer) /\ (quiet (k answer) \/ open_job j (jobs_of v))).
      { inversion Hfin as [p Hq| | | | | |? ? ? Hk]; subst.
        - inversion Hq; subst. split; [apply finishing_quiet|left]; auto.
        - split; [done|]. destruct Hterm as [Hq|?]; [|by right].
          inversion Hq; subst. left. auto. }
      destruct Hk as [Hk Hopen]. apply (worker_ok_intro _ j); [done|].
      destruct Hopen as [?|Hopen]; [by left|right].
      eapply open_job_enqueue; [|exact Hopen]. exact Hrows.
  - injection Hstep as <-.
    apply (worker_ok_intro _ j); [apply finishing_quiet|left]; apply quiet_Halt.
  - destruct (String.eqb content ""); [done|].
    pose proof (index_content_jobs (goldie v) content metadata (world v)) as Hjobs.
    destruct (index_content (goldie v) content metadata (world v)) as [answer w'].
    injection Hstep as <-. apply (worker_ok_intro _ j); [done|].
    destruct Hterm as [?|Hopen]; [by left|right]. unfold jobs_of. cbn.
    unfold Goldie.same_jobs in Hjobs. cbn in Hjobs. by rewrite Hjobs.
  - destruct (String.eqb id ""); [done|].
    pose proof (DeleteDocumentAndChunks_jobs id (world v)) as Hjobs.
    destruct (Goldie.DeleteDocumentAndChunks id (world v)) as [deleted w'].
    injection Hstep as <-. apply (worker_ok_intro _ j); [done|].
    destruct Hterm as [?|Hopen]; [by left|right]. unfold jobs_of. cbn.
    unfold Goldie.same_jobs in Hjobs. cbn in Hjobs. by rewrite Hjobs.
Qed.

(** Every moment of a run is consistent. *)
Lemma step_consistent e v v' : consistent v -> step e v = Some v' -> consistent v'.
Proof.
  intros Hc Hstep. pose proof (step_table e v v' Hc Hstep) as (Hnd & Hin & _).
  destruct Hc as (Hnd0 & Hin0 & Hw). split; [auto|]. split; [auto|].
  eapply step_worker; [|exact Hstep]. done.
Qed.

Lemma run_consistent es : forall v v',
  consistent v -> run_events es v = Some v' -> consistent v'.
Proof.
  induction es as [|e es IH]; intros v v' Hc; cbn.
  - by intros [= <-].
  - destruct (step e v) as [v1|] eqn:Hstep; [|done].
    apply IH. by eapply step_consistent.
Qed.

Lemma started_consistent v : started v -> consistent v.
Proof.
  intros (Hw & Hnd & Hin). split; [done|]. split; [done|].
  exists "". rewrite Hw. split; [apply finishing_quiet|left]; apply quiet_Halt.
Qed.

(** The status that [job_status] reads is the status of the row. *)
Lemma job_status_Some v id t :
  job_status v id = Some t ->
  exists r, r ∈ jobs_of v /\ j_id r = id /\ j_status r = t.
Proof.
  unfold job_status, jobs_of.
  destruct (List.find _ _) as [r|] eqn:Hfind; [|done]. intros [= <-].
  apply find_some in Hfind as [Hin Hid]. exists r.
  split; [by apply list_elem_of_In|]. split; [by apply String.eqb_eq|done].
Qed.

Lemma job_status_None v id :
  job_status v id = None <-> forall r, r ∈ jobs_of v -> j_id r <> id.
Proof.
  unfold job_status, jobs_of. split.
  - destruct (List.find _ _) as [r|] eqn:Hfind; [done|]. intros _ r Hr Hid.
    eapply find_none in Hfind; [|by apply list_elem_of_In].
    apply String.eqb_neq in Hfind. done.
  - intros Habs. destruct (List.find _ _) as [r|] eqn:Hfind; [|done].
    apply find_some in Hfind as [Hin Hid]. apply String.eqb_eq in Hid.
    by destruct (Habs r (proj2 (list_elem_of_In _ _) Hin)).
Qed.

Lemma job_status_row v r :
  NoDup (j_id <$> jobs_of v) -> r ∈ jobs_of v ->
  job_status v (j_id r) = Some (j_status r).
Proof.
  intros Hnd Hr. destruct (job_status v (j_id r)) as [t|] eqn:Hst.
  - apply job_status_Some in Hst as (r' & Hr' & Hid & <-).
    by rewrite (same_id_same_row _ r' r Hnd Hr' Hr Hid).
  - by destruct (proj1 (job_status_None v (j_id r)) Hst r Hr).
Qed.

(** An id that was given out and has no row gets none in a run. *)
Lemma run_absent es : forall v v' id,
  consistent v -> run_events es v = Some v' -> id ∈ used v ->
  (forall r, r ∈ jobs_of v -> j_id r <> id) ->
  forall r', r' ∈ jobs_of v' -> j_id r' <> id.
Proof.
  induction es as [|e es IH]; intros v v' id Hc; cbn.
  - by intros [= <-].
  - destruct (step e v) as [v1|] eqn:Hstep; [|done]. intros Hrun Hid Habs.
    pose proof (step_table e v v1 Hc Hstep) as (_ & _ & Hsub & _ & Hkeep & _).
    eapply IH; [by eapply step_consistent|done|by apply Hsub|].
    by apply Hkeep.
Qed.

Lemma run_used es : forall v v',
  consistent v -> run_events es v = Some v' -> used v ⊆ used v'.
Proof.
  induction es as [|e es IH]; intros v v' Hc; cbn.
  - by intros [= <-].
  - destruct (step e v) as [v1|] eqn:Hstep; [|done]. intros Hrun.
    pose proof (step_table e v v1 Hc Hstep) as (_ & _ & Hsub & _).
    etrans; [exact Hsub|]. eapply IH; [by eapply step_consistent|done].
Qed.

(** A row with a terminal status keeps it through a run, or a [ClearQueue]
    of the run deletes it. *)
Lemma run_sticky es : forall v v' r,
  consistent v -> run_events es v = Some v' ->
  r ∈ jobs_of v -> terminal (j_status r) ->
  (exists r', r' ∈ jobs_of v' /\ j_id r' = j_id r /\ j_status r' = j_status r) \/
  ((forall r', r' ∈ jobs_of v' -> j_id r' <> j_id r) /\
   exists st, ClearQueue st ∈ es /\ (st = "all" \/ st = j_status r)).
Proof.
  induction es as [|e es IH]; intros v v' r Hc; cbn.
  - intros [= <-] Hr _. left. by exists r.
  - destruct (step e v) as [v1|] eqn:Hstep; [|done]. intros Hrun Hr Ht.
    pose proof (step_consistent e v v1 Hc Hstep) as Hc1.
    pose proof (step_table e v v1 Hc Hstep) as (_ & _ & Hsub & Hsticky & _).
    destruct (Hsticky r Hr Ht) as [(r1 & Hr1 & Hid1 & Hst1)|[Habs (st & -> & Hst)]].
    + rewrite <- Hst1 in Ht.
      destruct (IH v1 v' r1 Hc1 Hrun Hr1 Ht)
        as [(r' & Hr' & Hid' & Hst')|[Habs' (st & Hin & Hst)]].
      * left. exists r'. split; [done|]. split; congruence.
      * right. split; [intros r' Hr'; rewrite <- Hid1; by apply Habs'|].
        exists st. split; [by right|]. by rewrite <- Hst1.
    + right. split.
      * eapply run_absent; [exact Hc1|exact Hrun| |exact Habs].
        apply Hsub. destruct Hc as (_ & Hin & _). by apply Hin.
      * exists st. split; [by left|done].
Qed.

(** C5. In every run of the server (handlers that enqueue jobs, clear the
    queue, index a content or delete a document, the worker that polls,
    processes and may panic, the environment), from a start with the worker
    idle: once the status of a job
    is terminal, completed or failed, the job has that same status at every
    later moment at which it exists; it ceases to exist only when a
    [ClearQueue] for its status or for "all" deletes it, and a deleted job
    never comes back. So a job reaches a terminal status at most once. *)
Theorem terminal_status_is_sticky v0 es v es' v' id t :
  started v0 -> run_events es v0 = Some v -> run_events es' v = Some v' ->
  job_status v id = Some t -> terminal t ->
  (job_status v' id = Some t \/ job_status v' id = None) /\
  (job_status v' id = None ->
     exists st, ClearQueue st ∈ es' /\ (st = "all" \/ st = t)) /\
  (forall es'' v'',
     job_status v' id = None -> run_events es'' v' = Some v'' ->
     job_status v'' id = None).
Proof.
  intros Hstart Hrun Hrun' Hst Ht.
  pose proof (run_consistent es v0 v (started_consistent v0 Hstart) Hrun) as Hc.
  pose proof (run_consistent es' v v' Hc Hrun') as Hc'.
  apply job_status_Some in Hst as (r & Hr & <- & <-).
  pose proof (run_sticky es' v v' r Hc Hrun' Hr Ht) as Hsticky.
  split; [|split].
  - destruct Hsticky as [(r' & Hr' & Hid & Hst)|[Habs _]].
    + left. rewrite <- Hid, <- Hst. apply job_status_row; [|done]. by destruct Hc'.
    + right. by apply job_status_None.
  - intros Hnone. destruct Hsticky as [(r' & Hr' & Hid & _)|[_ Hclear]]; [|done].
    by destruct (proj1 (job_status_None v' (j_id r)) Hnone r' Hr').
  - intros es'' v'' Hnone Hrun''. apply job_status_None.
    eapply run_absent; [exact Hc'|exact Hrun''| |by apply job_status_None].
    eapply run_used; [exact Hc|exact Hrun'|]. destruct Hc as (_ & Hin & _). by apply Hin.
Qed.

End queue_steps.

(** ** Claims of the polling worker *)

Section queue_claims.
Context `{GoRuntime} `{Goldie.Embedder} `{Goldie.FileSystem} `{Queue.Json}.
Import Store Queue.

(** A job that has been given out and is not queued is not claimed later. *)
Lemma run_not_claimed es : forall v id,
  consistent v -> id ∈ used v -> not_queued id (jobs_of v) -> id ∉ claimed es v.
Proof.
  induction es as [|e es IH]; intros v id Hc Hid Hq; cbn [claimed].
  - by intros ?%elem_of_nil.
  - destruct (step e v) as [v1|] eqn:Hstep; [|by intros ?%elem_of_nil].
    pose proof (step_table e v v1 Hc Hstep) as (_ & _ & Hsub & _ & _ & Hnq).
    intros [Hnow|Hlater]%elem_of_app.
    + destruct e; try by apply elem_of_nil in Hnow.
      destruct (worker v); try by apply elem_of_nil in Hnow.
      pose proof (GetNextPendingJob_rows (Goldie.store (world v))) as Hrows.
      destruct (GetNextPendingJob (Goldie.store (world v))) as [[[job|]|err] s'];
        cbn in Hnow; try by apply elem_of_nil in Hnow.
      apply list_elem_of_singleton in Hnow as ->.
      destruct Hrows as (row & Hrow & Hst & Hjob & _).
      by apply (Hq row Hrow).
    + revert Hlater. apply IH; [by eapply step_consistent|by apply Hsub|by apply Hnq].
Qed.

(** No job is claimed twice in a run. *)
Lemma claimed_NoDup es : forall v, consistent v -> NoDup (claimed es v).
Proof.
  induction es as [|e es IH]; intros v Hc; cbn [claimed]; [constructor|].
  destruct (step e v) as [v1|] eqn:Hstep; [|constructor].
  pose proof (step_consistent e v v1 Hc Hstep) as Hc1.
  specialize (IH v1 Hc1).
  destruct e; try done. destruct (worker v) eqn:Hw; try done.
  pose proof (step_table Poll v v1 Hc Hstep) as (_ & Hin & _).
  cbn [step] in Hstep. rewrite Hw in Hstep.
  pose proof (GetNextPendingJob_rows (Goldie.store (world v))) as Hrows.
  destruct (GetNextPendingJob (Goldie.store (world v))) as [[[job|]|err] s'];
    cbn; try done.
  destruct Hrows as (row & Hrow & Hst & Hjob & Hrows).
  injection Hstep as <-. apply NoDup_cons. split; [|done].
  apply run_not_claimed; [done| |].
  - rewrite Hjob. replace (j_id row) with (j_id (claim_row (j_id row)
      (clock (Goldie.store (world v))) row)) by by apply updated_id.
    apply Hin; [by destruct Hc as (_ & ? & _)|].
    unfold jobs_of. cbn. rewrite Hrows. by apply list_elem_of_fmap_2.
  - unfold jobs_of. cbn. rewrite Hrows.
    intros r' (r & -> & Hr)%list_elem_of_fmap Hid.
    rewrite updated_id in Hid by done. unfold updated.
    rewrite Hjob in Hid. apply String.eqb_eq in Hid. by rewrite Hid.
Qed.

(** C3. When some job is queued and the database refuses no statement,
    [GetNextPendingJob] returns a queued job than which no queued job has an
    earlier [created_at], with its status set to processing, and the same
    transaction sets the status of that job's row to processing and changes
    no other row. When no job is queued it returns "none" and leaves the
    tables as they were. A call that returns an error has met a refusal and
    leaves the tables as they were. Hence no two calls return the same job
    id: not calls that follow one another, and not the polls of any run of
    the server. *)
Theorem GetNextPendingJob_claims_oldest s :
  let '(r, s') := GetNextPendingJob s in
  (Forall (fun refused => refused = false) (faults s) ->
   ((exists row, row ∈ jobs (tables s) /\ j_status row = JobStatusQueued) ->
      exists row,
        r = Ok (Some (with_status (scan_job row) JobStatusProcessing)) /\
        row ∈ jobs (tables s) /\ j_status row = JobStatusQueued /\
        (forall r', r' ∈ jobs (tables s) -> j_status r' = JobStatusQueued ->
                    j_created_at row <= j_created_at r') /\
        tables s' = with_jobs (tables s)
                      (claim_row (j_id row) (clock s) <$> jobs (tables s))) /\
   ((forall row, row ∈ jobs (tables s) -> j_status row <> JobStatusQueued) ->
      r = Ok None /\ tables s' = tables s)) /\
  (forall e, r = Err e ->
     tables s' = tables s /\ exists i, faults s !! i = Some true) /\
  (forall envs, NoDup (JobID <$> poll envs s)) /\
  (forall v es, started v -> NoDup (claimed es v)).
Proof.
  pose proof (GetNextPendingJob_outcome s) as Hout.
  destruct (GetNextPendingJob s) as [r s']. destruct Hout as [_ Hout].
  split; [|split; [|split]].
  - intros Hfaults.
    assert (Hok : forall e, r <> Err e).
    { intros e ->. destruct Hout as [_ [i Hi]].
      eapply Forall_lookup_1 in Hfaults; [|exact Hi]. done. }
    split.
    + intros (row0 & Hin0 & Hst0). destruct r as [[job|]|e].
      * destruct Hout as (row & Hsel & -> & Hs').
        pose proof (select_oldest_Some _ _ _ Hsel) as (Hin & Hst & Hmin).
        exists row. done.
      * destruct Hout as [Hsel _]. exfalso.
        by eapply (proj1 (select_oldest_None _ _) Hsel row0).
      * by destruct (Hok e).
    + intros Hnone. apply select_oldest_None in Hnone. destruct r as [[job|]|e].
      * destruct Hout as (row & Hsel & _). congruence.
      * by destruct Hout.
      * by destruct (Hok e).
  - by intros e ->.
  - intros envs. apply poll_queued.
  - intros v es Hstart. by apply claimed_NoDup, started_consistent.
Qed.

End queue_claims.

(** C3, witness: two queued jobs, the older inserted second; three calls
    claim the older, then the other, then none. *)
Lemma GetNextPendingJob_claims_oldest_witness :
  let s0 := Store.New None 384 [] 20 in
  let s1 := (Store.CreateJob "b" Store.JobTypeIndexFile "/tmp/b.txt" s0).2 in
  let s2 := Store.apply_op (Store.OpEnvironment [] 10) s1 in
  let s := (Store.CreateJob "a" Store.JobTypeIndexFile "/tmp/a.txt" s2).2 in
  Forall (fun refused => refused = false) (Store.faults s) /\
  (Store.JobID <$> Store.poll [([], 30); ([], 31); ([], 32)] s) = ["a"; "b"] /\
  NoDup (Store.JobID <$> Store.poll [([], 30); ([], 31); ([], 32)] s).
Proof.
  intros s0 s1 s2 s.
  assert (Hf : Forall (fun refused => refused = false) (Store.faults s)) by constructor.
  pose proof (@GetNextPendingJob_claims_oldest ascii_runtime toy_embedder toy_files
                toy_json s) as Hclaim.
  destruct (Store.GetNextPendingJob s) as [r s'].
  exact (conj Hf (conj eq_refl (proj1 (proj2 (proj2 Hclaim)) _))).
Defined.

(** C5, witness: a file job is enqueued, claimed and completed; then a
    second job is enqueued and claimed, the worker panics, a content is
    indexed, the file's document is deleted, and the failed jobs are
    cleared. The first job is completed throughout. *)
Lemma terminal_status_is_sticky_witness :
  let play := Queue.run_events (H := ascii_runtime) (H0 := toy_embedder)
               (H1 := toy_files) (H2 := toy_json) in
  let es := [Queue.EnqueueFile "job-1" "/tmp/a.txt"; Queue.Poll;
             Queue.Call (Store.Ok []) ""; Queue.Call (Store.Ok []) "";
             Queue.Call (Store.Ok []) ""; Queue.Call (Store.Ok []) ""] in
  let es' := [Queue.EnqueueFile "job-2" "/tmp/a.txt"; Queue.Poll;
              Queue.Call (Store.Ok []) ""; Queue.WorkerPanic;
              Queue.IndexContent "a note" None; Queue.DeleteDocuments "a.txt";
              Queue.ClearQueue "failed"; Queue.Poll] in
  let v := default toy_server (play es toy_server) in
  let v' := default v (play es' v) in
  Queue.started toy_server /\ play es toy_server = Some v /\ play es' v = Some v' /\
  Queue.job_status v "job-1" = Some "completed" /\ Queue.terminal "completed" /\
  (Queue.job_status v' "job-1" = Some "completed" \/
   Queue.job_status v' "job-1" = None) /\
  (Queue.job_status v' "job-1" = None ->
     exists st, Queue.ClearQueue st ∈ es' /\ (st = "all" \/ st = "completed")) /\
  (forall es'' v'',
     Queue.job_status v' "job-1" = None -> play es'' v' = Some v'' ->
     Queue.job_status v'' "job-1" = None).
Proof.
  intros play es es' v v'.
  assert (Hstart : Queue.started toy_server).
  { split; [reflexivity|]. split; [constructor|]. intros r Hr. inversion Hr. }
  assert (Hrun : play es toy_server = Some v) by (vm_compute; reflexivity).
  assert (Hrun' : play es' v = Some v') by (vm_compute; reflexivity).
  assert (Hst : Queue.job_status v "job-1" = Some "completed") by (vm_compute; reflexivity).
  assert (Ht : Queue.terminal "completed") by (left; reflexivity).
  exact (conj Hstart (conj Hrun (conj Hrun' (conj Hst (conj Ht
    (@terminal_status_is_sticky ascii_runtime toy_embedder toy_files toy_json
       toy_server es v es' v' "job-1" "completed" Hstart Hrun Hrun' Hst Ht)))))).
Defined.


(** * The store: writing and reading back *)

Section store_round_trips.
Import Store.



(** X3. A successful [DeleteDocument] removes the document and its vector
    and nothing else: [GetDocument] of the id finds nothing, every other
    document and vector is as it was, and [Count] is one less if the
    document existed. Deleting an id that the store does not hold succeeds
    when the database refuses no statement, and leaves both tables as they
    were. *)
Theorem DeleteDocument_GetDocument s id :
  let '(err, s') := DeleteDocument id s in
  (err = None ->
     (GetDocument id s').1 = Ok None /\
     documents_vec (tables s') !! id = None /\
     (forall id', id' <> id ->
        (GetDocument id' s').1 = (GetDocument id' s).1 /\
        documents_vec (tables s') !! id' = documents_vec (tables s) !! id') /\
     exists n n', (Count s).1 = Ok n /\ (Count s').1 = Ok n' /\
       n' = match documents (tables s) !! id with Some _ => n - 1 | None => n end) /\
  (faults s = [] -> err = None) /\
  (documents (tables s) !! id = None -> documents_vec (tables s) !! id = None ->
     documents (tables s') = documents (tables s) /\
     documents_vec (tables s') = documents_vec (tables s)).
Proof.
  pose proof (DeleteDocument_outcome id s) as Hout.
  assert (Hfree : faults s = [] -> (DeleteDocument id s).1 = None).
  { intros Hf. unfold DeleteDocument, Begin, defer_Rollback, tx_Exec, Commit,
      Rollback, next_fault, bind, ret.
    destruct s as [dims t p fs clk]. cbn in Hf. by subst fs. }
  destruct (DeleteDocument id s) as [err s']. destruct Hout as (_ & _ & Hout).
  split; [|split; [done|]].
  - intros ->. unfold GetDocument, Count. rewrite Hout. cbn.
    rewrite !lookup_delete_eq. split; [done|]. split; [done|]. split.
    + intros id' Hne. rewrite !lookup_delete_ne by done. split; [|done].
      by destruct (documents (tables s) !! id').
    + do 2 eexists. split; [done|]. split; [done|].
      destruct (documents (tables s) !! id) as [row|] eqn:Hrow.
      * rewrite map_size_delete_Some by eauto.
        assert (size (documents (tables s)) <> 0%nat); [|lia].
        intros Hz. apply map_size_empty_inv in Hz. rewrite Hz in Hrow.
        by rewrite lookup_empty in Hrow.
      * by rewrite delete_id by done.
  - intros Hdoc Hvec. destruct err as [e|]; [by rewrite Hout|].
    rewrite Hout. cbn. by rewrite !delete_id by done.
Qed.

End store_round_trips.


(** * The store: the job table *)

Section job_round_trips.
Import Store.

Lemma find_job_fresh (l : list JobRow) row id :
  (forall r, r ∈ l -> j_id r <> id) -> j_id row = id ->
  List.find (fun r => String.eqb (j_id r) id) (l ++ [row]) = Some row.
Proof.
  intros Hfresh Hid. induction l as [|x l IH]; cbn.
  - by rewrite Hid, String.eqb_refl.
  - destruct (String.eqb_spec (j_id x) id) as [Heq|_].
    + destruct (Hfresh x); [left|done].
    + apply IH. intros r Hr. apply Hfresh. by right.
Qed.

Lemma find_job_other (l : list JobRow) row id :
  j_id row <> id ->
  List.find (fun r => String.eqb (j_id r) id) (l ++ [row])
    = List.find (fun r => String.eqb (j_id r) id) l.
Proof.
  intros Hne. induction l as [|x l IH]; cbn.
  - by destruct (String.eqb_spec (j_id row) id).
  - by destruct (String.eqb (j_id x) id).
Qed.

Lemma find_job_updated (l : list JobRow) j f id :
  (forall r, j_id (f r) = j_id r) ->
  List.find (fun r => String.eqb (j_id r) id) (updated j f <$> l)
    = updated j f <$> List.find (fun r => String.eqb (j_id r) id) l.
Proof.
  intros Hf. induction l as [|x l IH]; cbn; [done|].
  rewrite updated_id by done. by destruct (String.eqb (j_id x) id).
Qed.

Lemma updated_absent (l : list JobRow) j f :
  (forall r, r ∈ l -> j_id r <> j) -> updated j f <$> l = l.
Proof.
  intros Habs. induction l as [|x l IH]; cbn; [done|].
  rewrite IH by (intros r Hr; apply Habs; by right). unfold updated.
  destruct (String.eqb_spec (j_id x) j) as [Heq|]; [|done].
  destruct (Habs x); [left|done].
Qed.

(** What an insert into [jobs] does. *)
Lemma insert_job_outcome id jobType params parent s :
  let '(err, s') := (do ts <- now; db_Exec (insert_job id jobType params parent ts)) s in
  match err with
  | None =>
      (forall r, r ∈ jobs (tables s) -> j_id r <> id) /\
      tables s' = with_jobs (tables s) (jobs (tables s) ++
        [{| j_id := id; j_type := jobType; j_status := "queued";
            j_params := params; j_result := None; j_error := None;
            j_progress := 0; j_total := 0; j_parent_id := parent;
            j_created_at := clock s; j_updated_at := clock s |}])
  | Some _ => tables s' = tables s
  end /\
  ((exists r, r ∈ jobs (tables s) /\ j_id r = id) -> is_Some err).
Proof.
  unfold now, bind, db_Exec, next_fault, ret, insert_job.
  destruct s as [dims t p fs clk]. cbn.
  assert (Hex : existsb (fun r => String.eqb (j_id r) id) (jobs t) = true <->
                exists r, r ∈ jobs t /\ j_id r = id).
  { rewrite existsb_exists. split; intros (r & Hr & Hid); exists r.
    - split; [by apply list_elem_of_In|by apply String.eqb_eq].
    - split; [by apply list_elem_of_In|by apply String.eqb_eq]. }
  destruct fs as [|[] fs]; cbn.
  - destruct (existsb _ (jobs t)) eqn:Hb; cbn.
    + split; [done|eauto].
    + split; [|intros Hr; apply Hex in Hr; congruence].
      split; [|done]. intros r Hr Hid.
      assert (false = true) by (apply Hex; eauto). done.
  - split; [done|eauto].
  - destruct (existsb _ (jobs t)) eqn:Hb; cbn.
    + split; [done|eauto].
    + split; [|intros Hr; apply Hex in Hr; congruence].
      split; [|done]. intros r Hr Hid.
      assert (false = true) by (apply Hex; eauto). done.
Qed.

(** X4. A job created by [CreateJob] or [CreateJobWithParent] can be read
    back with [GetJob]: it is queued, its counters are 0, it has no result
    and no error, its time stamps are the time of the call, and its parent
    is the one given (none for [CreateJob]); every other job reads as
    before. When a job with the id exists the call returns an error, and a
    call that returns an error leaves the table as it was. *)
Theorem CreateJob_GetJob s id jobType params parentID :
  (let '(err, s') := CreateJob id jobType params s in
   (err = None ->
      (GetJob id s').1
        = Ok (Some {| JobID := id; JobType := jobType; Status := JobStatusQueued;
                      Params := params; Result := ""; Error := ""; Progress := 0;
                      Total := 0; ParentID := ""; JobCreatedAt := clock s;
                      UpdatedAt := clock s |}) /\
      forall id', id' <> id -> (GetJob id' s').1 = (GetJob id' s).1) /\
   (is_Some err -> tables s' = tables s) /\
   ((exists r, r ∈ jobs (tables s) /\ j_id r = id) -> is_Some err)) /\
  (let '(err, s') := CreateJobWithParent id jobType params parentID s in
   (err = None ->
      (GetJob id s').1
        = Ok (Some {| JobID := id; JobType := jobType; Status := JobStatusQueued;
                      Params := params; Result := ""; Error := ""; Progress := 0;
                      Total := 0; ParentID := parentID; JobCreatedAt := clock s;
                      UpdatedAt := clock s |}) /\
      forall id', id' <> id -> (GetJob id' s').1 = (GetJob id' s).1) /\
   (is_Some err -> tables s' = tables s) /\
   ((exists r, r ∈ jobs (tables s) /\ j_id r = id) -> is_Some err)).
Proof.
  split.
  - pose proof (insert_job_outcome id jobType params None s) as Hout.
    unfold CreateJob. unfold bind at 1. unfold bind at 1 in Hout.
    destruct (now s) as [ts s0]. unfold bind at 1. cbn beta in Hout.
    destruct (db_Exec _ s0) as [[e|] s']; destruct Hout as [Hout Hdup]; cbn.
    + split; [done|]. split; [done|]. intros Hex. apply Hdup in Hex. eauto.
    + destruct Hout as [Hfresh Ht]. split; [|split; [by intros [? ?]|done]].
      intros _. unfold GetJob. rewrite Ht. cbn. split.
      * by rewrite find_job_fresh.
      * intros id' Hne. by rewrite find_job_other.
  - pose proof (insert_job_outcome id jobType params (Some parentID) s) as Hout.
    unfold CreateJobWithParent. unfold bind at 1. unfold bind at 1 in Hout.
    destruct (now s) as [ts s0]. unfold bind at 1. cbn beta in Hout.
    destruct (db_Exec _ s0) as [[e|] s']; destruct Hout as [Hout Hdup]; cbn.
    + split; [done|]. split; [done|]. intros Hex. apply Hdup in Hex. eauto.
    + destruct Hout as [Hfresh Ht]. split; [|split; [by intros [? ?]|done]].
      intros _. unfold GetJob. rewrite Ht. cbn. split.
      * by rewrite find_job_fresh.
      * intros id' Hne. by rewrite find_job_other.
Qed.

(** What an update of [jobs] does. *)
Lemma update_job_outcome id f s :
  let '(err, s') := (do ts <- now; db_Exec (update_job id (f ts))) s in
  match err with
  | None => tables s' = with_jobs (tables s) (updated id (f (clock s)) <$> jobs (tables s))
  | Some _ => tables s' = tables s
  end /\
  (faults s = [] -> err = None).
Proof.
  unfold now, bind, db_Exec, next_fault, ret, update_job.
  destruct s as [dims t p fs clk]. cbn. by destruct fs as [|[] fs].
Qed.

(** X5. Updating a job that the table does not hold is no error and
    changes nothing: [UpdateJobStatus], [UpdateJobProgress],
    [UpdateJobResult] and [UpdateJobError] on an id without a row leave the
    tables as they were, and return no error when the database refuses no
    statement. *)
Theorem UpdateJob_unknown_id s id status progress total res errMsg :
  (forall r, r ∈ jobs (tables s) -> j_id r <> id) ->
  Forall (fun call : M (option error) =>
            tables (call s).2 = tables s /\ (faults s = [] -> (call s).1 = None))
    [UpdateJobStatus id status; UpdateJobProgress id progress total;
     UpdateJobResult id res; UpdateJobError id errMsg].
Proof.
  intros Habs.
  assert (Hall : forall f,
    let call := (do ts <- now; db_Exec (update_job id (f ts))) in
    tables (call s).2 = tables s /\ (faults s = [] -> (call s).1 = None)).
  { intros f. cbn zeta. pose proof (update_job_outcome id f s) as Hout.
    destruct ((do ts <- now; db_Exec (update_job id (f ts))) s) as [[e|] s'];
      destruct Hout as [Ht Hf]; cbn; (split; [|done]); [done|].
    rewrite Ht, updated_absent by done. by destruct (tables s). }
  repeat first [apply Forall_nil_2|apply Forall_cons_2].
  - apply (Hall (fun ts => set_status status ts)).
  - apply (Hall (fun ts => set_progress progress total ts)).
  - apply (Hall (fun ts => set_result res ts)).
  - apply (Hall (fun ts => set_error errMsg ts)).
Qed.

(** X6. The updates of a job can be read back. After a successful
    [UpdateJobResult] the job is completed and carries the result; after a
    successful [UpdateJobError] it is failed and carries the message; after a
    successful [UpdateJobProgress] it has the new counters and its old
    status. Each sets [updated_at] to the time of the call, keeps the other
    fields, and leaves every other job as it was. *)
Theorem UpdateJob_GetJob s id job :
  (GetJob id s).1 = Ok (Some job) ->
  (forall res s', UpdateJobResult id res s = (None, s') ->
     (GetJob id s').1
       = Ok (Some {| JobID := JobID job; JobType := JobType job;
                     Status := JobStatusCompleted; Params := Params job;
                     Result := res; Error := Error job; Progress := Progress job;
                     Total := Total job; ParentID := ParentID job;
                     JobCreatedAt := JobCreatedAt job; UpdatedAt := clock s |}) /\
     forall id', id' <> id -> (GetJob id' s').1 = (GetJob id' s).1) /\
  (forall errMsg s', UpdateJobError id errMsg s = (None, s') ->
     (GetJob id s').1
       = Ok (Some {| JobID := JobID job; JobType := JobType job;
                     Status := JobStatusFailed; Params := Params job;
                     Result := Result job; Error := errMsg; Progress := Progress job;
                     Total := Total job; ParentID := ParentID job;
                     JobCreatedAt := JobCreatedAt job; UpdatedAt := clock s |}) /\
     forall id', id' <> id -> (GetJob id' s').1 = (GetJob id' s).1) /\
  (forall progress total s', UpdateJobProgress id progress total s = (None, s') ->
     (GetJob id s').1
       = Ok (Some {| JobID := JobID job; JobType := JobType job;
                     Status := Status job; Params := Params job;
                     Result := Result job; Error := Error job; Progress := progress;
                     Total := total; ParentID := ParentID job;
                     JobCreatedAt := JobCreatedAt job; UpdatedAt := clock s |}) /\
     forall id', id' <> id -> (GetJob id' s').1 = (GetJob id' s).1).
Proof.
  unfold GetJob. cbn. intros Hjob.
  destruct (List.find _ (jobs (tables s))) as [row|] eqn:Hrow; [|done].
  injection Hjob as <-.
  pose proof (find_some _ _ Hrow) as [_ Hid]. apply String.eqb_eq in Hid.
  assert (Hread : forall f s',
    (forall ts r, j_id (f ts r) = j_id r) ->
    (do ts <- now; db_Exec (update_job id (f ts))) s = (None, s') ->
    List.find (fun r => String.eqb (j_id r) id) (jobs (tables s'))
      = Some (f (clock s) row) /\
    forall id', id' <> id ->
      List.find (fun r => String.eqb (j_id r) id') (jobs (tables s'))
        = List.find (fun r => String.eqb (j_id r) id') (jobs (tables s))).
  { intros f s' Hf Hrun. pose proof (update_job_outcome id f s) as Hout.
    rewrite Hrun in Hout. destruct Hout as [-> _]. cbn. split.
    - rewrite find_job_updated, Hrow by done. cbn. unfold updated.
      by rewrite Hid, String.eqb_refl.
    - intros id' Hne. rewrite find_job_updated by done.
      destruct (List.find (fun r => String.eqb (j_id r) id') (jobs (tables s)))
        as [r|] eqn:Hr; [|done]. cbn.
      pose proof (find_some _ _ Hr) as [_ Hid']. apply String.eqb_eq in Hid'.
      unfold updated. destruct (String.eqb_spec (j_id r) id); [congruence|done]. }
  split; [|split].
  - intros res s' Hrun.
    destruct (Hread (fun ts => set_result res ts) s' ltac:(done) Hrun) as [-> Hother].
    split; [done|]. intros id' Hne. by rewrite Hother.
  - intros errMsg s' Hrun.
    destruct (Hread (fun ts => set_error errMsg ts) s' ltac:(done) Hrun) as [-> Hother].
    split; [done|]. intros id' Hne. by rewrite Hother.
  - intros progress total s' Hrun.
    destruct (Hread (fun ts => set_progress progress total ts) s' ltac:(done) Hrun)
      as [-> Hother].
    split; [done|]. intros id' Hne. by rewrite Hother.
Qed.

Lemma length_filter_split {A} (P : A -> Prop) `{!forall x, Decision (P x)} (l : list A) :
  length l = (length (filter P l) + length (filter (fun x => ~ P x) l))%nat.
Proof.
  induction l as [|x l IH]; [done|]. rewrite !filter_cons.
  destruct (decide (P x)); destruct (decide (~ P x)); cbn; try lia; tauto.
Qed.

(** X7. [DeleteJobs] removes the jobs with the given status, or every job
    for "all", and nothing else: the jobs that remain are the others, in
    their order, the number returned is the number of jobs removed, and the
    documents are untouched. A call that returns an error removes nothing. *)
Theorem DeleteJobs_removes_status status s :
  let '(r, s') := DeleteJobs status s in
  match r with
  | Ok n =>
      jobs (tables s')
        = (if String.eqb status "all" then []
           else filter (fun r => j_status r <> status) (jobs (tables s))) /\
      n = (if String.eqb status "all" then Z.of_nat (length (jobs (tables s)))
           else count_status status (jobs (tables s))) /\
      Z.of_nat (length (jobs (tables s'))) = Z.of_nat (length (jobs (tables s))) - n
  | Err _ => jobs (tables s') = jobs (tables s)
  end /\
  documents (tables s') = documents (tables s) /\
  documents_vec (tables s') = documents_vec (tables s).
Proof.
  unfold DeleteJobs, db_Exec, bind, next_fault, ret, delete_jobs, count_status.
  destruct s as [dims t p fs clk]. cbn.
  pose proof (length_filter_split (fun r => j_status r = status) (jobs t)) as Hlen.
  destruct fs as [|[] fs]; cbn; try done;
    destruct (String.eqb status "all"); cbn; (split; [|done]);
    (split; [done|]); split; lia.
Qed.

(** X8. [ListJobs] returns the jobs with the given status (every job for
    the empty status), each once, newest first, and changes nothing. *)
Theorem ListJobs_sorted status s :
  let '(r, s') := ListJobs status s in
  s' = s /\
  exists js, r = Ok js /\
    js ≡ₚ scan_job <$> (if String.eqb status "" then jobs (tables s)
                        else filter (fun r => j_status r = status) (jobs (tables s))) /\
    StronglySorted (fun a b => JobCreatedAt b <= JobCreatedAt a) js /\
    (status <> "" -> Forall (fun j => Status j = status) js).
Proof.
  unfold ListJobs. split; [done|]. eexists. split; [done|].
  set (rows := if String.eqb status "" then jobs (tables s) else _).
  assert (Htrans : Transitive newer_job) by (intros a b c; unfold newer_job; lia).
  assert (Htotal : base.Total newer_job) by (intros a b; unfold newer_job; lia).
  split; [by rewrite merge_sort_Permutation|]. split.
  - apply (StronglySorted_fmap _ newer_job); [done|].
    by apply StronglySorted_merge_sort.
  - intros Hne. apply Forall_fmap, Forall_forall. intros r Hr.
    rewrite merge_sort_Permutation in Hr. subst rows.
    destruct (String.eqb_spec status ""); [done|].
    by apply list_elem_of_filter in Hr as [? _].
Qed.

End job_round_trips.

(** * The store: listings *)

Section store_listings.
Import Store.

(** X9. [ListDocuments] returns every document of the store once, as
    [GetDocument] returns it, newest first; their number is [Count]; the
    store is unchanged. *)
Theorem ListDocuments_sorted s :
  let '(r, s') := ListDocuments s in
  s' = s /\
  exists docs, r = Ok docs /\
    (forall d, d ∈ docs <-> (GetDocument (ID d) s).1 = Ok (Some d)) /\
    NoDup (ID <$> docs) /\
    (Count s).1 = Ok (Z.of_nat (length docs)) /\
    StronglySorted (fun a b => CreatedAt b <= CreatedAt a) docs.
Proof.
  unfold ListDocuments. split; [done|]. eexists. split; [done|].
  set (m := documents (tables s)).
  set (l := (fun kv : string * DocRow => document_of kv.1 kv.2) <$> map_to_list m).
  assert (Hperm : merge_sort newer_document l ≡ₚ l) by apply merge_sort_Permutation.
  assert (Htrans : Transitive newer_document)
    by (intros a b c; unfold newer_document; lia).
  assert (Htotal : base.Total newer_document)
    by (intros a b; unfold newer_document; lia).
  split; [|split; [|split]].
  - intros d. rewrite Hperm. subst l. rewrite list_elem_of_fmap.
    unfold GetDocument. fold m. split.
    + intros ([id row] & -> & Hin). apply elem_of_map_to_list in Hin. cbn.
      by rewrite Hin.
    + intros Hget. destruct (m !! ID d) as [row|] eqn:Hrow; [|done].
      cbn in Hget. injection Hget as <-. exists (ID d, row).
      split; [by destruct d|]. by apply elem_of_map_to_list.
  - rewrite Hperm. subst l. rewrite <- list_fmap_compose.
    apply (NoDup_fst_map_to_list m).
  - unfold Count. cbn. rewrite Hperm. subst l.
    by rewrite length_fmap, length_map_to_list.
  - by apply StronglySorted_merge_sort.
Qed.

End store_listings.

(** * The store: the order of the claims *)

Section claim_order.
Import Store.

(** Every job that later calls return is, at the time of an earlier call,
    a queued row with the same creation time. *)
Lemma poll_from_queued envs : forall s j,
  j ∈ poll envs s ->
  exists row, row ∈ jobs (tables s) /\ j_status row = JobStatusQueued /\
    JobCreatedAt j = j_created_at row.
Proof.
  induction envs as [|[refusals time] envs IH]; intros s j; cbn [poll].
  - by intros ?%elem_of_nil.
  - set (s0 := apply_op (OpEnvironment refusals time) s).
    assert (Ht : tables s0 = tables s) by done.
    pose proof (GetNextPendingJob_outcome s0) as Hout.
    destruct (GetNextPendingJob s0) as [[[job|]|e] s']; destruct Hout as [_ Hout].
    + destruct Hout as (row & Hsel & -> & Hs').
      apply select_oldest_Some in Hsel as (Hrow & Hst & _).
      intros [->|Hj]%elem_of_cons.
      * exists row. by rewrite <- Ht.
      * apply IH in Hj as (r' & Hin & Hq & Hc). rewrite Hs' in Hin. cbn in Hin.
        apply list_elem_of_fmap in Hin as (r & -> & Hin).
        unfold claim_row, updated in *.
        destruct (String.eqb (j_id r) (j_id row)); [done|].
        exists r. by rewrite <- Ht.
    + destruct Hout as [_ Hs']. intros Hj.
      apply IH in Hj as (r & Hin & Hq & Hc). exists r. by rewrite <- Ht, <- Hs'.
    + destruct Hout as [Hs' _]. intros Hj.
      apply IH in Hj as (r & Hin & Hq & Hc). exists r. by rewrite <- Ht, <- Hs'.
Qed.

(** X11. Queued jobs are claimed oldest first: of the jobs that successive
    calls of [GetNextPendingJob] return, with no job created in between,
    each was created no later than every job returned after it. Refused
    statements and the passing of time in between do not change the
    order. *)
Theorem GetNextPendingJob_in_creation_order envs s :
  StronglySorted (fun a b => JobCreatedAt a <= JobCreatedAt b) (poll envs s).
Proof.
  revert s. induction envs as [|[refusals time] envs IH]; intros s; cbn [poll].
  - constructor.
  - set (s0 := apply_op (OpEnvironment refusals time) s).
    pose proof (GetNextPendingJob_outcome s0) as Hout.
    destruct (GetNextPendingJob s0) as [[[job|]|e] s']; destruct Hout as [_ Hout];
      [|apply IH..].
    destruct Hout as (row & Hsel & -> & Hs').
    apply select_oldest_Some in Hsel as (Hrow & Hst & Hmin).
    constructor; [apply IH|]. apply Forall_forall. intros j Hj.
    apply poll_from_queued in Hj as (r' & Hin & Hq & ->). rewrite Hs' in Hin.
    cbn in Hin. apply list_elem_of_fmap in Hin as (r & -> & Hin).
    unfold claim_row, updated in *.
    destruct (String.eqb (j_id r) (j_id row)); [done|]. cbn. by apply Hmin.
Qed.

End claim_order.

(** * The store: the statistics of child jobs *)

Section child_stats.
Import Store.

Lemma count_status_cons st x (l : list JobRow) :
  count_status st (x :: l)
    = count_status st l + (if decide (j_status x = st) then 1 else 0).
Proof.
  unfold count_status. rewrite filter_cons.
  destruct (decide (j_status x = st)); cbn [length]; lia.
Qed.

Lemma count_status_nonneg st l : 0 <= count_status st l.
Proof. unfold count_status. lia. Qed.

Lemma sum_counts_cons x (l : list JobRow) sts :
  NoDup sts ->
  foldr (fun st acc => count_status st (x :: l) + acc) 0 sts
    = foldr (fun st acc => count_status st l + acc) 0 sts
      + (if decide (j_status x ∈ sts) then 1 else 0).
Proof.
  induction 1 as [|st sts Hnotin Hnd IH]; cbn [foldr].
  - destruct (decide (j_status x ∈ [])) as [Hin|]; [by apply elem_of_nil in Hin|lia].
  - rewrite IH, count_status_cons.
    destruct (decide (j_status x = st)) as [->|Hne].
    + destruct (decide (st ∈ sts)); [done|].
      destruct (decide (st ∈ st :: sts)) as [|Hout]; [lia|].
      destruct Hout. left.
    + destruct (decide (j_status x ∈ sts)) as [Hin|Hout].
      * destruct (decide (j_status x ∈ st :: sts)) as [|Hout]; [lia|].
        destruct Hout. by right.
      * destruct (decide (j_status x ∈ st :: sts)) as [Hin|]; [|lia].
        apply elem_of_cons in Hin as [?|?]; done.
Qed.

(** Counting status by status counts every row with one of the statuses. *)
Lemma sum_counts (l : list JobRow) sts :
  NoDup sts ->
  foldr (fun st acc => count_status st l + acc) 0 sts
    = Z.of_nat (length (filter (fun r => j_status r ∈ sts) l)).
Proof.
  intros Hnd. induction l as [|x l IH].
  - cbn. induction sts as [|st sts IHs]; cbn; [done|].
    rewrite IHs by by apply NoDup_cons in Hnd as [_ ?]. done.
  - rewrite sum_counts_cons, IH, filter_cons by done.
    destruct (decide (j_status x ∈ sts)); cbn [length]; lia.
Qed.

(** The loop of [GetChildJobStats] over groups of distinct statuses. *)
Lemma add_groups (l : list JobRow) sts : forall acc,
  NoDup sts ->
  0 <= ChildJobStats.Total acc ->
  ChildJobStats.Total acc + foldr (fun st a => count_status st l + a) 0 sts
    <= GoInt.max_int ->
  let res := foldl add_group acc ((fun st => (st, count_status st l)) <$> sts) in
  ChildJobStats.Total res
    = ChildJobStats.Total acc + foldr (fun st a => count_status st l + a) 0 sts /\
  ChildJobStats.Queued res
    = (if decide (JobStatusQueued ∈ sts) then count_status JobStatusQueued l
       else ChildJobStats.Queued acc) /\
  ChildJobStats.Processing res
    = (if decide (JobStatusProcessing ∈ sts) then count_status JobStatusProcessing l
       else ChildJobStats.Processing acc) /\
  ChildJobStats.Completed res
    = (if decide (JobStatusCompleted ∈ sts) then count_status JobStatusCompleted l
       else ChildJobStats.Completed acc) /\
  ChildJobStats.Failed res
    = (if decide (JobStatusFailed ∈ sts) then count_status JobStatusFailed l
       else ChildJobStats.Failed acc).
Proof.
  induction sts as [|st sts IH]; intros acc Hnd H0 Hmax; cbn [fmap list_fmap foldl foldr] in *.
  - cbn. repeat split; try lia; by rewrite decide_False by apply not_elem_of_nil.
  - apply NoDup_cons in Hnd as [Hnotin Hnd].
    pose proof (count_status_nonneg st l) as Hc.
    assert (Hsum : 0 <= foldr (fun st a => count_status st l + a) 0 sts).
    { rewrite sum_counts by done. lia. }
    assert (Hadd : GoInt.add (ChildJobStats.Total acc) (count_status st l)
                   = ChildJobStats.Total acc + count_status st l).
    { apply wrap_small. unfold GoInt.in_range, GoInt.min_int, GoInt.max_int in *. lia. }
    assert (Htot : ChildJobStats.Total (add_group acc (st, count_status st l))
                   = ChildJobStats.Total acc + count_status st l).
    { unfold add_group. rewrite Hadd.
      by repeat match goal with |- context [if ?b then _ else _] => destruct b end. }
    specialize (IH (add_group acc (st, count_status st l)) Hnd
                  ltac:(rewrite Htot; lia) ltac:(rewrite Htot; lia)).
    cbn zeta in IH. destruct IH as (-> & -> & -> & -> & ->). rewrite Htot.
    split; [lia|].
    unfold add_group.
    repeat split.
    + destruct (decide (JobStatusQueued ∈ sts)) as [Hin|Hout].
      * rewrite decide_True by by right. done.
      * destruct (String.eqb_spec st JobStatusQueued) as [->|Hne].
        -- rewrite decide_True by left. done.
        -- rewrite decide_False by (intros [?|?]%elem_of_cons; done).
           by repeat match goal with |- context [if ?b then _ else _] => destruct b end.
    + destruct (decide (JobStatusProcessing ∈ sts)) as [Hin|Hout].
      * rewrite decide_True by by right. done.
      * destruct (String.eqb_spec st JobStatusProcessing) as [->|Hne].
        -- rewrite decide_True by left. done.
        -- rewrite decide_False by (intros [?|?]%elem_of_cons; done).
           destruct (String.eqb st JobStatusQueued); [done|].
           by repeat match goal with |- context [if ?b then _ else _] => destruct b end.
    + destruct (decide (JobStatusCompleted ∈ sts)) as [Hin|Hout].
      * rewrite decide_True by by right. done.
      * destruct (String.eqb_spec st JobStatusCompleted) as [->|Hne].
        -- rewrite decide_True by left. done.
        -- rewrite decide_False by (intros [?|?]%elem_of_cons; done).
           destruct (String.eqb st JobStatusQueued); [done|].
           destruct (String.eqb st JobStatusProcessing); [done|].
           by repeat match goal with |- context [if ?b then _ else _] => destruct b end.
    + destruct (decide (JobStatusFailed ∈ sts)) as [Hin|Hout].
      * rewrite decide_True by by right. done.
      * destruct (String.eqb_spec st JobStatusFailed) as [->|Hne].
        -- rewrite decide_True by left. done.
        -- rewrite decide_False by (intros [?|?]%elem_of_cons; done).
           destruct (String.eqb st JobStatusQueued); [done|].
           destruct (String.eqb st JobStatusProcessing); [done|].
           destruct (String.eqb st JobStatusCompleted); [done|].
           by repeat match goal with |- context [if ?b then _ else _] => destruct b end.
Qed.

Lemma filter_all {A} (P : A -> Prop) `{!forall x, Decision (P x)} (l : list A) :
  Forall P l -> filter P l = l.
Proof.
  induction 1 as [|x l Hx _ IH]; [done|]. rewrite filter_cons.
  by rewrite decide_True, IH by done.
Qed.

Lemma filter_none {A} (P : A -> Prop) `{!forall x, Decision (P x)} (l : list A) :
  Forall (fun x => ~ P x) l -> filter P l = [].
Proof.
  induction 1 as [|x l Hx _ IH]; [done|]. rewrite filter_cons.
  by rewrite decide_False, IH by done.
Qed.

Lemma count_status_absent q (l : list JobRow) :
  q ∉ j_status <$> l -> count_status q l = 0.
Proof.
  intros Hout. unfold count_status.
  rewrite (filter_none (fun r => j_status r = q)); [done|].
  apply Forall_forall. intros r Hr Hq. apply Hout, list_elem_of_fmap. eauto.
Qed.

(** X10. [GetChildJobStats] counts the children of a job, the jobs whose
    parent is the given id: [Total] is their number, and [Queued],
    [Processing], [Completed] and [Failed] are the numbers of children with
    these statuses, so the four together never exceed [Total] and equal it
    when every child has one of the four statuses. The store is unchanged.
    (The job table holds fewer than 2^63 rows.) *)
Theorem GetChildJobStats_counts parentID s :
  Z.of_nat (length (jobs (tables s))) <= GoInt.max_int ->
  let '(r, s') := GetChildJobStats parentID s in
  s' = s /\
  exists stats, r = Ok stats /\
    let cs := children parentID (tables s) in
    ChildJobStats.Total stats = Z.of_nat (length cs) /\
    ChildJobStats.Queued stats = count_status JobStatusQueued cs /\
    ChildJobStats.Processing stats = count_status JobStatusProcessing cs /\
    ChildJobStats.Completed stats = count_status JobStatusCompleted cs /\
    ChildJobStats.Failed stats = count_status JobStatusFailed cs /\
    ChildJobStats.Queued stats + ChildJobStats.Processing stats
      + ChildJobStats.Completed stats + ChildJobStats.Failed stats
      <= ChildJobStats.Total stats /\
    (Forall (fun r => j_status r ∈ [JobStatusQueued; JobStatusProcessing;
                                    JobStatusCompleted; JobStatusFailed]) cs ->
     ChildJobStats.Queued stats + ChildJobStats.Processing stats
       + ChildJobStats.Completed stats + ChildJobStats.Failed stats
       = ChildJobStats.Total stats).
Proof.
  intros Hmax. unfold GetChildJobStats. split; [done|]. eexists. split; [done|].
  cbn zeta. set (cs := children parentID (tables s)).
  set (sts := remove_dups (j_status <$> cs)).
  change (child_groups parentID (tables s))
    with ((fun st => (st, count_status st cs)) <$> sts).
  assert (Hnd : NoDup sts) by apply NoDup_remove_dups.
  assert (Hlen : Z.of_nat (length cs) <= GoInt.max_int).
  { pose proof (length_filter (fun r => j_parent_id r = Some parentID)
                  (jobs (tables s))). unfold cs, children. lia. }
  assert (Hall : foldr (fun st a => count_status st cs + a) 0 sts
                 = Z.of_nat (length cs)).
  { rewrite sum_counts by done.
    rewrite (filter_all (fun r => j_status r ∈ sts)); [done|].
    apply Forall_forall. intros r Hr. apply elem_of_remove_dups, list_elem_of_fmap.
    eauto. }
  destruct (add_groups cs sts
              {| ChildJobStats.Total := 0; ChildJobStats.Queued := 0;
                 ChildJobStats.Processing := 0; ChildJobStats.Completed := 0;
                 ChildJobStats.Failed := 0 |} Hnd ltac:(done)
              ltac:(cbn; rewrite Hall; lia)) as (Ht & Hq & Hp & Hc & Hf).
  cbn [ChildJobStats.Total ChildJobStats.Queued ChildJobStats.Processing
       ChildJobStats.Completed ChildJobStats.Failed] in *.
  assert (Hcount : forall q,
    (if decide (q ∈ sts) then count_status q cs else 0) = count_status q cs).
  { intros q. destruct (decide (q ∈ sts)) as [|Hout]; [done|].
    symmetry. apply count_status_absent. intros Hin. apply Hout.
    by apply elem_of_remove_dups. }
  rewrite Hcount in Hq, Hp, Hc, Hf. rewrite Ht, Hq, Hp, Hc, Hf, Hall.
  split; [lia|]. do 4 (split; [done|]).
  assert (Hfour : NoDup [JobStatusQueued; JobStatusProcessing;
                         JobStatusCompleted; JobStatusFailed]).
  { apply (bool_decide_unpack _). by vm_compute. }
  pose proof (sum_counts cs _ Hfour) as Hsum. cbn [foldr] in Hsum.
  split.
  - pose proof (length_filter (fun r => j_status r ∈ [JobStatusQueued;
      JobStatusProcessing; JobStatusCompleted; JobStatusFailed]) cs). lia.
  - intros Hstatuses.
    rewrite (filter_all (fun r => j_status r ∈ [JobStatusQueued;
      JobStatusProcessing; JobStatusCompleted; JobStatusFailed])) in Hsum by done.
    lia.
Qed.

End child_stats.

(** * The chunker: what the chunks are *)

Section chunk_windows.
Context `{GoRuntime}.
Import GoString Goldie.

Lemma chunk_loop_nonempty r text fuel : forall c cs,
  Forall (fun ch => 0 < len ch) (chunks c) ->
  chunk_loop fuel r text c = Done cs -> Forall (fun ch => 0 < len ch) cs.
Proof.
  induction fuel as [|fuel IH]; intros c cs Hall; [done|]. simpl.
  destruct (chunk_step r text c) as [cs'|c'|] eqn:Hstep; [| |done].
  - intros [= <-]. revert Hstep. unfold chunk_step.
    destruct (start c <? len text); simpl; [|by intros [= <-]].
    destruct (start c =? prevStart c); [by intros [= <-]|].
    destruct (chunk_end r text (start c)) as [e|]; [|done].
    destruct (slice text (start c) e) as [w|]; [|done].
    destruct (Z.gtb_spec (len (TrimSpace w)) 0).
    + destruct (_ >? 10000); [|done]. intros [= <-].
      apply Forall_app. split; [done|]. by repeat constructor.
    + destruct (_ >? 10000); [|done]. by intros [= <-].
  - apply IH. apply chunk_step_Next in Hstep as (e & w & _ & _ & _ & _ & _ & _ & -> & _).
    destruct (Z.gtb_spec (len (TrimSpace w)) 0); [|done].
    apply Forall_app. split; [done|]. by repeat constructor.
Qed.

(** X12. For a text longer than the chunk size (sizes within 2^62, and
    given that trimming does not lengthen a string) the chunks that
    [chunkText] returns are at most 10 001, each is non-empty and at most
    a chunk size long, and they are trimmed slices of the text taken at
    strictly increasing offsets. *)
Theorem chunkText_chunks r text cs :
  bounded r text -> (forall s, len (TrimSpace s) <= len s) ->
  chunkSize r < len text -> chunkText r text = Done cs ->
  Z.of_nat (length cs) <= 10001 /\
  Forall (fun ch => 0 < len ch <= chunkSize r) cs /\
  exists b, windows text cs b.
Proof.
  intros Hb Htrim Hlong Hrun.
  destruct (chunkText_sizes r text cs Hb Htrim Hrun) as [Hn Hsize].
  split; [done|]. split; [|by eapply chunkText_in_order].
  assert (Hne : Forall (fun ch => 0 < len ch) cs).
  { revert Hrun. unfold chunkText.
    destruct (Z.leb_spec (len text) (chunkSize r)); [lia|].
    by apply chunk_loop_nonempty. }
  apply Forall_forall. intros ch Hch.
  rewrite Forall_forall in Hsize, Hne. split; [by apply Hne|by apply Hsize].
Qed.

Lemma window_chunks_snoc text spans a e w :
  slice text a e = Some w ->
  window_chunks text (spans ++ [(a, e)])
    = if len (TrimSpace w) >? 0 then window_chunks text spans ++ [TrimSpace w]
      else window_chunks text spans.
Proof.
  intros Hw. unfold window_chunks. rewrite fmap_app, filter_app. cbn.
  rewrite Hw. cbn.
  destruct (Z.gtb_spec (len (TrimSpace w)) 0).
  - by rewrite decide_True by lia.
  - rewrite decide_False by lia. by rewrite app_nil_r.
Qed.

(** The loop of [chunkText] with the windows it has taken so far: they reach
    [u] without a gap. *)
Lemma chunk_loop_cover r text fuel : forall c cs spans u,
  bounded r text -> 0 <= chunkOverlap r < chunkSize r ->
  chunks c = window_chunks text spans ->
  Forall (fun span : Z * Z =>
            0 <= span.1 < span.2 /\ span.2 <= len text /\
            span.2 - span.1 <= chunkSize r /\ span.1 <= prevStart c) spans ->
  StronglySorted (fun a b : Z * Z => a.1 < b.1) spans ->
  (forall p, 0 <= p < u -> Exists (fun span : Z * Z => span.1 <= p < span.2) spans) ->
  0 <= start c <= u -> u <= len text -> (len text <= start c -> u = len text) ->
  prevStart c < start c ->
  chunk_loop fuel r text c = Done cs ->
  Z.of_nat (length cs) <= 10000 ->
  exists spans',
    cs = window_chunks text spans' /\
    Forall (fun span : Z * Z =>
              0 <= span.1 < span.2 /\ span.2 <= len text /\
              span.2 - span.1 <= chunkSize r) spans' /\
    StronglySorted (fun a b : Z * Z => a.1 < b.1) spans' /\
    forall p, 0 <= p < len text ->
      Exists (fun span : Z * Z => span.1 <= p < span.2) spans'.
Proof.
  induction fuel as [|fuel IH];
    intros c cs spans u Hb HO Hcs Hok Hsorted Hcover Hstart Hu Hend Hprev; [done|].
  simpl. destruct (chunk_step r text c) as [cs'|c'|] eqn:Hstep; [| |done].
  - intros [= <-] Hcap. revert Hstep. unfold chunk_step.
    destruct (Z.ltb_spec (start c) (len text)) as [Hlt|Hge]; simpl.
    + destruct (Z.eqb_spec (start c) (prevStart c)); [lia|].
      destruct (chunk_end r text (start c)) as [e|]; [|done].
      destruct (slice text (start c) e) as [w|]; [|done].
      destruct (Z.gtb_spec (Z.of_nat (length
        (if len (TrimSpace w) >? 0 then chunks c ++ [TrimSpace w] else chunks c))) 10000);
        [|done].
      intros [= <-]. lia.
    + intros [= <-]. exists spans. split; [done|]. split.
      * eapply Forall_impl; [exact Hok|]. cbn. intros span. tauto.
      * split; [done|]. intros p Hp. apply Hcover. rewrite Hend by done. done.
  - intros Hrun Hcap.
    pose proof (chunk_step_progress r text c c' Hb ltac:(lia) Hstep) as (e0 & He0 & Hfwd & Hc').
    apply chunk_step_Next in Hstep as (e & w & Hlt & Hne & He & Hw & Hadv & Hp & Hch & _).
    rewrite He in He0. injection He0 as <-.
    destruct (chunk_end_slice _ _ _ _ _ He Hw) as (H0 & Hse & Hel).
    assert (Hwidth : e <= start c + chunkSize r)
      by (eapply chunk_end_width; eauto; lia).
    assert (Hpos : start c < e) by (eapply chunk_end_forward; eauto; lia).
    assert (Hnext : start c' <= e).
    { rewrite Hc'. destruct (e - chunkOverlap r <=? start c); lia. }
    apply (IH c' cs (spans ++ [(start c, e)]) (Z.max u e)); auto.
    + rewrite Hch, Hcs. symmetry. by apply window_chunks_snoc.
    + apply Forall_app. split.
      * eapply Forall_impl; [exact Hok|]. cbn. intros span. lia.
      * constructor; [|done]. cbn. lia.
    + apply StronglySorted_app_2; [|done|by repeat constructor].
      intros a b Ha Hb0. apply list_elem_of_singleton in Hb0 as ->. cbn.
      rewrite Forall_forall in Hok. specialize (Hok a Ha). lia.
    + intros p Hpu. apply Exists_app.
      destruct (Z.lt_ge_cases p u); [left; apply Hcover; lia|].
      right. constructor. cbn. lia.
    + lia.
    + lia.
    + lia.
    + lia.
Qed.

(** X13. [chunkText] drops no part of the text: for a text longer than the
    chunk size S, with overlap O such that 0 <= O < S (sizes within 2^62),
    when the cap on the number of chunks is not reached, the chunks returned
    are the non-empty trimmed slices of windows of the text that start at
    strictly increasing offsets, are each between 1 and S bytes wide, and
    together hold every byte of the text. *)
Theorem chunkText_covers r text cs :
  bounded r text -> 0 <= chunkOverlap r < chunkSize r ->
  chunkSize r < len text -> chunkText r text = Done cs ->
  Z.of_nat (length cs) <= 10000 ->
  exists spans,
    cs = window_chunks text spans /\
    Forall (fun span : Z * Z =>
              0 <= span.1 < span.2 /\ span.2 <= len text /\
              span.2 - span.1 <= chunkSize r) spans /\
    StronglySorted (fun a b : Z * Z => a.1 < b.1) spans /\
    forall p, 0 <= p < len text ->
      Exists (fun span : Z * Z => span.1 <= p < span.2) spans.
Proof.
  intros Hb HO Hlong. unfold chunkText.
  destruct (Z.leb_spec (len text) (chunkSize r)); [lia|].
  intros Hrun Hcap.
  eapply (chunk_loop_cover r text _ _ cs [] 0 Hb HO); [..|exact Hrun|exact Hcap];
    cbn; auto; try lia; try constructor.
Qed.

End chunk_windows.

(** Trimming ASCII white space does not lengthen a string. *)
Lemma length_rev_app s1 s2 :
  String.length (String.rev_app s1 s2) = (String.length s1 + String.length s2)%nat.
Proof.
  revert s2. induction s1 as [|a s1 IH]; intros s2; cbn; [done|].
  rewrite IH. cbn. lia.
Qed.

Lemma length_trim_left s : (String.length (GoString.trim_left s) <= String.length s)%nat.
Proof.
  induction s as [|a s IH]; cbn; [done|].
  destruct (Ascii.is_space a); cbn; lia.
Qed.

Lemma trim_ascii_len s : GoString.len (GoString.trim_ascii s) <= GoString.len s.
Proof.
  unfold GoString.len, GoString.trim_ascii, String.rev.
  rewrite length_rev_app. cbn.
  pose proof (length_trim_left (String.rev_app (GoString.trim_left s) "")) as H1.
  rewrite length_rev_app in H1. cbn in H1.
  pose proof (length_trim_left s). lia.
Qed.

(** X12, witness: a text of 34 bytes in chunks of 10 with an overlap of 3. *)
Lemma chunkText_chunks_witness :
  let r := {| Goldie.chunkSize := 10; Goldie.chunkOverlap := 3 |} in
  let text := "hello world, this is a simple test" in
  let cs := ["hello worl"; "orld, this"; "his is a"; "s a simple"; "ple test"; "est"] in
  Goldie.bounded r text /\
  Goldie.chunkText (H := ascii_runtime) r text = Goldie.Done cs /\
  Forall (fun ch => 0 < GoString.len ch <= Goldie.chunkSize r) cs.
Proof.
  intros r text cs.
  assert (Hb : Goldie.bounded r text) by (vm_compute; intuition congruence).
  assert (Hrun : Goldie.chunkText (H := ascii_runtime) r text = Goldie.Done cs)
    by (vm_compute; reflexivity).
  exact (conj Hb (conj Hrun (proj1 (proj2
    (@chunkText_chunks ascii_runtime r text cs Hb trim_ascii_len
       ltac:(reflexivity) Hrun))))).
Defined.

(** X13, witness: the same text and sizes. *)
Lemma chunkText_covers_witness :
  let r := {| Goldie.chunkSize := 10; Goldie.chunkOverlap := 3 |} in
  let text := "hello world, this is a simple test" in
  let cs := ["hello worl"; "orld, this"; "his is a"; "s a simple"; "ple test"; "est"] in
  Goldie.bounded r text /\
  Goldie.chunkText (H := ascii_runtime) r text = Goldie.Done cs /\
  exists spans,
    cs = Goldie.window_chunks (H := ascii_runtime) text spans /\
    Forall (fun span : Z * Z =>
              0 <= span.1 < span.2 /\ span.2 <= GoString.len text /\
              span.2 - span.1 <= Goldie.chunkSize r) spans /\
    StronglySorted (fun a b : Z * Z => a.1 < b.1) spans /\
    forall p, 0 <= p < GoString.len text ->
      Exists (fun span : Z * Z => span.1 <= p < span.2) spans.
Proof.
  intros r text cs.
  assert (Hb : Goldie.bounded r text) by (vm_compute; intuition congruence).
  assert (HO : 0 <= Goldie.chunkOverlap r < Goldie.chunkSize r) by (cbn; lia).
  assert (Hrun : Goldie.chunkText (H := ascii_runtime) r text = Goldie.Done cs)
    by (vm_compute; reflexivity).
  exact (conj Hb (conj Hrun
    (@chunkText_covers ascii_runtime r text cs Hb HO ltac:(reflexivity) Hrun
       ltac:(cbn; lia)))).
Defined.

(** X5, witness: a result written for a job that a new database does not
    hold. *)
Lemma UpdateJob_unknown_id_witness :
  let s := Store.New None 3 [] 0 in
  (forall r, r ∈ Store.jobs (Store.tables s) -> Store.j_id r <> "job-9") /\
  Store.tables (Store.UpdateJobResult "job-9" "done" s).2 = Store.tables s.
Proof.
  intros s.
  assert (Habs : forall r, r ∈ Store.jobs (Store.tables s) -> Store.j_id r <> "job-9")
    by (intros r Hr; inversion Hr).
  pose proof (UpdateJob_unknown_id s "job-9" "processing" 1 2 "done" "failed" Habs)
    as Hall.
  exact (conj Habs (proj1 (Forall_lookup_1 _ _ 2%nat _ Hall eq_refl))).
Defined.

(** X6, witness: a job is created and its result is written. *)
Lemma UpdateJob_GetJob_witness :
  let s := (Store.CreateJob "job-1" Store.JobTypeIndexFile "/tmp/a.txt"
              (Store.New None 3 [] 5)).2 in
  let job := {| Store.JobID := "job-1"; Store.JobType := "index_file";
                Store.Status := "queued"; Store.Params := "/tmp/a.txt";
                Store.Result := ""; Store.Error := ""; Store.Progress := 0;
                Store.Total := 0; Store.ParentID := ""; Store.JobCreatedAt := 5;
                Store.UpdatedAt := 5 |} in
  let s' := (Store.UpdateJobResult "job-1" "ok" s).2 in
  (Store.GetJob "job-1" s).1 = Store.Ok (Some job) /\
  Store.UpdateJobResult "job-1" "ok" s = (None, s') /\
  (Store.GetJob "job-1" s').1
    = Store.Ok (Some {| Store.JobID := "job-1"; Store.JobType := "index_file";
                        Store.Status := "completed"; Store.Params := "/tmp/a.txt";
                        Store.Result := "ok"; Store.Error := ""; Store.Progress := 0;
                        Store.Total := 0; Store.ParentID := "";
                        Store.JobCreatedAt := 5; Store.UpdatedAt := 5 |}).
Proof.
  intros s job s'.
  assert (Hjob : (Store.GetJob "job-1" s).1 = Store.Ok (Some job)) by reflexivity.
  assert (Hrun : Store.UpdateJobResult "job-1" "ok" s = (None, s')) by reflexivity.
  exact (conj Hjob (conj Hrun
    (proj1 (proj1 (UpdateJob_GetJob s "job-1" job Hjob) "ok" s' Hrun)))).
Defined.

(** X10, witness: a directory job with two children, one of them claimed. *)
Lemma GetChildJobStats_counts_witness :
  let s0 := Store.New None 3 [] 0 in
  let s1 := (Store.CreateJob "dir" Store.JobTypeIndexDir "/tmp" s0).2 in
  let s2 := (Store.CreateJobWithParent "a" Store.JobTypeIndexFile "/tmp/a" "dir" s1).2 in
  let s3 := (Store.CreateJobWithParent "b" Store.JobTypeIndexFile "/tmp/b" "dir" s2).2 in
  let s := (Store.UpdateJobResult "a" "ok" s3).2 in
  Z.of_nat (length (Store.jobs (Store.tables s))) <= GoInt.max_int /\
  (Store.GetChildJobStats "dir" s).1
    = Store.Ok {| Store.ChildJobStats.Total := 2; Store.ChildJobStats.Queued := 1;
                  Store.ChildJobStats.Processing := 0;
                  Store.ChildJobStats.Completed := 1;
                  Store.ChildJobStats.Failed := 0 |} /\
  exists stats, (Store.GetChildJobStats "dir" s).1 = Store.Ok stats /\
    Store.ChildJobStats.Total stats
      = Z.of_nat (length (Store.children "dir" (Store.tables s))).
Proof.
  intros s0 s1 s2 s3 s.
  assert (Hmax : Z.of_nat (length (Store.jobs (Store.tables s))) <= GoInt.max_int)
    by (vm_compute; discriminate).
  pose proof (GetChildJobStats_counts "dir" s Hmax) as Hstats.
  destruct (Store.GetChildJobStats "dir" s) as [r s'] eqn:Hrun.
  destruct Hstats as (_ & stats & -> & Htotal & _).
  assert (Hval : (Store.GetChildJobStats "dir" s).1
                 = Store.Ok {| Store.ChildJobStats.Total := 2;
                               Store.ChildJobStats.Queued := 1;
                               Store.ChildJobStats.Processing := 0;
                               Store.ChildJobStats.Completed := 1;
                               Store.ChildJobStats.Failed := 0 |})
    by (vm_compute; reflexivity).
  rewrite Hrun in Hval. cbn in Hval.
  exact (conj Hmax (conj Hval (ex_intro _ stats (conj eq_refl Htotal)))).
Defined.

(** * The indexer: what a call stores *)

Section indexer_writes.
Context `{GoRuntime} `{Goldie.Embedder} `{Goldie.FileSystem}.
Import GoString Goldie.

Local Arguments chunk_id : simpl never.


Lemma length_append a b :
  String.length (String.append a b) = (String.length a + String.length b)%nat.
Proof.
  induction a as [|c a IH]; [done|].
  change (String.append (String c a) b) with (String c (String.append a b)).
  cbn [String.length]. by rewrite IH.
Qed.

(** No chunk id is the id of its parent. *)
Lemma chunk_id_not_parent id j : chunk_id id j <> id.
Proof.
  unfold chunk_id. intros Heq. apply (f_equal String.length) in Heq.
  rewrite !length_append in Heq. cbn in Heq. lia.
Qed.

(** A run of the loop of [Index] that fails has stored the chunks before
    the one at which it fails, and has not stored that one. *)
Lemma index_chunks_failed id metadata total chunks : forall i w e w1,
  index_chunks id metadata total i chunks w = (Some e, w1) ->
  exists k chunk cause,
    chunks !! k = Some chunk /\
    (e = Store.Wrapped (String.append "generating embedding for chunk "
                          (itoa (i + Z.of_nat k))) cause /\
     Embed chunk = Store.Err cause \/
     e = Store.Wrapped (String.append "storing chunk " (itoa (i + Z.of_nat k))) cause) /\
    Store.documents (Store.tables (store w1)) !! chunk_id id (i + Z.of_nat k)
      = Store.documents (Store.tables (store w)) !! chunk_id id (i + Z.of_nat k) /\
    forall j chunk', (j < k)%nat -> chunks !! j = Some chunk' ->
      exists row,
        Store.documents (Store.tables (store w1)) !! chunk_id id (i + Z.of_nat j)
          = Some row /\
        Store.d_content row = chunk'.
Proof.
  induction chunks as [|c rest IH]; intros i w e w1; cbn [index_chunks]; [done|].
  unfold bind, make_map, maps_Copy, map_set, read_map, ret, with_heap. cbn.
  destruct (Embed c) as [embedding|cause] eqn:Hembed; cbn.
  - match goal with |- context [in_store (Store.AddDocument ?a ?b ?c ?d) ?w0] =>
      pose proof (AddDocument_in_store a b c d w0) as Hadd;
      pose proof (AddDocument_outcome a b c d (store w0)) as Hout;
      unfold in_store in *;
      destruct (Store.AddDocument a b c d (store w0)) as [[cause|] s2] end;
      cbn in *; destruct Hadd as (_ & Hother & Hstored);
      destruct Hout as (_ & _ & Hout).
    + intros [= <- <-]. exists 0%nat, c, cause. split; [done|].
      replace (i + Z.of_nat 0) with i by lia. split; [by right|]. cbn.
      split; [by rewrite Hout|]. intros j chunk' Hj. lia.
    + intros Hrest.
      match type of Hrest with index_chunks _ _ _ _ _ ?w0 = _ =>
        pose proof (index_chunks_other id metadata total rest (chunk_id id i) (i + 1) w0)
          as Hkeep;
        destruct (IH (i + 1) w0 e w1 Hrest)
          as (k & chunk & cause & Hk & Herr & Hfail & Hdone) end.
      rewrite Hrest in Hkeep. cbn in Hkeep, Hfail.
      exists (S k), chunk, cause. split; [done|].
      replace (i + Z.of_nat (S k)) with (i + 1 + Z.of_nat k) by lia.
      split; [done|]. split.
      * rewrite Hfail. apply Hother. intros Heq%chunk_id_inj. lia.
      * intros [|j] chunk' Hj Hc.
        -- injection Hc as <-. replace (i + Z.of_nat 0) with i by lia.
           eexists; split;
             [rewrite Hkeep; [by apply Hstored|intros j' Hj' Heq%chunk_id_inj; lia]
             |done].
        -- replace (i + Z.of_nat (S j)) with (i + 1 + Z.of_nat j) by lia.
           apply Hdone; [lia|done].
  - intros [= <- <-]. exists 0%nat, c, cause. split; [done|].
    replace (i + Z.of_nat 0) with i by lia. split; [by left|]. cbn.
    split; [done|]. intros j chunk' Hj. lia.
Qed.

(** X15. [Index] on a content longer than the chunk size writes documents
    under chunk ids "<id>_chunk_<k>" only: every other document, the one
    under the id itself included, is as it was. It is not atomic across
    chunks: a call that fails, at chunk [k], has stored the [k] chunks before
    it (they stay in the store) and has left the document under chunk id [k]
    as it was; the error names the chunk. *)
Theorem Index_chunked_writes r content metadata id w :
  content <> "" -> chunkSize r < len content ->
  let '(answer, w') := Index r content metadata id w in
  let id' := (default_id id w).1 in
  (forall k, (forall j, 0 <= j -> chunk_id id' j <> k) ->
     Store.documents (Store.tables (store w')) !! k
       = Store.documents (Store.tables (store w)) !! k) /\
  Store.documents (Store.tables (store w')) !! id'
    = Store.documents (Store.tables (store w)) !! id' /\
  forall e, answer = Done (Store.Err e) ->
    exists chunks k chunk cause,
      chunkText r content = Done chunks /\ chunks !! k = Some chunk /\
      (e = Store.Wrapped (String.append "generating embedding for chunk "
                            (itoa (Z.of_nat k))) cause /\
       Embed chunk = Store.Err cause \/
       e = Store.Wrapped (String.append "storing chunk " (itoa (Z.of_nat k))) cause) /\
      Store.documents (Store.tables (store w')) !! chunk_id id' (Z.of_nat k)
        = Store.documents (Store.tables (store w)) !! chunk_id id' (Z.of_nat k) /\
      forall j chunk', (j < k)%nat -> chunks !! j = Some chunk' ->
        exists row,
          Store.documents (Store.tables (store w')) !! chunk_id id' (Z.of_nat j)
            = Some row /\
          Store.d_content row = chunk'.
Proof.
  intros Hne Hlong. unfold Index.
  destruct (String.eqb_spec content ""); [done|].
  unfold bind at 1. cbn beta.
  pose proof (default_id_frame id w) as [_ Hs1].
  destruct (default_id id w) as [id' w1]. cbn in Hs1. cbn [fst].
  destruct (Z.leb_spec (len content) (chunkSize r)); [lia|].
  assert (Hwrites : forall w2,
    (forall k, (forall j, 0 <= j -> chunk_id id' j <> k) ->
       Store.documents (Store.tables (store w2)) !! k
         = Store.documents (Store.tables (store w1)) !! k) ->
    (forall k, (forall j, 0 <= j -> chunk_id id' j <> k) ->
       Store.documents (Store.tables (store w2)) !! k
         = Store.documents (Store.tables (store w)) !! k) /\
    Store.documents (Store.tables (store w2)) !! id'
      = Store.documents (Store.tables (store w)) !! id').
  { intros w2 Hother. rewrite <- Hs1. split; [done|]. apply Hother.
    intros j _. apply chunk_id_not_parent. }
  destruct (chunkText r content) as [chunks| |]; unfold ret, bind.
  - pose proof (fun k =>
      index_chunks_other id' metadata (Z.of_nat (length chunks)) chunks k 0 w1)
      as Hother.
    pose proof (index_chunks_failed id' metadata (Z.of_nat (length chunks)) chunks 0 w1)
      as Hfail.
    destruct (index_chunks id' metadata (Z.of_nat (length chunks)) 0 chunks w1)
      as [[e|] w2].
    + destruct (Hwrites w2) as [Hk Hid].
      { intros k Hk. by apply Hother. }
      split; [done|]. split; [done|]. intros e' [= <-].
      destruct (Hfail e w2 eq_refl) as (k & chunk & cause & Hc & Herr & Hkeep & Hdone).
      exists chunks, k, chunk, cause. rewrite Hs1 in Hkeep. done.
    + destruct (Hwrites w2) as [Hk Hid].
      { intros k Hk. by apply Hother. }
      split; [done|]. split; [done|]. done.
  - destruct (Hwrites w1) as [Hk Hid]; done.
  - destruct (Hwrites w1) as [Hk Hid]; done.
Qed.

End indexer_writes.

(** * The indexer: deleting a document with its chunks *)

Section indexer_deletes.
Context `{GoRuntime} `{Goldie.Embedder} `{Goldie.FileSystem}.
Import GoString Goldie.

Local Arguments chunk_id : simpl never.

(** What a [DeleteDocument] from the indexer does to the documents. *)
Lemma DeleteDocument_in_store id w :
  let '(err, w') := in_store (Store.DeleteDocument id) w in
  heap w' = heap w /\
  (Store.documents (Store.tables (store w')) = Store.documents (Store.tables (store w)) \/
   Store.documents (Store.tables (store w'))
     = delete id (Store.documents (Store.tables (store w)))) /\
  (Store.faults (store w) = [] ->
     Store.faults (store w') = [] /\
     Store.documents (Store.tables (store w'))
       = delete id (Store.documents (Store.tables (store w)))).
Proof.
  unfold in_store, Store.DeleteDocument, Store.Begin, Store.defer_Rollback,
    Store.tx_Exec, Store.Commit, Store.Rollback, Store.next_fault, bind, ret,
    Store.wrap_err, Store.with_pending, Store.with_faults, Store.with_tables.
  destruct w as [[dims t p fs clk] h u]; cbn.
  repeat (next_refusal; auto); (split; [done|]); (split; [auto|]); done.
Qed.

Lemma delete_chunks_spec n id : forall i deleted w,
  let '(d, w') := delete_chunks n id i deleted w in
  let docs := Store.documents (Store.tables (store w)) in
  let docs' := Store.documents (Store.tables (store w')) in
  heap w' = heap w /\
  deleted <= d <= deleted + Z.of_nat n /\
  (forall k row, docs' !! k = Some row -> docs !! k = Some row) /\
  (forall k, (forall j, i <= j < i + Z.of_nat n -> chunk_id id j <> k) ->
     docs' !! k = docs !! k) /\
  (Store.faults (store w) = [] ->
     exists m, 0 <= m <= Z.of_nat n /\ d = deleted + m /\
       (forall j, i <= j < i + m ->
          is_Some (docs !! chunk_id id j) /\ docs' !! chunk_id id j = None) /\
       (m < Z.of_nat n -> docs !! chunk_id id (i + m) = None) /\
       (forall k, (forall j, i <= j < i + m -> chunk_id id j <> k) ->
          docs' !! k = docs !! k)).
Proof.
  induction n as [|n IH]; intros i deleted w; cbn [delete_chunks].
  - cbn. split; [done|]. split; [lia|]. split; [done|]. split; [done|].
    intros _. exists 0. split; [lia|]. split; [lia|]. split; [intros j; lia|].
    split; [lia|done].
  - unfold bind at 1. rewrite in_store_GetDocument.
    unfold Store.GetDocument at 1.
    destruct (Store.documents (Store.tables (store w)) !! chunk_id id i)
      as [row0|] eqn:Hrow0; cbn.
    + unfold bind at 1.
      pose proof (DeleteDocument_in_store (chunk_id id i) w) as Hdel.
      destruct (in_store (Store.DeleteDocument (chunk_id id i)) w) as [err w1].
      destruct Hdel as (Hh1 & Hdocs1 & Hfree1).
      specialize (IH (i + 1) (deleted + 1) w1).
      destruct (delete_chunks n id (i + 1) (deleted + 1) w1) as [d w'].
      cbn zeta in *. destruct IH as (Hh & Hd & Hsub & Hother & Hfree).
      assert (Hsub1 : forall k row,
        Store.documents (Store.tables (store w1)) !! k = Some row ->
        Store.documents (Store.tables (store w)) !! k = Some row).
      { intros k row. destruct Hdocs1 as [-> | ->]; [done|].
        by intros [_ ?]%lookup_delete_Some. }
      assert (Hother1 : forall k, k <> chunk_id id i ->
        Store.documents (Store.tables (store w1)) !! k
          = Store.documents (Store.tables (store w)) !! k).
      { intros k Hk. destruct Hdocs1 as [-> | ->]; [done|].
        by rewrite lookup_delete_ne. }
      split; [congruence|]. split; [lia|]. split; [auto|]. split.
      * intros k Hk. rewrite Hother by (intros j Hj; apply Hk; lia).
        apply Hother1. intros ->. apply (Hk i); [lia|done].
      * intros Hf. destruct (Hfree1 Hf) as [Hf1 Hdocs].
        destruct (Hfree Hf1) as (m & Hm & -> & Hgone & Hstop & Hkeep).
        exists (m + 1). split; [lia|]. split; [lia|]. split; [|split].
        -- intros j Hj. destruct (Z.eq_dec j i) as [->|Hne].
           ++ split; [by rewrite Hrow0|].
              destruct (Store.documents (Store.tables (store w')) !! chunk_id id i)
                as [row|] eqn:Hrow; [|done].
              apply Hsub in Hrow. rewrite Hdocs, lookup_delete_eq in Hrow. done.
           ++ destruct (Hgone j ltac:(lia)) as [Hsome Hnone]. split; [|done].
              rewrite Hother1 in Hsome; [done|]. intros Heq%chunk_id_inj. lia.
        -- intros Hlt. replace (i + (m + 1)) with (i + 1 + m) by lia.
           rewrite <- Hother1; [apply Hstop; lia|]. intros Heq%chunk_id_inj. lia.
        -- intros k Hk. rewrite Hkeep by (intros j Hj; apply Hk; lia).
           apply Hother1. intros ->. apply (Hk i); [lia|done].
    + split; [done|]. split; [lia|]. split; [done|]. split; [done|].
      intros _. exists 0. split; [lia|]. split; [lia|]. split; [intros j; lia|].
      split; [intros _; by replace (i + 0) with i by lia|done].
Qed.

(** X16. [DeleteDocumentAndChunks] only removes documents: it adds and
    changes none, touches only the document itself and its chunks 0 to
    9 999, and returns a count between 0 and 10 001. When the database
    refuses no statement it removes the document and the unbroken run of
    chunks from chunk 0 on (up to 10 000 of them, stopping at the first chunk
    id that is missing), returns how many documents that is, and leaves every
    other document, the chunks after a gap included, as it was. *)
Theorem DeleteDocumentAndChunks_deletes id w :
  let '(n, w') := DeleteDocumentAndChunks id w in
  let docs := Store.documents (Store.tables (store w)) in
  let docs' := Store.documents (Store.tables (store w')) in
  0 <= n <= 10001 /\
  heap w' = heap w /\
  (forall k row, docs' !! k = Some row -> docs !! k = Some row) /\
  (forall k, k <> id -> (forall j, 0 <= j < 10000 -> chunk_id id j <> k) ->
     docs' !! k = docs !! k) /\
  (Store.faults (store w) = [] ->
     docs' !! id = None /\
     exists m, 0 <= m <= 10000 /\
       n = match docs !! id with Some _ => 1 | None => 0 end + m /\
       (forall j, 0 <= j < m ->
          is_Some (docs !! chunk_id id j) /\ docs' !! chunk_id id j = None) /\
       (m < 10000 -> docs !! chunk_id id m = None) /\
       (forall k, k <> id -> (forall j, 0 <= j < m -> chunk_id id j <> k) ->
          docs' !! k = docs !! k)).
Proof.
  unfold DeleteDocumentAndChunks. unfold bind at 1. rewrite in_store_GetDocument.
  unfold Store.GetDocument at 1.
  assert (Hn : Z.of_nat (Z.to_nat 10000) = 10000) by lia.
  destruct (Store.documents (Store.tables (store w)) !! id) as [row0|] eqn:Hrow0; cbn.
  - unfold bind at 1. unfold bind at 1.
    pose proof (DeleteDocument_in_store id w) as Hdel.
    destruct (in_store (Store.DeleteDocument id) w) as [err w1].
    destruct Hdel as (Hh1 & Hdocs1 & Hfree1). unfold ret at 1.
    pose proof (delete_chunks_spec (Z.to_nat 10000) id 0 1 w1) as Hloop.
    destruct (delete_chunks (Z.to_nat 10000) id 0 1 w1) as [d w'].
    cbn zeta in *. rewrite Hn in Hloop.
    destruct Hloop as (Hh & Hd & Hsub & Hother & Hfree).
    assert (Hsub1 : forall k row,
      Store.documents (Store.tables (store w1)) !! k = Some row ->
      Store.documents (Store.tables (store w)) !! k = Some row).
    { intros k row. destruct Hdocs1 as [-> | ->]; [done|].
      by intros [_ ?]%lookup_delete_Some. }
    assert (Hother1 : forall k, k <> id ->
      Store.documents (Store.tables (store w1)) !! k
        = Store.documents (Store.tables (store w)) !! k).
    { intros k Hk. destruct Hdocs1 as [-> | ->]; [done|].
      by rewrite lookup_delete_ne. }
    split; [lia|]. split; [congruence|]. split; [auto|]. split.
    + intros k Hk Hc. rewrite Hother by (intros j Hj; apply Hc; lia). by apply Hother1.
    + intros Hf. destruct (Hfree1 Hf) as [Hf1 Hdocs].
      destruct (Hfree Hf1) as (m & Hm & -> & Hgone & Hstop & Hkeep). split.
      * destruct (Store.documents (Store.tables (store w')) !! id) as [row|] eqn:Hrow;
          [|done].
        apply Hsub in Hrow. rewrite Hdocs, lookup_delete_eq in Hrow. done.
      * exists m. split; [lia|]. split; [lia|]. split; [|split].
        -- intros j Hj. destruct (Hgone j ltac:(lia)) as [Hsome Hnone].
           split; [|done]. rewrite Hother1 in Hsome; [done|].
           apply chunk_id_not_parent.
        -- intros Hlt. rewrite <- Hother1 by apply chunk_id_not_parent.
           apply Hstop. lia.
        -- intros k Hk Hc. rewrite Hkeep by (intros j Hj; apply Hc; lia).
           by apply Hother1.
  - pose proof (delete_chunks_spec (Z.to_nat 10000) id 0 0 w) as Hloop.
    destruct (delete_chunks (Z.to_nat 10000) id 0 0 w) as [d w'].
    cbn zeta in *. rewrite Hn in Hloop.
    destruct Hloop as (Hh & Hd & Hsub & Hother & Hfree).
    split; [lia|]. split; [done|]. split; [done|]. split.
    + intros k Hk Hc. apply Hother. intros j Hj. apply Hc. lia.
    + intros Hf. destruct (Hfree Hf) as (m & Hm & -> & Hgone & Hstop & Hkeep). split.
      * rewrite Hother; [done|]. intros j _. apply chunk_id_not_parent.
      * exists m. split; [lia|]. split; [lia|]. split; [|split].
        -- intros j Hj. apply Hgone. lia.
        -- intros Hlt. apply Hstop. lia.
        -- intros k Hk Hc. apply Hkeep. intros j Hj. apply Hc. lia.
Qed.

End indexer_deletes.

(** * The indexer: indexing a file *)

Section indexer_files.
Context `{GoRuntime} `{Goldie.Embedder} `{Goldie.FileSystem}.
Import GoString Goldie.

Local Arguments chunk_id : simpl never.



End indexer_files.


(** X15, witness: a content of 34 bytes in chunks of 10; the document under
    the id itself is not written. *)
Lemma Index_chunked_writes_witness :
  let r := {| Goldie.chunkSize := 10; Goldie.chunkOverlap := 3 |} in
  let content := "hello world, this is a simple test" in
  let out := Goldie.Index (H := ascii_runtime) (H0 := toy_embedder) r content None
               "doc" toy_world in
  content <> "" /\ Goldie.chunkSize r < GoString.len content /\
  out.1 = Goldie.Done (Store.Ok {| Goldie.ID := "doc"; Goldie.ChunkCount := 6 |}) /\
  Store.documents (Store.tables (Goldie.store out.2)) !! "doc" = None.
Proof.
  intros r content out.
  assert (Hne : content <> "") by discriminate.
  assert (Hlong : Goldie.chunkSize r < GoString.len content) by reflexivity.
  assert (Hout : out.1 = Goldie.Done (Store.Ok {| Goldie.ID := "doc";
                                                  Goldie.ChunkCount := 6 |}))
    by (vm_compute; reflexivity).
  pose proof (@Index_chunked_writes ascii_runtime toy_embedder r content None
                "doc" toy_world Hne Hlong) as Hwrites.
  fold out in Hwrites. destruct out as [answer w'].
  exact (conj Hne (conj Hlong (conj Hout (proj1 (proj2 Hwrites))))).
Defined.


(** * The server: the statuses of the jobs *)

Section server_statuses.
Context `{GoRuntime} `{Goldie.Embedder} `{Goldie.FileSystem} `{Queue.Json}.
Import Store Queue.

Lemma known_rows_updated (l : list JobRow) j f :
  (forall r, known_status (j_status r) -> known_status (j_status (f r))) ->
  Forall (fun r => known_status (j_status r)) l ->
  Forall (fun r => known_status (j_status r)) (updated j f <$> l).
Proof.
  intros Hf Hl. apply Forall_fmap. eapply Forall_impl; [exact Hl|].
  intros r Hr. cbn. unfold updated. destruct (String.eqb (j_id r) j); auto.
Qed.

Lemma known_rows_enqueued (l l' : list JobRow) id :
  l' = l \/ (exists row, l' = l ++ [row] /\ j_id row = id /\
                         j_status row = JobStatusQueued) ->
  Forall (fun r => known_status (j_status r)) l ->
  Forall (fun r => known_status (j_status r)) l'.
Proof.
  intros [->|(row & -> & _ & Hst)] Hl; [done|].
  apply Forall_app. split; [done|]. constructor; [|done].
  rewrite Hst. unfold known_status. set_solver.
Qed.

Lemma known_status_terminal status : terminal status -> known_status status.
Proof. intros [->| ->]; unfold known_status; set_solver. Qed.

(** An event leaves every job with one of the four statuses. *)
Lemma step_known_statuses e v v' :
  Forall (fun r => known_status (j_status r)) (jobs_of v) ->
  step e v = Some v' ->
  Forall (fun r => known_status (j_status r)) (jobs_of v').
Proof.
  intros Hl Hstep. destruct e; cbn [step] in Hstep.
  - destruct (decide (id ∈ used v)); [done|]. injection Hstep as <-.
    eapply known_rows_enqueued; [|exact Hl]. apply EnqueueIndexFile_rows.
  - destruct (decide (id ∈ used v)); [done|]. injection Hstep as <-.
    eapply known_rows_enqueued; [|exact Hl]. apply EnqueueIndexDirectory_rows.
  - destruct (valid_clear status); [|done]. injection Hstep as <-.
    unfold jobs_of at 1. cbn.
    destruct (DeleteJobs_rows status (Goldie.store (world v))) as [->| ->]; [done|].
    destruct (String.eqb status "all"); [constructor|].
    apply Forall_forall. intros r [_ Hr]%list_elem_of_filter.
    revert r Hr. by apply Forall_forall.
  - by injection Hstep as <-.
  - destruct (worker v) eqn:Hw; try done.
    pose proof (GetNextPendingJob_rows (Goldie.store (world v))) as Hrows.
    destruct (GetNextPendingJob (Goldie.store (world v))) as [answer s'].
    injection Hstep as <-. unfold jobs_of at 1. cbn.
    destruct answer as [[job|]|e]; [|by rewrite Hrows..].
    destruct Hrows as (row & _ & _ & _ & ->).
    apply known_rows_updated; [|done]. intros r _. cbn. unfold known_status. set_solver.
  - unfold call in Hstep.
    destruct (worker v) as [|job progress total k|job msg k|job res k|path k
                           |dir pattern recursive k|path parentID k] eqn:Hw; try done.
    + injection Hstep as <-. unfold jobs_of at 1. cbn.
      destruct (update_job_rows job
                  (set_progress progress total (clock (Goldie.store (world v))))
                  (Goldie.store (world v))) as [Hrows|Hrows];
        unfold UpdateJobProgress, now, bind; cbn; rewrite Hrows; [done|].
      by apply known_rows_updated.
    + injection Hstep as <-. unfold jobs_of at 1. cbn.
      destruct (update_job_rows job
                  (set_error msg (clock (Goldie.store (world v))))
                  (Goldie.store (world v))) as [Hrows|Hrows];
        unfold UpdateJobError, now, bind; cbn; rewrite Hrows; [done|].
      apply known_rows_updated; [|done]. intros r _. cbn.
      apply known_status_terminal. by right.
    + injection Hstep as <-. unfold jobs_of at 1. cbn.
      destruct (update_job_rows job
                  (set_result res (clock (Goldie.store (world v))))
                  (Goldie.store (world v))) as [Hrows|Hrows];
        unfold UpdateJobResult, now, bind; cbn; rewrite Hrows; [done|].
      apply known_rows_updated; [|done]. intros r _. cbn.
      apply known_status_terminal. by left.
    + pose proof (IndexFile_jobs (goldie v) path (world v)) as Hjobs.
      destruct (Goldie.IndexFile (goldie v) path (world v)) as [answer w'].
      injection Hstep as <-. unfold jobs_of at 1. cbn.
      unfold Goldie.same_jobs in Hjobs. cbn in Hjobs. by rewrite Hjobs.
    + by injection Hstep as <-.
    + destruct (decide (id ∈ used v)); [done|].
      pose proof (EnqueueIndexFileWithParent_rows id path parentID
                    (Goldie.store (world v))) as Hrows.
      destruct (EnqueueIndexFileWithParent id path parentID (Goldie.store (world v)))
        as [answer s'].
      injection Hstep as <-. by eapply known_rows_enqueued.
  - by injection Hstep as <-.
  - destruct (String.eqb content ""); [done|].
    pose proof (index_content_jobs (goldie v) content metadata (world v)) as Hjobs.
    destruct (index_content (goldie v) content metadata (world v)) as [answer w'].
    injection Hstep as <-. unfold jobs_of at 1. cbn.
    unfold Goldie.same_jobs in Hjobs. cbn in Hjobs. by rewrite Hjobs.
  - destruct (String.eqb id ""); [done|].
    pose proof (DeleteDocumentAndChunks_jobs id (world v)) as Hjobs.
    destruct (Goldie.DeleteDocumentAndChunks id (world v)) as [deleted w'].
    injection Hstep as <-. unfold jobs_of at 1. cbn.
    unfold Goldie.same_jobs in Hjobs. cbn in Hjobs. by rewrite Hjobs.
Qed.

(** X18. In every run of the server (handlers, worker, environment) from
    a job table whose rows all have one of the statuses queued, processing,
    completed and failed, every row has one of these four statuses at every
    moment: the server writes no other status. *)
Theorem server_statuses_known v0 es v :
  Forall (fun r => known_status (j_status r)) (jobs_of v0) ->
  run_events es v0 = Some v ->
  Forall (fun r => known_status (j_status r)) (jobs_of v).
Proof.
  revert v0. induction es as [|e es IH]; intros v0 Hl; cbn.
  - by intros [= <-].
  - destruct (step e v0) as [v1|] eqn:Hstep; [|done].
    apply IH. by eapply step_known_statuses.
Qed.

End server_statuses.

(** * The indexer: when it panics *)

Section indexer_panics.
Context `{GoRuntime} `{Goldie.Embedder} `{Goldie.FileSystem}.
Import GoString Goldie.

(** With a chunk size that is not negative, [Index] returns. *)
Lemma Index_Done r content metadata id w :
  0 <= chunkSize r <= 2 ^ 62 -> Z.abs (chunkOverlap r) <= 2 ^ 62 ->
  len content < 2 ^ 62 ->
  exists a, (Index r content metadata id w).1 = Done a.
Proof.
  intros HS HO HT. unfold Index. destruct (String.eqb content ""); [by eexists|].
  unfold bind at 1. destruct (default_id id w) as [id' w1].
  destruct (len content <=? chunkSize r) eqn:Hle.
  - destruct (Embed content) as [embedding|e]; [|by eexists].
    unfold bind at 1. destruct (read_map metadata w1) as [meta w2].
    unfold bind at 1. destruct (in_store _ w2) as [[e|] w3]; by eexists.
  - assert (Hb : bounded r content) by (unfold bounded; lia).
    assert (Hrun : exists cs, chunkText r content = Done cs).
    { destruct (chunkText r content) as [cs| |] eqn:Hrun; [by eexists| |].
      - exfalso. revert Hrun. unfold chunkText. rewrite Hle.
        apply chunk_loop_no_panic; [done|lia|done].
      - by apply chunkText_total in Hrun. }
    destruct Hrun as [cs ->]. unfold bind at 1.
    destruct (index_chunks _ _ _ _ _ w1) as [[e|] w2]; by eexists.
Qed.

Lemma IndexFile_Done r path w :
  0 <= chunkSize r <= 2 ^ 62 -> Z.abs (chunkOverlap r) <= 2 ^ 62 ->
  (forall content, ReadFile path = Store.Ok content -> len content < 2 ^ 62) ->
  exists a, (IndexFile r path w).1 = Done a.
Proof.
  intros HS HO HT. unfold IndexFile.
  destruct (ReadFile path) as [content|e] eqn:Hread; [|by eexists].
  unfold bind at 1. destruct (in_store _ w) as [existing w1].
  destruct (same_checksum existing _); [by eexists|].
  unfold bind at 1. destruct (in_store _ w1) as [existingChunk w2].
  destruct (same_checksum existingChunk _); [by eexists|].
  unfold bind at 1.
  match goal with |- context [let '(_, _) := ?m w2 in _] =>
    destruct (m w2) as [[] w3] end.
  unfold bind at 1. destruct (make_map _ w3) as [metadata w4].
  apply Index_Done; auto.
Qed.

(** X19. [Index] and [IndexFile] panic only for a negative chunk size:
    with a chunk size from 0 to 2^62, an overlap within 2^62 and contents
    below 2^62 bytes they return a result or an error, for every store and
    every embedder. With a negative chunk size (which [New] lets through, as
    it replaces only 0) [Index] panics on every content that is not empty,
    on a slice with a negative bound, before it has written anything. *)
Theorem Index_panics_for_negative_chunk_size r :
  (0 <= chunkSize r <= 2 ^ 62 -> Z.abs (chunkOverlap r) <= 2 ^ 62 ->
   (forall content metadata id w, len content < 2 ^ 62 ->
      exists a, (Index r content metadata id w).1 = Done a) /\
   (forall path w,
      (forall content, ReadFile path = Store.Ok content -> len content < 2 ^ 62) ->
      exists a, (IndexFile r path w).1 = Done a)) /\
  (GoInt.min_int <= chunkSize r < 0 ->
   forall content metadata id w, content <> "" ->
     let '(answer, w') := Index r content metadata id w in
     answer = Panic /\ store w' = store w).
Proof.
  split.
  - intros HS HO. split.
    + intros content metadata id w HT. by apply Index_Done.
    + intros path w HT. by apply IndexFile_Done.
  - intros HS content metadata id w Hne. unfold Index.
    destruct (String.eqb_spec content ""); [done|].
    unfold bind at 1. pose proof (default_id_frame id w) as [_ Hs1].
    destruct (default_id id w) as [id' w1]. cbn in Hs1.
    assert (Hlen : 0 <= len content) by (unfold len; lia).
    destruct (Z.leb_spec (len content) (chunkSize r)); [lia|].
    assert (Hrun : chunkText r content = Panic).
    { unfold chunkText. destruct (Z.leb_spec (len content) (chunkSize r)); [lia|].
      cbn [chunk_loop]. unfold chunk_step. cbn [start prevStart chunks].
      destruct (Z.ltb_spec 0 (len content)) as [_|Hz].
      - cbn. unfold chunk_end.
        assert (Hadd : GoInt.add 0 (chunkSize r) = chunkSize r).
        { unfold GoInt.add. apply wrap_small.
          unfold GoInt.in_range, GoInt.min_int, GoInt.max_int in *. lia. }
        rewrite Hadd, Z.min_l by lia.
        destruct (Z.ltb_spec (chunkSize r) (len content)); [|lia].
        unfold slice. destruct (Z.leb_spec 0 (chunkSize r)); [lia|].
        by rewrite andb_false_r.
      - assert (len content = 0) by lia. destruct content; [done|].
        unfold len in *. cbn in *. lia. }
    rewrite Hrun. by cbn.
Qed.

End indexer_panics.

(** * The worker: every claimed job is settled *)

Section no_refusals.
Context `{GoRuntime} `{Goldie.Embedder} `{Goldie.FileSystem}.
Import GoString Goldie.

(** A database that refuses nothing goes on refusing nothing. *)
Lemma AddDocument_no_faults id content metadata embedding s :
  Store.faults s = [] ->
  Store.faults (Store.AddDocument id content metadata embedding s).2 = [].
Proof.
  unfold Store.AddDocument, Store.Begin, Store.defer_Rollback, Store.tx_Exec,
    Store.Commit, Store.Rollback, Store.now, Store.next_fault, bind, ret,
    Store.wrap_err, Store.with_pending, Store.with_faults, Store.with_tables.
  destruct s as [dims t p fs clk]; cbn. intros ->. cbn.
  unfold Store.insert_vector.
  destruct (Store.marshal_embedding embedding); cbn; [done|].
  by destruct (Z.of_nat (length embedding) =? Store.vec_dim t).
Qed.

Lemma db_Exec_no_faults stmt s :
  Store.faults s = [] -> Store.faults (Store.db_Exec stmt s).2 = [].
Proof.
  unfold Store.db_Exec, Store.next_fault, bind, ret.
  destruct s as [dims t p fs clk]; cbn. intros ->. cbn.
  by destruct (stmt t).
Qed.

Lemma index_chunks_no_faults id metadata total chunks : forall i w,
  Store.faults (store w) = [] ->
  Store.faults (store (index_chunks id metadata total i chunks w).2) = [].
Proof.
  induction chunks as [|chunk rest IH]; intros i w Hf; cbn [index_chunks]; [done|].
  unfold bind, make_map, maps_Copy, map_set, read_map, ret, with_heap. cbn.
  destruct (Embed chunk) as [embedding|e]; cbn; [|done].
  match goal with |- context [in_store (Store.AddDocument ?a ?b ?c ?d) ?w1] =>
    pose proof (AddDocument_no_faults a b c d (store w1) Hf) as Hadd;
    unfold in_store;
    destruct (Store.AddDocument a b c d (store w1)) as [[e|] s2] end; cbn in *;
    [done|].
  by apply IH.
Qed.

Lemma Index_no_faults r content metadata id w :
  Store.faults (store w) = [] ->
  Store.faults (store (Index r content metadata id w).2) = [].
Proof.
  intros Hf. unfold Index. destruct (String.eqb content ""); [done|].
  unfold bind at 1. cbn beta.
  pose proof (default_id_frame id w) as [_ Hs1].
  destruct (default_id id w) as [id' w1]. cbn in Hs1. rewrite <- Hs1 in Hf.
  destruct (len content <=? chunkSize r).
  - destruct (Embed content) as [embedding|e]; [|done].
    unfold bind, read_map.
    assert (Hadd : forall meta,
      Store.faults (store
        (let '(err, s') := in_store (Store.AddDocument id' content meta embedding) w1 in
         match err with
         | Some e => ret (Done (Store.Err (Store.Wrapped "storing document" e)))
         | None => ret (Done (Store.Ok {| ID := id'; ChunkCount := 1 |}))
         end s').2) = []).
    { intros meta.
      pose proof (AddDocument_no_faults id' content meta embedding (store w1) Hf) as Hadd.
      unfold in_store.
      by destruct (Store.AddDocument id' content meta embedding (store w1)) as [[e|] s2]. }
    destruct metadata as [l|]; apply Hadd.
  - destruct (chunkText r content) as [chunks| |]; [|done..].
    unfold bind.
    pose proof (index_chunks_no_faults id' metadata (Z.of_nat (length chunks)) chunks
                  0 w1 Hf) as Hloop.
    by destruct (index_chunks _ _ _ _ _ w1) as [[e|] w2].
Qed.

Lemma delete_chunks_no_faults n id : forall i deleted w,
  Store.faults (store w) = [] ->
  Store.faults (store (delete_chunks n id i deleted w).2) = [].
Proof.
  induction n as [|n IH]; intros i deleted w Hf; cbn [delete_chunks]; [done|].
  unfold bind at 1. rewrite in_store_GetDocument.
  destruct (Store.GetDocument (chunk_id id i) (store w)).1 as [[doc|]|e]; [|done..].
  unfold bind at 1.
  pose proof (DeleteDocument_in_store (chunk_id id i) w) as Hdel.
  destruct (in_store (Store.DeleteDocument (chunk_id id i)) w) as [err w1].
  destruct Hdel as (_ & _ & Hfree). apply IH. by apply Hfree.
Qed.

Lemma IndexFile_no_faults r path w :
  Store.faults (store w) = [] ->
  Store.faults (store (IndexFile r path w).2) = [].
Proof.
  intros Hf. unfold IndexFile. destruct (ReadFile path) as [content|e]; [|done].
  unfold bind at 1. rewrite in_store_GetDocument.
  destruct (same_checksum _ _); [done|].
  unfold bind at 1. rewrite in_store_GetDocument.
  destruct (same_checksum _ _); [done|].
  unfold bind at 1.
  assert (Hdel : exists wd,
    (if found (Store.GetDocument (Base path) (store w)).1
        || found (Store.GetDocument (String.append (Base path) "_chunk_0") (store w)).1
     then run DeleteDocumentAndChunks (Base path); ret tt
     else ret tt) w = (tt, wd) /\
    Store.faults (store wd) = []).
  { destruct (_ || _); [|by exists w].
    unfold bind at 1.
    assert (Hd : Store.faults (store (DeleteDocumentAndChunks (Base path) w).2) = []).
    { unfold DeleteDocumentAndChunks. unfold bind at 1. rewrite in_store_GetDocument.
      destruct (Store.GetDocument (Base path) (store w)).1 as [[doc|]|e];
        try (by apply delete_chunks_no_faults).
      unfold bind at 1. unfold bind at 1.
      pose proof (DeleteDocument_in_store (Base path) w) as Hdel.
      destruct (in_store (Store.DeleteDocument (Base path)) w) as [err w1].
      destruct Hdel as (_ & _ & Hfree). unfold ret at 1.
      apply delete_chunks_no_faults. by apply Hfree. }
    destruct (DeleteDocumentAndChunks (Base path) w) as [n wd]. by exists wd. }
  destruct Hdel as (wd & -> & Hfd).
  unfold bind at 1, make_map. cbn beta iota zeta.
  by apply Index_no_faults.
Qed.

End no_refusals.

Section worker_settles.
Context `{GoRuntime} `{Goldie.Embedder} `{Goldie.FileSystem} `{Queue.Json}.
Import Store Queue.

Lemma enqueue_children_settles j parentID files : forall childJobIDs k,
  (forall ids, settles j (k ids)) ->
  settles j (enqueue_children parentID files childJobIDs k).
Proof.
  induction files as [|file rest IH]; intros childJobIDs k Hk; cbn; [done|].
  apply settles_child. intros [childID|e]; by apply IH.
Qed.

(** Every path of the program of a claimed job ends with a terminal status
    for that job. *)
Lemma dispatch_settles job : settles (JobID job) (dispatch job).
Proof.
  unfold dispatch, processIndexFile, processIndexDirectory.
  destruct (String.eqb (JobType job) JobTypeIndexFile).
  - destruct (unmarshal_file_params (Params job)) as [params|e].
    + apply settles_progress, settles_index. intros [res|e].
      * destruct (marshal_file_result res (Path params)).
        -- apply settles_progress, settles_result.
        -- apply settles_error.
      * apply settles_error.
    + apply settles_error.
  - destruct (String.eqb (JobType job) JobTypeIndexDir).
    + destruct (unmarshal_dir_params (Params job)) as [params|e].
      * apply settles_scan. intros [files|e].
        -- apply settles_progress, enqueue_children_settles. intros ids.
           destruct (marshal_dir_result _ ids params).
           ++ apply settles_result.
           ++ apply settles_error.
        -- apply settles_error.
      * apply settles_error.
    + apply settles_error.
Qed.

Lemma find_job_app (l l' : list JobRow) id r :
  List.find (fun r => String.eqb (j_id r) id) l = Some r ->
  List.find (fun r => String.eqb (j_id r) id) (l ++ l') = Some r.
Proof.
  induction l as [|x l IH]; cbn; [done|].
  by destruct (String.eqb (j_id x) id).
Qed.

Lemma find_job_exists (l : list JobRow) id :
  (exists r, r ∈ l /\ j_id r = id) ->
  exists r, List.find (fun r => String.eqb (j_id r) id) l = Some r /\ j_id r = id.
Proof.
  intros (r & Hr & Hid).
  destruct (List.find (fun r => String.eqb (j_id r) id) l) as [r'|] eqn:Hfind.
  - exists r'. split; [done|]. apply find_some in Hfind as [_ Heq].
    by apply String.eqb_eq.
  - eapply find_none in Hfind; [|by apply list_elem_of_In].
    cbn in Hfind. rewrite Hid, String.eqb_refl in Hfind. done.
Qed.

(** What the worker needs for settling job [j]: the database refuses
    nothing, the job has a row, and its status is terminal or the rest of the
    program is going to write one. *)
Lemma update_settles (v : Server) j job f k :
  faults (Goldie.store (world v)) = [] ->
  (forall ts r, j_id (f ts r) = j_id r) ->
  (exists r, r ∈ jobs_of v /\ j_id r = j) ->
  let v' := with_store v
              ((do ts <- now; db_Exec (update_job job (f ts)))
                 (Goldie.store (world v))).2 k (used v) in
  faults (Goldie.store (world v')) = [] /\
  (exists r, r ∈ jobs_of v' /\ j_id r = j) /\
  job_status v' j
    = (fun r => j_status (updated job (f (clock (Goldie.store (world v)))) r))
        <$> List.find (fun r => String.eqb (j_id r) j) (jobs_of v).
Proof.
  intros Hf Hid (r & Hr & Hj). cbn zeta.
  pose proof (update_job_outcome job f (Goldie.store (world v))) as Hout.
  pose proof (db_Exec_no_faults
    (update_job job (f (clock (Goldie.store (world v))))) (Goldie.store (world v)) Hf)
    as Hfaults.
  unfold bind, now in *.
  destruct (db_Exec _ (Goldie.store (world v))) as [err s'].
  destruct Hout as [Ht Hnone]. rewrite (Hnone Hf) in Ht. cbn in *.
  split; [done|]. unfold jobs_of, job_status. cbn. rewrite Ht. cbn. split.
  - exists (updated job (f (clock (Goldie.store (world v)))) r). split.
    + by apply list_elem_of_fmap_2.
    + by rewrite updated_id.
  - rewrite find_job_updated by done.
    by destruct (List.find _ (jobs (tables (Goldie.store (world v))))).
Qed.

Lemma call_settles scanned id (v v' : Server) j :
  0 <= Goldie.chunkSize (goldie v) <= 2 ^ 62 ->
  Z.abs (Goldie.chunkOverlap (goldie v)) <= 2 ^ 62 ->
  (forall path content,
     Goldie.ReadFile path = Ok content -> GoString.len content < 2 ^ 62) ->
  call scanned id v = Some v' ->
  faults (Goldie.store (world v)) = [] ->
  (exists r, r ∈ jobs_of v /\ j_id r = j) ->
  (exists t, job_status v j = Some t /\ terminal t) \/ settles j (worker v) ->
  goldie v' = goldie v /\
  faults (Goldie.store (world v')) = [] /\
  (exists r, r ∈ jobs_of v' /\ j_id r = j) /\
  ((exists t, job_status v' j = Some t /\ terminal t) \/ settles j (worker v')).
Proof.
  intros HS HO HT Hcall Hf Hrow Hinv. unfold call in Hcall.
  destruct (find_job_exists _ _ Hrow) as (r0 & Hfind & Hid0).
  destruct (worker v) as [|job progress total k|job msg k|job res k|path k
                         |dir pattern recursive k|path parentID k] eqn:Hw; try done.
  - injection Hcall as <-.
    destruct (update_settles v j job (fun ts => set_progress progress total ts) k
                Hf ltac:(done) Hrow) as (Hf' & Hrow' & Hst).
    unfold UpdateJobProgress. split; [done|]. split; [done|]. split; [done|].
    rewrite Hst, Hfind. cbn.
    destruct Hinv as [(t & Hjs & Ht)|Hs].
    + left. exists t. split; [|done]. unfold job_status in Hjs.
      unfold jobs_of in Hfind. rewrite Hfind in Hjs. cbn in Hjs.
      unfold updated. by destruct (String.eqb (j_id r0) job).
    + right. cbn. by inversion Hs.
  - injection Hcall as <-.
    destruct (update_settles v j job (fun ts => set_error msg ts) k
                Hf ltac:(done) Hrow) as (Hf' & Hrow' & Hst).
    unfold UpdateJobError. split; [done|]. split; [done|]. split; [done|].
    rewrite Hst, Hfind. cbn. left.
    destruct Hinv as [(t & Hjs & Ht)|Hs].
    + unfold job_status in Hjs. unfold jobs_of in Hfind. rewrite Hfind in Hjs.
      cbn in Hjs. injection Hjs as <-. unfold updated.
      destruct (String.eqb (j_id r0) job); eexists; (split; [done|]); [by right|done].
    + assert (Hjob : job = j) by (by inversion Hs). rewrite Hjob.
      unfold updated. rewrite Hid0, String.eqb_refl.
      eexists. split; [done|]. by right.
  - injection Hcall as <-.
    destruct (update_settles v j job (fun ts => set_result res ts) k
                Hf ltac:(done) Hrow) as (Hf' & Hrow' & Hst).
    unfold UpdateJobResult. split; [done|]. split; [done|]. split; [done|].
    rewrite Hst, Hfind. cbn. left.
    destruct Hinv as [(t & Hjs & Ht)|Hs].
    + unfold job_status in Hjs. unfold jobs_of in Hfind. rewrite Hfind in Hjs.
      cbn in Hjs. injection Hjs as <-. unfold updated.
      destruct (String.eqb (j_id r0) job); eexists; (split; [done|]); [by left|done].
    + assert (Hjob : job = j) by (by inversion Hs). rewrite Hjob.
      unfold updated. rewrite Hid0, String.eqb_refl.
      eexists. split; [done|]. by left.
  - pose proof (IndexFile_jobs (goldie v) path (world v)) as Hjobs.
    pose proof (IndexFile_no_faults (goldie v) path (world v) Hf) as Hfaults.
    destruct (IndexFile_Done (goldie v) path (world v) HS HO (HT path)) as [a Ha].
    destruct (Goldie.IndexFile (goldie v) path (world v)) as [answer w'].
    injection Hcall as <-. cbn in *. subst answer.
    unfold Goldie.same_jobs in Hjobs. cbn in Hjobs.
    unfold jobs_of, job_status in *. cbn. rewrite Hjobs.
    split; [done|]. split; [done|]. split; [done|].
    destruct Hinv as [?|Hs]; [by left|right]. by inversion Hs.
  - injection Hcall as <-. cbn. split; [done|]. split; [done|]. split; [done|].
    destruct Hinv as [?|Hs]; [by left|right]. by inversion Hs.
  - destruct (decide (id ∈ used v)); [done|].
    pose proof (EnqueueIndexFileWithParent_rows id path parentID
                  (Goldie.store (world v))) as Hrows.
    assert (Hfaults : faults (EnqueueIndexFileWithParent id path parentID
                                (Goldie.store (world v))).2 = []).
    { unfold EnqueueIndexFileWithParent.
      destruct (marshal_file_params _) as [params|e]; [|done].
      unfold bind at 1, CreateJobWithParent, bind, now.
      pose proof (db_Exec_no_faults
        (insert_job id JobTypeIndexFile params (Some parentID)
           (clock (Goldie.store (world v)))) (Goldie.store (world v)) Hf) as Hx.
      by destruct (db_Exec _ (Goldie.store (world v))) as [[e|] s']. }
    destruct (EnqueueIndexFileWithParent id path parentID (Goldie.store (world v)))
      as [answer s'].
    injection Hcall as <-. cbn in *.
    split; [done|]. split; [done|]. unfold jobs_of, job_status in *. cbn.
    destruct Hrow as (r & Hr & Hj).
    assert (Hfind' : List.find (fun r => String.eqb (j_id r) j) (jobs (tables s'))
                     = Some r0).
    { destruct Hrows as [->|(row & -> & _)]; [done|]. by apply find_job_app. }
    split.
    + exists r. split; [|done].
      destruct Hrows as [->|(row & -> & _)]; [done|]. apply elem_of_app. by left.
    + rewrite Hfind'. rewrite Hfind in Hinv.
      destruct Hinv as [?|Hs]; [by left|right]. by inversion Hs.
Qed.

(** X20. The worker settles every job it has claimed: when the database
    refuses no statement and no call panics (chunk size from 0 to 2^62,
    overlap within 2^62, files below 2^62 bytes), then, however the directory
    scan and the creation of the child jobs turn out, once the worker has run
    the program of a claimed job to its end the job is completed or failed.
    It is never left processing. *)
Theorem worker_settles_job job (v v' : Server) es :
  0 <= Goldie.chunkSize (goldie v) <= 2 ^ 62 ->
  Z.abs (Goldie.chunkOverlap (goldie v)) <= 2 ^ 62 ->
  (forall path content,
     Goldie.ReadFile path = Ok content -> GoString.len content < 2 ^ 62) ->
  worker v = dispatch job ->
  faults (Goldie.store (world v)) = [] ->
  (exists r, r ∈ jobs_of v /\ j_id r = JobID job) ->
  Forall (fun e => exists scanned id, e = Call scanned id) es ->
  run_events es v = Some v' -> worker v' = Halt ->
  exists t, job_status v' (JobID job) = Some t /\ terminal t.
Proof.
  intros HS HO HT Hw Hf Hrow Hes Hrun Hhalt.
  assert (Hinv : (exists t, job_status v (JobID job) = Some t /\ terminal t) \/
                 settles (JobID job) (worker v)).
  { right. rewrite Hw. apply dispatch_settles. }
  clear Hw. revert v HS HO Hf Hrow Hinv Hrun.
  induction es as [|e es IH]; intros v HS HO Hf Hrow Hinv; cbn.
  - intros [= <-]. destruct Hinv as [?|Hs]; [done|].
    rewrite Hhalt in Hs. inversion Hs.
  - apply Forall_cons in Hes as [(scanned & id & ->) Hes]. cbn [step].
    destruct (call scanned id v) as [v1|] eqn:Hcall; [|done].
    destruct (call_settles scanned id v v1 (JobID job) HS HO HT Hcall Hf Hrow Hinv)
      as (Hg & Hf1 & Hrow1 & Hinv1).
    apply IH; auto; by rewrite Hg.
Qed.

End worker_settles.

(** X18, witness: a file job is enqueued, claimed and processed on a new
    database. *)
Lemma server_statuses_known_witness :
  let play := Queue.run_events (H := ascii_runtime) (H0 := toy_embedder)
               (H1 := toy_files) (H2 := toy_json) in
  let es := [Queue.EnqueueFile "job-1" "/tmp/a.txt"; Queue.Poll;
             Queue.Call (Store.Ok []) ""; Queue.Call (Store.Ok []) ""] in
  let v := default toy_server (play es toy_server) in
  Forall (fun r => Queue.known_status (Store.j_status r)) (Queue.jobs_of toy_server) /\
  play es toy_server = Some v /\
  Forall (fun r => Queue.known_status (Store.j_status r)) (Queue.jobs_of v).
Proof.
  intros play es v.
  assert (Hstart : Forall (fun r => Queue.known_status (Store.j_status r))
                     (Queue.jobs_of toy_server)) by constructor.
  assert (Hrun : play es toy_server = Some v) by (vm_compute; reflexivity).
  exact (conj Hstart (conj Hrun
    (@server_statuses_known ascii_runtime toy_embedder toy_files toy_json
       toy_server es v Hstart Hrun))).
Defined.

(** X20, witness: the file job of the first scenario, from its claim to the
    end of its program. *)
Lemma worker_settles_job_witness :
  let play := Queue.run_events (H := ascii_runtime) (H0 := toy_embedder)
               (H1 := toy_files) (H2 := toy_json) in
  let v := default toy_server
             (play [Queue.EnqueueFile "job-1" "/tmp/a.txt"; Queue.Poll] toy_server) in
  let job := {| Store.JobID := "job-1"; Store.JobType := "index_file";
                Store.Status := "processing"; Store.Params := "/tmp/a.txt";
                Store.Result := ""; Store.Error := ""; Store.Progress := 0;
                Store.Total := 0; Store.ParentID := ""; Store.JobCreatedAt := 0;
                Store.UpdatedAt := 0 |} in
  let es := [Queue.Call (Store.Ok []) ""; Queue.Call (Store.Ok []) "";
             Queue.Call (Store.Ok []) ""; Queue.Call (Store.Ok []) ""] in
  let v' := default v (play es v) in
  Queue.worker v = Queue.dispatch (H2 := toy_json) job /\
  play es v = Some v' /\ Queue.worker v' = Queue.Halt /\
  Queue.job_status v' "job-1" = Some "completed" /\
  exists t, Queue.job_status v' (Store.JobID job) = Some t /\ Queue.terminal t.
Proof.
  intros play v job es v'.
  assert (HS : 0 <= Goldie.chunkSize (Queue.goldie v) <= 2 ^ 62)
    by (vm_compute; split; discriminate).
  assert (HO : Z.abs (Goldie.chunkOverlap (Queue.goldie v)) <= 2 ^ 62)
    by (vm_compute; discriminate).
  assert (HT : forall path content,
    Goldie.ReadFile (FileSystem := toy_files) path = Store.Ok content ->
    GoString.len content < 2 ^ 62).
  { intros path content. cbn. destruct (String.eqb path "/tmp/a.txt"); [|discriminate].
    intros [= <-]. reflexivity. }
  assert (Hw : Queue.worker v = Queue.dispatch (H2 := toy_json) job) by reflexivity.
  assert (Hf : Store.faults (Goldie.store (Queue.world v)) = []) by reflexivity.
  assert (Hrow : exists r, r ∈ Queue.jobs_of v /\ Store.j_id r = Store.JobID job).
  { eexists. split; [left|reflexivity]. }
  assert (Hes : Forall (fun e => exists scanned id, e = Queue.Call scanned id) es)
    by (repeat constructor; eauto).
  assert (Hrun : play es v = Some v') by (vm_compute; reflexivity).
  assert (Hhalt : Queue.worker v' = Queue.Halt) by (vm_compute; reflexivity).
  assert (Hdone : Queue.job_status v' "job-1" = Some "completed")
    by (vm_compute; reflexivity).
  exact (conj Hw (conj Hrun (conj Hhalt (conj Hdone
    (@worker_settles_job ascii_runtime toy_embedder toy_files toy_json
       job v v' es HS HO HT Hw Hf Hrow Hes Hrun Hhalt))))).
Defined.

(** * The queue: from the request to the worker *)

Section enqueue_dispatch.
Context `{GoRuntime} `{Goldie.Embedder} `{Goldie.FileSystem} `{Queue.Json}.
Import Store Queue.

(** What [CreateJob] leaves for [GetJob]. *)
Lemma CreateJob_reads_back id jobType params s s' :
  CreateJob id jobType params s = (None, s') ->
  (GetJob id s').1
    = Ok (Some {| JobID := id; JobType := jobType; Status := JobStatusQueued;
                  Params := params; Result := ""; Error := ""; Progress := 0;
                  Total := 0; ParentID := ""; JobCreatedAt := clock s;
                  UpdatedAt := clock s |}).
Proof.
  intros Hrun. pose proof (insert_job_outcome id jobType params None s) as Hout.
  revert Hrun. unfold CreateJob. unfold bind at 1. unfold bind at 1 in Hout.
  destruct (now s) as [ts s0]. unfold bind at 1. cbn beta in Hout.
  destruct (db_Exec _ s0) as [[e|] s1]; [done|]. intros [= <-].
  destruct Hout as [[Hfresh Ht] _]. unfold GetJob. rewrite Ht. cbn.
  by rewrite find_job_fresh.
Qed.

(** X21. A request reaches the worker as it was made. Given that the JSON
    decoder reads back the parameters that the encoder has written: a job
    that [EnqueueIndexFile]
    has created for a path is queued with type [index_file], and the program
    that the worker runs for it, once claimed, updates the progress to 0 of 1
    and then calls [IndexFile] on that same path; a job that
    [EnqueueIndexDirectory] has created is queued with type
    [index_directory], and its program scans that directory with that
    pattern and that recursion flag. *)
Theorem enqueued_job_is_processed id s :
  (forall path id' s',
     (forall params, marshal_file_params {| Path := path |} = Ok params ->
                     unmarshal_file_params params = Ok {| Path := path |}) ->
     EnqueueIndexFile id path s = (Ok id', s') ->
     id' = id /\
     exists job, (GetJob id s').1 = Ok (Some job) /\
       Status job = JobStatusQueued /\ JobType job = JobTypeIndexFile /\
       exists k, dispatch (with_status job JobStatusProcessing)
                 = DoUpdateProgress id 0 1 (DoIndexFile path k)) /\
  (forall directory pattern recursive id' s',
     (forall params,
        marshal_dir_params {| Directory := directory; Pattern := pattern;
                              Recursive := recursive |} = Ok params ->
        unmarshal_dir_params params
          = Ok {| Directory := directory; Pattern := pattern;
                  Recursive := recursive |}) ->
     EnqueueIndexDirectory id directory pattern recursive s = (Ok id', s') ->
     id' = id /\
     exists job, (GetJob id s').1 = Ok (Some job) /\
       Status job = JobStatusQueued /\ JobType job = JobTypeIndexDir /\
       exists k, dispatch (with_status job JobStatusProcessing)
                 = DoScanDirectory directory pattern recursive k).
Proof.
  split.
  - intros path id' s' Hfile. unfold EnqueueIndexFile.
    destruct (marshal_file_params {| Path := path |}) as [params|e] eqn:Hm; [|done].
    unfold bind.
    destruct (CreateJob id JobTypeIndexFile params s) as [[e|] s1] eqn:Hc; [done|].
    intros [= <- <-]. split; [done|].
    eexists. split; [by eapply CreateJob_reads_back|]. split; [done|]. split; [done|].
    unfold dispatch, processIndexFile. cbn. rewrite (Hfile _ eq_refl). cbn.
    by eexists.
  - intros directory pattern recursive id' s' Hdir. unfold EnqueueIndexDirectory.
    destruct (marshal_dir_params _) as [params|e] eqn:Hm; [|done].
    unfold bind.
    destruct (CreateJob id JobTypeIndexDir params s) as [[e|] s1] eqn:Hc; [done|].
    intros [= <- <-]. split; [done|].
    eexists. split; [by eapply CreateJob_reads_back|]. split; [done|]. split; [done|].
    unfold dispatch, processIndexDirectory. cbn. rewrite (Hdir _ eq_refl). cbn.
    by eexists.
Qed.

End enqueue_dispatch.

(** * The handlers of the job tools *)

Section job_tools.
Context `{Queue.Json}.
Import Store Queue Main.

(** What an enqueue leaves behind. *)
Lemma CreateJob_outcome id jobType params s :
  let '(err, s') := CreateJob id jobType params s in
  match err with
  | None =>
      (GetJob id s').1
        = Ok (Some {| JobID := id; JobType := jobType; Status := JobStatusQueued;
                      Params := params; Result := ""; Error := ""; Progress := 0;
                      Total := 0; ParentID := ""; JobCreatedAt := clock s;
                      UpdatedAt := clock s |})
  | Some _ => tables s' = tables s
  end.
Proof.
  pose proof (insert_job_outcome id jobType params None s) as Hout.
  unfold CreateJob. unfold bind at 1. unfold bind at 1 in Hout.
  destruct (now s) as [ts s0]. unfold bind at 1. cbn beta in Hout.
  destruct (db_Exec _ s0) as [[e|] s1]; destruct Hout as [Hout _]; cbn; [done|].
  destruct Hout as [Hfresh Ht]. unfold GetJob. rewrite Ht. cbn.
  by rewrite find_job_fresh.
Qed.

(** X22. The tools index_file and index_directory queue a job or change
    nothing. Without a path (a directory), or with an empty one, they answer
    "path is required" ("directory is required") and leave the store as it
    is. When they answer with a JSON response, its [job_id] is the new id and
    names a queued job of type [index_file] ([index_directory]) in the table;
    for index_directory the response carries the pattern, "*" when none or
    an empty one was given, and the recursion flag, false when none was
    given. Every other answer is an error and leaves the tables as they
    were. *)
Theorem handleIndexFile_queues_job (arguments : gmap string value) id s :
  (let '(res, s') := handleIndexFile arguments id s in
   (string_argument arguments "path" = "" ->
      res = ToolError "path is required" /\ s' = s) /\
   match res with
   | ToolJSON response =>
       response !! "job_id" = Some (FString id) /\
       response !! "path" = Some (FString (string_argument arguments "path")) /\
       exists job, (GetJob id s').1 = Ok (Some job) /\
         Status job = JobStatusQueued /\ JobType job = JobTypeIndexFile
   | ToolError _ => tables s' = tables s
   | ToolText _ => False
   end) /\
  (let '(res, s') := handleIndexDirectory arguments id s in
   (string_argument arguments "directory" = "" ->
      res = ToolError "directory is required" /\ s' = s) /\
   match res with
   | ToolJSON response =>
       response !! "job_id" = Some (FString id) /\
       response !! "directory"
         = Some (FString (string_argument arguments "directory")) /\
       response !! "pattern"
         = Some (FString (if String.eqb (string_argument arguments "pattern") ""
                          then "*" else string_argument arguments "pattern")) /\
       response !! "recursive"
         = Some (FBool match arguments !! "recursive" with
                       | Some (VBool r) => r
                       | _ => false
                       end) /\
       exists job, (GetJob id s').1 = Ok (Some job) /\
         Status job = JobStatusQueued /\ JobType job = JobTypeIndexDir
   | ToolError _ => tables s' = tables s
   | ToolText _ => False
   end).
Proof.
  split.
  - unfold handleIndexFile.
    destruct (String.eqb_spec (string_argument arguments "path") "") as [Hp|Hp];
      [by rewrite Hp|].
    unfold bind at 1, EnqueueIndexFile.
    destruct (marshal_file_params _) as [params|e]; [|by cbn].
    unfold bind at 1.
    pose proof (CreateJob_outcome id JobTypeIndexFile params s) as Hout.
    destruct (CreateJob id JobTypeIndexFile params s) as [[e|] s1]; cbn; [done|].
    split; [done|]. split; [done|]. split; [done|]. eexists. split; [exact Hout|done].
  - unfold handleIndexDirectory.
    destruct (String.eqb_spec (string_argument arguments "directory") "") as [Hp|Hp];
      [by rewrite Hp|].
    unfold bind at 1, EnqueueIndexDirectory.
    destruct (marshal_dir_params _) as [params|e]; [|by cbn].
    unfold bind at 1.
    pose proof (CreateJob_outcome id JobTypeIndexDir params s) as Hout.
    destruct (CreateJob id JobTypeIndexDir params s) as [[e|] s1]; cbn; [done|].
    split; [done|]. split; [done|]. split; [done|]. split; [done|]. split; [done|].
    eexists. split; [exact Hout|done].
Qed.

(** X23. The tool clear_queue deletes jobs by status or changes nothing.
    Without a status, or with one that is not "queued", "completed",
    "failed" or "all" ("processing" is not accepted), it answers with an
    error and leaves the store as it is. Otherwise a JSON response reports
    the number of jobs deleted, which are exactly the jobs with that status
    (all jobs for "all"). Whatever the arguments, a job that is being
    processed stays in the table unless the status given is "all". *)
Theorem handleClearQueue_clears (arguments : gmap string value) s :
  let status := string_argument arguments "status" in
  let '(res, s') := handleClearQueue arguments s in
  (valid_clear status = false -> (exists msg, res = ToolError msg) /\ s' = s) /\
  match res with
  | ToolJSON response =>
      valid_clear status = true /\
      jobs (tables s')
        = (if String.eqb status "all" then []
           else filter (fun r => j_status r <> status) (jobs (tables s))) /\
      response !! "deleted"
        = Some (FInt (Z.of_nat (length (jobs (tables s)))
                      - Z.of_nat (length (jobs (tables s')))))
  | ToolError _ => tables s' = tables s
  | ToolText _ => False
  end /\
  (status <> "all" ->
   forall r, r ∈ jobs (tables s) -> j_status r = JobStatusProcessing ->
             r ∈ jobs (tables s')).
Proof.
  cbn zeta. unfold handleClearQueue.
  generalize (string_argument arguments "status"). intros status.
  destruct (String.eqb_spec status "") as [He|He].
  { subst status. split; [eauto|]. done. }
  destruct (valid_clear status) eqn:Hvalid; cbn [negb].
  2:{ split; [eauto|]. done. }
  unfold bind at 1.
  assert (Hkeep : status <> "all" ->
    forall l, l = filter (fun r => j_status r <> status) (jobs (tables s)) ->
      forall r, r ∈ jobs (tables s) -> j_status r = JobStatusProcessing -> r ∈ l).
  { intros Hall l -> r Hr Hst. apply list_elem_of_filter.
    split; [|done]. rewrite Hst. intros <-. done. }
  unfold DeleteJobs, db_Exec, bind, next_fault, ret, delete_jobs.
  destruct s as [dims t p fs clk]. cbn in *.
  assert (Hlen : Z.of_nat (length (jobs t))
                 - Z.of_nat (length (filter (fun r => j_status r <> status) (jobs t)))
                 = Z.of_nat (length (jobs t)
                             - length (filter (fun r => j_status r <> status) (jobs t)))).
  { pose proof (length_filter (fun r => j_status r <> status) (jobs t)). lia. }
  destruct fs as [|[] fs]; cbn.
  - destruct (String.eqb_spec status "all") as [Ha|Ha]; cbn.
    + split; [done|]. split; [|done]. split; [done|]. split; [done|].
      replace (Z.of_nat (length (jobs t)) - Z.of_nat 0)
        with (Z.of_nat (length (jobs t) - 0)) by lia.
      done.
    + split; [done|]. split.
      * split; [done|]. split; [done|]. by rewrite Hlen.
      * intros _. by apply Hkeep.
  - split; [done|]. split; [done|]. done.
  - destruct (String.eqb_spec status "all") as [Ha|Ha]; cbn.
    + split; [done|]. split; [|done]. split; [done|]. split; [done|].
      replace (Z.of_nat (length (jobs t)) - Z.of_nat 0)
        with (Z.of_nat (length (jobs t) - 0)) by lia.
      done.
    + split; [done|]. split.
      * split; [done|]. split; [done|]. by rewrite Hlen.
      * intros _. by apply Hkeep.
Qed.

End job_tools.

(** * The handler of list_files *)

Section list_files.
Import Store Main.

(** The number of documents that are listed under a source. *)
Lemma listed_cons src d (l : list Document) :
  length (filter (fun d => listed_source d = src) (d :: l))
    = (length (filter (fun d => listed_source d = src) l)
       + (if decide (listed_source d = src) then 1 else 0))%nat.
Proof. rewrite filter_cons. destruct (decide (listed_source d = src)); cbn; lia. Qed.

Lemma listed_snoc src d (l : list Document) :
  length (filter (fun d => listed_source d = src) (l ++ [d]))
    = (length (filter (fun d => listed_source d = src) l)
       + (if decide (listed_source d = src) then 1 else 0))%nat.
Proof.
  rewrite filter_app, length_app, filter_cons, filter_nil.
  destruct (decide (listed_source d = src)); cbn; lia.
Qed.

(** The file set after the documents [seen]: one entry for each source,
    with the number of documents seen under it. *)
Lemma add_files_counts (rest : list Document) : forall seen fileSet,
  Z.of_nat (length (seen ++ rest)) <= GoInt.max_int ->
  (forall src,
     match fileSet !! src with
     | Some entry =>
         Source entry = src /\
         ChunkCount entry
           = Z.of_nat (length (filter (fun d => listed_source d = src) seen)) /\
         0 < ChunkCount entry
     | None => filter (fun d => listed_source d = src) seen = []
     end) ->
  forall src,
    match foldl add_file fileSet rest !! src with
    | Some entry =>
        Source entry = src /\
        ChunkCount entry
          = Z.of_nat (length (filter (fun d => listed_source d = src) (seen ++ rest))) /\
        0 < ChunkCount entry
    | None => filter (fun d => listed_source d = src) (seen ++ rest) = []
    end.
Proof.
  induction rest as [|d rest IH]; intros seen fileSet Hmax Hinv; cbn [foldl].
  - by rewrite app_nil_r.
  - replace (seen ++ d :: rest) with ((seen ++ [d]) ++ rest) in *
      by (by rewrite <- app_assoc).
    apply IH; [done|]. intros src. unfold add_file.
    pose proof (Hinv (listed_source d)) as Hd. pose proof (Hinv src) as Hs.
    assert (Hlen : (length (filter (fun x => listed_source x = listed_source d) seen)
                    <= length seen)%nat) by apply length_filter.
    rewrite !length_app in Hmax. cbn in Hmax.
    destruct (fileSet !! listed_source d) as [entry|] eqn:Hentry.
    + destruct Hd as (Hsrc & Hcount & Hpos).
      assert (Hadd : GoInt.add (ChunkCount entry) 1 = ChunkCount entry + 1).
      { apply wrap_small. unfold GoInt.in_range, GoInt.min_int, GoInt.max_int in *.
        lia. }
      rewrite Hadd. destruct (decide (listed_source d = src)) as [<-|Hne].
      * rewrite lookup_insert_eq. cbn. rewrite listed_snoc, decide_True by done.
        split; [done|]. split; lia.
      * rewrite lookup_insert_ne by done. rewrite listed_snoc, decide_False by done.
        rewrite Nat.add_0_r.
        destruct (fileSet !! src) as [e|]; [done|].
        rewrite filter_app, Hs, filter_cons, decide_False by done. done.
    + destruct (decide (listed_source d = src)) as [<-|Hne].
      * rewrite lookup_insert_eq. cbn. rewrite listed_snoc, decide_True by done.
        rewrite Hd. cbn. split; [done|]. split; lia.
      * rewrite lookup_insert_ne by done. rewrite listed_snoc, decide_False by done.
        rewrite Nat.add_0_r.
        destruct (fileSet !! src) as [e|]; [done|].
        rewrite filter_app, Hs, filter_cons, decide_False by done. done.
Qed.

Lemma sum_counts_by_cons d (l : list Document) keys :
  NoDup keys ->
  foldr Z.add 0 ((fun k => Z.of_nat (length (filter (fun d => listed_source d = k)
                                                (d :: l)))) <$> keys)
    = foldr Z.add 0 ((fun k => Z.of_nat (length (filter (fun d => listed_source d = k) l)))
                       <$> keys)
      + (if decide (listed_source d ∈ keys) then 1 else 0).
Proof.
  induction 1 as [|k keys Hnotin Hnd IH]; cbn [fmap list_fmap foldr].
  - destruct (decide (listed_source d ∈ [])) as [Hin|]; [by apply elem_of_nil in Hin|lia].
  - rewrite IH, listed_cons.
    destruct (decide (listed_source d = k)) as [->|Hne].
    + destruct (decide (k ∈ keys)); [done|].
      destruct (decide (k ∈ k :: keys)) as [|Hout]; [lia|]. destruct Hout. left.
    + destruct (decide (listed_source d ∈ keys)) as [Hin|Hout].
      * destruct (decide (listed_source d ∈ k :: keys)) as [|Hout]; [lia|].
        destruct Hout. by right.
      * destruct (decide (listed_source d ∈ k :: keys)) as [Hin|]; [|lia].
        apply elem_of_cons in Hin as [?|?]; done.
Qed.

(** Counting source by source counts every document whose source is among
    the sources. *)
Lemma sum_counts_by (l : list Document) keys :
  NoDup keys -> (forall d, d ∈ l -> listed_source d ∈ keys) ->
  foldr Z.add 0 ((fun k => Z.of_nat (length (filter (fun d => listed_source d = k) l)))
                   <$> keys)
    = Z.of_nat (length l).
Proof.
  intros Hnd. induction l as [|d l IH]; intros Hin.
  - clear Hin. induction keys as [|k keys IHk]; [done|].
    cbn [fmap list_fmap foldr].
    rewrite IHk by by apply NoDup_cons in Hnd as [_ ?]. done.
  - rewrite sum_counts_by_cons, IH by (done || (intros x Hx; apply Hin; by right)).
    rewrite decide_True by (apply Hin; left). cbn [length]. lia.
Qed.

(** X24. The tool list_files groups the documents by source. With no
    document it answers with the text "No files indexed". Otherwise it lists
    one file for each source under which a document is stored (the metadata
    [source], or the id for a document without one), each source once, with
    [chunk_count] the number of documents under that source; [count] is the
    number of files, and the chunk counts add up to the number of documents.
    The store is unchanged. (The store holds fewer than 2^63 documents.) *)
Theorem handleListFiles_counts s :
  Z.of_nat (size (documents (tables s))) <= GoInt.max_int ->
  exists docs, (ListDocuments s).1 = Ok docs /\
  let '(res, s') := handleListFiles s in
  s' = s /\
  match res with
  | FilesError _ => False
  | FilesText text => docs = [] /\ text = formatMessage "No files indexed"
  | FilesJSON count files message =>
      count = Z.of_nat (length files) /\
      NoDup (Source <$> files) /\
      (forall src, src ∈ Source <$> files <-> exists d, d ∈ docs /\ listed_source d = src) /\
      Forall (fun f => ChunkCount f
                       = Z.of_nat (length (filter (fun d => listed_source d = Source f)
                                             docs))) files /\
      foldr Z.add 0 (ChunkCount <$> files) = Z.of_nat (length docs)
  end.
Proof.
  intros Hmax. unfold handleListFiles, bind.
  destruct (ListDocuments s) as [r s0] eqn:Hlist.
  assert (Hdocs : exists docs, r = Ok docs /\ s0 = s /\ length docs = size (documents (tables s))).
  { revert Hlist. unfold ListDocuments. intros [= <- <-]. eexists. split; [done|].
    split; [done|]. by rewrite merge_sort_Permutation, length_fmap, length_map_to_list. }
  destruct Hdocs as (docs & -> & -> & Hlen). exists docs. split; [done|].
  destruct (Z.eqb_spec (Z.of_nat (length docs)) 0) as [Hz|Hnz]; cbn.
  { split; [done|]. split; [|done]. destruct docs; [done|]. cbn in Hz. lia. }
  split; [done|]. split; [done|].
  set (fileSet := foldl add_file ∅ docs).
  assert (Hinv : forall src,
    match fileSet !! src with
    | Some entry =>
        Source entry = src /\
        ChunkCount entry
          = Z.of_nat (length (filter (fun d => listed_source d = src) docs)) /\
        0 < ChunkCount entry
    | None => filter (fun d => listed_source d = src) docs = []
    end).
  { intros src. apply (add_files_counts docs [] ∅); [cbn; lia|].
    intros k. by rewrite lookup_empty. }
  assert (Hkeys : Source <$> (map_to_list fileSet).*2 = (map_to_list fileSet).*1).
  { apply list_eq. intros i. rewrite !list_lookup_fmap.
    destruct (map_to_list fileSet !! i) as [[k e]|] eqn:Hi; [|done]. cbn.
    apply list_elem_of_lookup_2, elem_of_map_to_list in Hi.
    specialize (Hinv k). rewrite Hi in Hinv. by destruct Hinv as [-> _]. }
  assert (Hmem : forall src, src ∈ (map_to_list fileSet).*1 <->
                             exists d, d ∈ docs /\ listed_source d = src).
  { intros src. rewrite list_elem_of_fmap. specialize (Hinv src). split.
    - intros ([k e] & -> & Hin). apply elem_of_map_to_list in Hin. cbn in *.
      rewrite Hin in Hinv. destruct Hinv as (_ & Hcount & Hpos).
      destruct (filter (fun d => listed_source d = k) docs) as [|d l] eqn:Hf;
        [cbn in Hcount; lia|].
      assert (Hd : d ∈ filter (fun d => listed_source d = k) docs)
        by (rewrite Hf; left).
      apply list_elem_of_filter in Hd as [? ?]. eauto.
    - intros (d & Hd & Hsrc). destruct (fileSet !! src) as [e|] eqn:He.
      + exists (src, e). split; [done|]. by apply elem_of_map_to_list.
      + assert (Hin : d ∈ filter (fun d => listed_source d = src) docs)
          by (by apply list_elem_of_filter).
        rewrite Hinv in Hin. by apply elem_of_nil in Hin. }
  assert (Hcounts : Forall (fun f => ChunkCount f
    = Z.of_nat (length (filter (fun d => listed_source d = Source f) docs)))
    (map_to_list fileSet).*2).
  { apply Forall_fmap, Forall_forall. intros [k e] Hin.
    apply elem_of_map_to_list in Hin. specialize (Hinv k). rewrite Hin in Hinv.
    cbn. by destruct Hinv as (-> & -> & _). }
  split; [by rewrite Hkeys; apply NoDup_fst_map_to_list|].
  split; [intros src; by rewrite Hkeys|]. split; [done|].
  assert (Heq : ChunkCount <$> (map_to_list fileSet).*2
    = (fun k => Z.of_nat (length (filter (fun d => listed_source d = k) docs)))
        <$> (Source <$> (map_to_list fileSet).*2)).
  { rewrite <- (list_fmap_compose Source). by apply Forall_fmap_ext_1. }
  rewrite Heq, Hkeys. apply sum_counts_by.
  - apply NoDup_fst_map_to_list.
  - intros d Hd. apply Hmem. eauto.
Qed.

End list_files.

(** X21, witness: a file job enqueued on a new database. *)
Lemma enqueued_job_is_processed_witness :
  let s := Store.New None 3 [] 0 in
  let s' := (Queue.EnqueueIndexFile (H2 := toy_json) "job-1" "/tmp/a.txt" s).2 in
  Queue.EnqueueIndexFile (H2 := toy_json) "job-1" "/tmp/a.txt" s = (Store.Ok "job-1", s') /\
  exists job, (Store.GetJob "job-1" s').1 = Store.Ok (Some job) /\
    Store.Status job = Store.JobStatusQueued /\
    Store.JobType job = Store.JobTypeIndexFile /\
    exists k, Queue.dispatch (H2 := toy_json)
                (Store.with_status job Store.JobStatusProcessing)
              = Queue.DoUpdateProgress "job-1" 0 1 (Queue.DoIndexFile "/tmp/a.txt" k).
Proof.
  intros s s'.
  assert (Hrun : Queue.EnqueueIndexFile (H2 := toy_json) "job-1" "/tmp/a.txt" s
                 = (Store.Ok "job-1", s')) by reflexivity.
  assert (Hjson : forall params,
    Queue.marshal_file_params (Json := toy_json) {| Queue.Path := "/tmp/a.txt" |}
      = Store.Ok params ->
    Queue.unmarshal_file_params (Json := toy_json) params
      = Store.Ok {| Queue.Path := "/tmp/a.txt" |}).
  { intros params [= <-]. reflexivity. }
  exact (conj Hrun (proj2 (proj1 (@enqueued_job_is_processed toy_json "job-1" s)
                             "/tmp/a.txt" "job-1" s' Hjson Hrun))).
Defined.

(** X24, witness: two chunks of one file and a note without a source. *)
Lemma handleListFiles_counts_witness :
  let meta := Some ({[ "source" := "/tmp/a.txt"; "filename" := "a.txt" ]}
                    : gmap string string) in
  let s0 := Store.New None 3 [] 0 in
  let s1 := (Store.AddDocument "a.txt_chunk_0" "one" meta [0; 0; 0] s0).2 in
  let s2 := (Store.AddDocument "a.txt_chunk_1" "two" meta [0; 0; 0] s1).2 in
  let s := (Store.AddDocument "note" "three" None [0; 0; 0] s2).2 in
  Z.of_nat (size (Store.documents (Store.tables s))) <= GoInt.max_int /\
  match (Main.handleListFiles s).1 with
  | Main.FilesJSON count files message =>
      count = 2 /\ foldr Z.add 0 (Main.ChunkCount <$> files) = 3
  | _ => False
  end.
Proof.
  intros meta s0 s1 s2 s.
  assert (Hmax : Z.of_nat (size (Store.documents (Store.tables s))) <= GoInt.max_int)
    by (vm_compute; discriminate).
  destruct (handleListFiles_counts s Hmax) as (docs & Hdocs & Hfiles).
  assert (Hlen : length docs = 3%nat).
  { assert (Hl : exists l, (Store.ListDocuments s).1 = Store.Ok l /\ length l = 3%nat)
      by (eexists; split; [vm_compute; reflexivity|reflexivity]).
    destruct Hl as (l & Hl & Hn). rewrite Hdocs in Hl. injection Hl as ->. exact Hn. }
  assert (Hcount : match (Main.handleListFiles s).1 with
                   | Main.FilesJSON count files message => count = 2
                   | _ => False
                   end) by (vm_compute; reflexivity).
  destruct (Main.handleListFiles s) as [[msg|text|count files message] s'];
    cbn in Hcount |- *; try contradiction.
  destruct Hfiles as (_ & _ & _ & _ & _ & Hsum). rewrite Hlen in Hsum.
  exact (conj Hmax (conj Hcount Hsum)).
Defined.

(** ** Skip patterns *)

Section string_parts.
#[local] Arguments String.append !_ _ /.

Lemma append_assoc (a b c : string) :
  String.append (String.append a b) c = String.append a (String.append b c).
Proof. induction a as [|x a IH]; cbn; [done|]. by rewrite IH. Qed.

Lemma prefix_parts (p s : string) :
  String.prefix p s = true <-> exists t, s = String.append p t.
Proof.
  revert s. induction p as [|x p IH]; intros s.
  - split; [|by destruct s]. intros _. by exists s.
  - destruct s as [|y s]; [split; [done|by intros [t Ht]]|].
    unfold String.prefix; fold String.prefix. cbn.
    destruct (Ascii.ascii_dec x y) as [->|Hne].
    + rewrite IH. split; intros [t Ht]; exists t; [by rewrite Ht|congruence].
    + split; [done|]. intros [t Ht]. congruence.
Qed.

Lemma Contains_parts (s sub : string) :
  Goldie.Contains s sub = true <->
  exists a b, s = String.append a (String.append sub b).
Proof.
  induction s as [|x s IH]; cbn [Goldie.Contains].
  - rewrite orb_false_r, prefix_parts. split.
    + intros [t Ht]. by exists EmptyString, t.
    + intros (a & b & Hs). destruct a; [by exists b|done].
  - rewrite orb_true_iff, IH, prefix_parts. split.
    + intros [[t Ht]|(a & b & Hs)].
      * by exists EmptyString, t.
      * exists (String x a), b. cbn. by rewrite Hs.
    + intros (a & b & Hs). destruct a as [|y a].
      * left. by exists b.
      * right. exists a, b. cbn in Hs. congruence.
Qed.

Lemma HasSuffix_slash_parts (s : string) :
  Goldie.HasSuffix_slash s = true <-> exists d, s = String.append d "/".
Proof.
  induction s as [|x s IH].
  - split; [done|]. intros [d Hd]. by destruct d.
  - destruct s as [|y s].
    + cbn. rewrite Ascii.eqb_eq. split.
      * intros ->. by exists EmptyString.
      * intros [d Hd]. destruct d as [|z d]; [cbn in Hd; congruence|].
        cbn in Hd. destruct d; cbn in Hd; congruence.
    + change (Goldie.HasSuffix_slash (String x (String y s)))
        with (Goldie.HasSuffix_slash (String y s)).
      rewrite IH. split.
      * intros [d Hd]. exists (String x d). cbn. by rewrite Hd.
      * intros [d Hd]. destruct d as [|z d]; [cbn in Hd; congruence|].
        exists d. cbn in Hd. congruence.
Qed.

End string_parts.

Section skip_patterns.
Context `{GoRuntime} `{Goldie.FilePath}.
#[local] Arguments String.append !_ _ /.

Ltac flatten_appends :=
  repeat (progress (rewrite ?append_assoc; cbn [String.append])).

(** A pattern that ends in a slash skips no path that is clean. *)
Lemma skips_slash_pattern (path relPath pattern : string) :
  (forall p name, Goldie.HasSuffix_slash p = true ->
     Goldie.Match p name = Store.Ok true -> Goldie.HasSuffix_slash name = true) ->
  Goldie.HasSuffix_slash (Base path) = false ->
  Goldie.Contains (String.append "/" (String.append relPath "/")) "//" = false ->
  Goldie.HasSuffix_slash pattern = true ->
  Goldie.skips path relPath pattern = false.
Proof.
  intros Hmatch Hbase Hclean Hp.
  assert (Hname : forall name, Goldie.HasSuffix_slash name = false ->
            Goldie.matched pattern name = false).
  { intros name Hn. unfold Goldie.matched.
    destruct (Goldie.Match pattern name) as [[|]|] eqn:Hm; try done.
    apply Hmatch in Hm; [congruence|done]. }
  assert (Hrel : Goldie.HasSuffix_slash relPath = false).
  { destruct (Goldie.HasSuffix_slash relPath) eqn:Hr; [|done].
    apply HasSuffix_slash_parts in Hr as [d ->].
    rewrite <- Hclean. symmetry. apply Contains_parts.
    exists (String "/" d), EmptyString. cbn. by rewrite append_assoc. }
  assert (Hno : forall a b, relPath <> String.append a (String.append "//" b)).
  { intros a b ->. rewrite <- not_true_iff_false in Hclean. apply Hclean.
    apply Contains_parts. exists (String "/" a), (String.append b "/").
    cbn. by rewrite !append_assoc. }
  apply HasSuffix_slash_parts in Hp as [d ->].
  unfold Goldie.skips. rewrite !Hname by done. cbn [orb].
  apply not_true_iff_false. rewrite !orb_true_iff.
  unfold Goldie.HasPrefix. rewrite !Contains_parts, !prefix_parts.
  intros [[Hcut|(a & b & Hr)]|[t Hr]].
  - destruct (Goldie.CutPrefix_slash (String.append d "/")) as [dirPattern|] eqn:Hc;
      [|done].
    assert (Hd : String.append d "/" = String "/" dirPattern).
    { unfold Goldie.CutPrefix_slash in Hc.
      destruct (String.append d "/") as [|x r]; [done|].
      destruct x as [[] [] [] [] [] [] [] []]; try done. by injection Hc as ->. }
    destruct d as [|x d].
    + cbn in Hd. injection Hd as <-. cbn in Hcut.
      rewrite orb_true_iff, Contains_parts, prefix_parts in Hcut.
      destruct Hcut as [[t Hr]|(a & b & Hr)].
      * rewrite <- not_true_iff_false in Hclean. apply Hclean.
        apply Contains_parts. exists EmptyString, (String.append t "/").
        rewrite Hr. cbn. done.
      * by apply (Hno a b).
    + cbn in Hd. injection Hd as -> <-.
      rewrite orb_true_iff, Contains_parts, prefix_parts in Hcut.
      destruct Hcut as [[t Hr]|(a & b & Hr)].
      * apply (Hno d t). rewrite Hr. by flatten_appends.
      * apply (Hno (String.append a (String "/" d)) b).
        rewrite Hr. by flatten_appends.
  - apply (Hno (String.append a (String "/" d)) b).
    rewrite Hr. by flatten_appends.
  - apply (Hno d t). rewrite Hr. by flatten_appends.
Qed.

(** X25. Skip patterns that end in a slash have no effect. When
    [filepath.Match] lets a pattern with a final slash match only names
    with a final slash, the base name of the path has none, and its
    relative path has no empty component (no slash at either end, no two
    in a row), then [shouldSkip] answers as it does without the patterns
    that end in a slash: such a pattern is looked for with one more slash
    behind it. Of the default patterns, [node_modules/], [vendor/] and
    [__pycache__/] skip nothing. *)
Theorem shouldSkip_ignores_slash_patterns (path baseDir : string)
    (patterns : list string) :
  (forall p name, Goldie.HasSuffix_slash p = true ->
     Goldie.Match p name = Store.Ok true -> Goldie.HasSuffix_slash name = true) ->
  Goldie.HasSuffix_slash (Base path) = false ->
  Goldie.Contains
    (String.append "/"
       (String.append (match Goldie.Rel baseDir path with
                       | Store.Ok rel => rel
                       | Store.Err _ => path
                       end) "/")) "//" = false ->
  Goldie.shouldSkip path baseDir patterns =
  Goldie.shouldSkip path baseDir
    (filter (fun p => Goldie.HasSuffix_slash p = false) patterns).
Proof.
  intros Hmatch Hbase Hclean. unfold Goldie.shouldSkip.
  set (relPath := match Goldie.Rel baseDir path with
                  | Store.Ok rel => rel
                  | Store.Err _ => path
                  end) in *.
  induction patterns as [|p ps IH]; [done|].
  rewrite filter_cons. cbn [existsb].
  destruct (decide (Goldie.HasSuffix_slash p = false)) as [Hp|Hp].
  - cbn [existsb]. by rewrite IH.
  - apply not_false_iff_true in Hp.
    by rewrite (skips_slash_pattern path relPath p Hmatch Hbase Hclean Hp).
Qed.

End skip_patterns.

Lemma toy_paths_slash_patterns (p name : string) :
  Goldie.HasSuffix_slash p = true ->
  Goldie.Match (FilePath := toy_paths) p name = Store.Ok true ->
  Goldie.HasSuffix_slash name = true.
Proof.
  intros Hp Hm. cbn in Hm.
  destruct (String.eqb p "*") eqn:Hstar.
  { apply String.eqb_eq in Hstar. by subst p. }
  destruct (String.eqb p ".[!.]*") eqn:Hdot.
  { apply String.eqb_eq in Hdot. by subst p. }
  injection Hm as Hm. apply String.eqb_eq in Hm. by subst name.
Qed.

(** X25, witness: a file below [node_modules] under the default patterns. *)
Lemma shouldSkip_ignores_slash_patterns_witness :
  Goldie.shouldSkip (H := ascii_runtime) (H1 := toy_paths)
    "proj/node_modules/x.md" "proj" Goldie.defaultSkipPatterns =
  Goldie.shouldSkip (H := ascii_runtime) (H1 := toy_paths)
    "proj/node_modules/x.md" "proj" [".[!.]*"; "AGENTS.md"; "CLAUDE.md"].
Proof.
  apply (shouldSkip_ignores_slash_patterns (H := ascii_runtime) (H0 := toy_paths)
           "proj/node_modules/x.md" "proj" Goldie.defaultSkipPatterns).
  - exact toy_paths_slash_patterns.
  - reflexivity.
  - reflexivity.
Defined.

(** ** Directory scans *)

Section entry_induction.
Variable P : Goldie.entry -> Prop.
Hypothesis no_info : forall path, P (Goldie.NoInfo path).
Hypothesis regular_file : forall path, P (Goldie.RegularFile path).
Hypothesis folder : forall path readable names,
  Forall P names -> P (Goldie.Folder path readable names).

Fixpoint entry_induction (e : Goldie.entry) : P e :=
  match e with
  | Goldie.NoInfo path => no_info path
  | Goldie.RegularFile path => regular_file path
  | Goldie.Folder path readable names =>
      folder path readable names
        ((fix all (l : list Goldie.entry) : Forall P l :=
            match l with
            | [] => @List.Forall_nil _ P
            | e' :: l' => @List.Forall_cons _ P e' l' (entry_induction e') (all l')
            end) names)
  end.

End entry_induction.

Section scans.
Context `{GoRuntime} `{Goldie.FileSystem} `{Goldie.FilePath} `{Goldie.FileTree}.

(** The length test before [shouldSkip] changes nothing: without patterns
    [shouldSkip] is false. *)
Lemma skipped_shouldSkip (path dir : string) (skipPatterns : list string) :
  Goldie.skipped path dir skipPatterns = Goldie.shouldSkip path dir skipPatterns.
Proof. by destruct skipPatterns. Qed.

Lemma walk_sublist (dir pattern : string) (skipPatterns : list string)
    (e : Goldie.entry) :
  sublist (Goldie.walk dir pattern skipPatterns e) (Goldie.readable_files e).
Proof.
  induction e as [path|path|path readable names IH] using entry_induction; cbn.
  - done.
  - destruct (Goldie.skipped path dir skipPatterns); [apply sublist_nil_l|].
    destruct (Goldie.Match pattern (Base path)) as [[|]|];
      [done|apply sublist_nil_l..].
  - destruct readable; cbn; [|done].
    destruct (Goldie.skipped path dir skipPatterns); [apply sublist_nil_l|].
    induction IH as [|e names He _ IHnames]; cbn; [done|].
    by apply sublist_app.
Qed.

Lemma walk_files (dir pattern : string) (skipPatterns : list string)
    (e : Goldie.entry) :
  Forall (fun file => Goldie.Match pattern (Base file) = Store.Ok true /\
                      Goldie.shouldSkip file dir skipPatterns = false)
         (Goldie.walk dir pattern skipPatterns e).
Proof.
  induction e as [path|path|path readable names IH] using entry_induction; cbn.
  - done.
  - destruct (Goldie.skipped path dir skipPatterns) eqn:Hskip; [done|].
    rewrite skipped_shouldSkip in Hskip.
    destruct (Goldie.Match pattern (Base path)) as [[|]|] eqn:Hm; try done.
    by repeat constructor.
  - destruct readable; cbn; [|done].
    destruct (Goldie.skipped path dir skipPatterns); [done|].
    induction IH as [|e names He _ IHnames]; cbn; [done|].
    by apply Forall_app.
Qed.

Lemma walk_without_patterns (dir pattern : string) (e : Goldie.entry) :
  Goldie.walk dir pattern [] e =
  filter (fun file => Goldie.matched pattern (Base file) = true)
         (Goldie.readable_files e).
Proof.
  induction e as [path|path|path readable names IH] using entry_induction; cbn.
  - done.
  - unfold Goldie.matched.
    destruct (Goldie.Match pattern (Base path)) as [[|]|];
      by destruct (decide _).
  - destruct readable; cbn; [|done].
    induction IH as [|e names He _ IHnames]; cbn; [done|].
    by rewrite filter_app, He, IHnames.
Qed.

(** X26. Where the skip patterns of a directory scan apply. A recursive
    scan returns without an error; its files are files that the walk can
    reach, in the order of the walk and each at most as often as the walk
    meets it; the base name of each matches the pattern (the star for an
    empty pattern) and [shouldSkip] is false on each for the loaded
    patterns. A scan that is not recursive makes no use of the skip
    patterns: whatever [.goldieskip] holds, it returns the same, and
    every file that it returns is one that [os.Stat] finds to be a
    file. *)
Theorem ScanDirectory_skip_patterns (dir pattern : string) :
  (exists files,
     Goldie.ScanDirectory dir pattern true = Store.Ok files /\
     sublist files (Goldie.readable_files (Goldie.tree dir)) /\
     Forall (fun file =>
               Goldie.Match (if String.eqb pattern "" then "*" else pattern)
                 (Base file) = Store.Ok true /\
               Goldie.shouldSkip file dir (Goldie.loadSkipPatterns dir) = false)
            files) /\
  (forall files' : Goldie.FileSystem,
     Goldie.ScanDirectory (H0 := files') dir pattern false =
     Goldie.ScanDirectory dir pattern false) /\
  (forall files,
     Goldie.ScanDirectory dir pattern false = Store.Ok files ->
     Forall (fun file => Goldie.is_file file = true) files).
Proof.
  split; [|split].
  - eexists. split; [reflexivity|]. split.
    + apply walk_sublist.
    + apply walk_files.
  - done.
  - intros files. unfold Goldie.ScanDirectory.
    destruct (Goldie.Glob _) as [found|e]; [|done].
    intros [= <-]. induction found as [|file found IH]; [done|].
    rewrite filter_cons. destruct (decide (Goldie.is_file file = true)); [|done].
    by constructor.
Qed.


(** X28. A skip file replaces the
    default patterns, also when it holds no pattern. With a
    [.goldieskip] whose lines are all blank or comments, a recursive scan
    skips nothing: it returns every file that the walk can reach whose
    base name matches the pattern, dot files and the files of
    dot-directories included. *)
Theorem ScanDirectory_empty_skip_file (dir pattern content : string) :
  Goldie.ReadFile (Goldie.Join dir ".goldieskip") = Store.Ok content ->
  Forall (fun line => TrimSpace line = "" \/
                      Goldie.HasPrefix (TrimSpace line) "#" = true)
         (Goldie.split_lines content) ->
  Goldie.ScanDirectory dir pattern true =
  Store.Ok (filter (fun file =>
                      Goldie.matched (if String.eqb pattern "" then "*" else pattern)
                        (Base file) = true)
                   (Goldie.readable_files (Goldie.tree dir))).
Proof.
  intros Hread Hlines. unfold Goldie.ScanDirectory. f_equal.
  assert (Hnone : Goldie.loadSkipPatterns dir = []).
  { unfold Goldie.loadSkipPatterns. rewrite Hread.
    apply filter_none. apply Forall_fmap.
    eapply Forall_impl; [exact Hlines|]. intros line Hline Hnot. by apply Hnot. }
  rewrite Hnone. apply walk_without_patterns.
Qed.

End scans.


(** X28, witness: the project directory with a skip file of one comment. *)
Lemma ScanDirectory_empty_skip_file_witness :
  Goldie.ScanDirectory (H := ascii_runtime) (H0 := toy_skip_file) (H1 := toy_paths)
    (H2 := toy_tree) "proj" "" true =
  Store.Ok ["proj/.git/config"; "proj/AGENTS.md"; "proj/a.md";
            "proj/node_modules/x.md"].
Proof.
  rewrite (ScanDirectory_empty_skip_file (H := ascii_runtime) (H0 := toy_skip_file)
             (H1 := toy_paths) (H2 := toy_tree) "proj" ""
             (String.append "# keep everything" (String "010" "  "))).
  - reflexivity.
  - reflexivity.
  - apply Forall_cons_2; [by right|]. apply Forall_cons_2; [by left|].
    apply Forall_nil_2.
Defined.

(** ** Indexing a directory *)

Section directory_indexing.
Context `{GoRuntime} `{Goldie.Embedder} `{Goldie.FileSystem} `{Goldie.FilePath}
        `{Goldie.FileTree}.
Import GoString Goldie.

(** The loop returns, and adds each file that [os.Stat] finds to one of
    the three lists. *)
Lemma index_files_accounts r files result w :
  0 <= chunkSize r <= 2 ^ 62 -> Z.abs (chunkOverlap r) <= 2 ^ 62 ->
  (forall path content, ReadFile path = Store.Ok content -> len content < 2 ^ 62) ->
  exists res w',
    index_files r files result w = (Done res, w') /\
    Permutation (IndexedFiles res ++ SkippedFiles res ++ FailedFiles res)
      ((IndexedFiles result ++ SkippedFiles result ++ FailedFiles result) ++
       filter (fun file => is_file file = true) files).
Proof.
  intros HS HO HT. revert result w.
  induction files as [|file rest IH]; intros result w.
  - exists result, w. split; [done|]. by rewrite filter_nil, app_nil_r.
  - cbn [index_files]. rewrite filter_cons.
    destruct (is_file file) eqn:Hfile; cbn [negb].
    2:{ rewrite decide_False by done. apply IH. }
    rewrite decide_True by done. unfold bind at 1.
    destruct (IndexFile_Done r file w HS HO (HT file)) as [a Ha].
    destruct (IndexFile r file w) as [indexed w1]. cbn in Ha. subst indexed.
    destruct a as [indexResult|e].
    + destruct (ChunkCount indexResult =? 0).
      * destruct (IH {| IndexedFiles := IndexedFiles result;
                        SkippedFiles := SkippedFiles result ++ [file];
                        FailedFiles := FailedFiles result;
                        TotalChunks := TotalChunks result |} w1)
          as (res & w' & Hrun & Hperm).
        exists res, w'. split; [done|]. rewrite Hperm. cbn. solve_Permutation.
      * destruct (IH {| IndexedFiles := IndexedFiles result ++ [file];
                        SkippedFiles := SkippedFiles result;
                        FailedFiles := FailedFiles result;
                        TotalChunks := GoInt.add (TotalChunks result)
                                         (ChunkCount indexResult) |} w1)
          as (res & w' & Hrun & Hperm).
        exists res, w'. split; [done|]. rewrite Hperm. cbn. solve_Permutation.
    + destruct (IH {| IndexedFiles := IndexedFiles result;
                      SkippedFiles := SkippedFiles result;
                      FailedFiles := FailedFiles result ++ [file];
                      TotalChunks := TotalChunks result |} w1)
        as (res & w' & Hrun & Hperm).
      exists res, w'. split; [done|]. rewrite Hperm. cbn. solve_Permutation.
Qed.

(** X29. Indexing a directory
    accounts for every file of the scan. With a chunk size that is not
    negative (and sizes below 2^62), [IndexDirectory] fails exactly where
    [ScanDirectory] does, with the same error and without touching the
    store; otherwise it returns a result whose indexed, skipped and
    failed files together are, up to order, the files of the scan that
    [os.Stat] finds to be files, each as often as the scan returns it: a
    file that cannot be indexed is listed as failed and the loop goes
    on. *)
Theorem IndexDirectory_accounts_for_files r dir pattern recursive w :
  0 <= chunkSize r <= 2 ^ 62 -> Z.abs (chunkOverlap r) <= 2 ^ 62 ->
  (forall path content, ReadFile path = Store.Ok content -> len content < 2 ^ 62) ->
  match ScanDirectory dir pattern recursive with
  | Store.Err e => IndexDirectory r dir pattern recursive w = (Done (Store.Err e), w)
  | Store.Ok files =>
      exists res w',
        IndexDirectory r dir pattern recursive w = (Done (Store.Ok res), w') /\
        Permutation (IndexedFiles res ++ SkippedFiles res ++ FailedFiles res)
          (filter (fun file => is_file file = true) files)
  end.
Proof.
  intros HS HO HT. unfold ScanDirectory, IndexDirectory.
  set (found := if recursive then _ else _).
  set (empty := {| IndexedFiles := []; SkippedFiles := []; FailedFiles := [];
                   TotalChunks := 0 |}).
  assert (Hloop : forall files, exists res w',
            (do result <- index_files r files empty;
             ret (match result with
                  | Done res => Done (Store.Ok res)
                  | Panic => Panic
                  | OutOfFuel => OutOfFuel
                  end)) w = (Done (Store.Ok res), w') /\
            Permutation (IndexedFiles res ++ SkippedFiles res ++ FailedFiles res)
              (filter (fun file => is_file file = true) files)).
  { intros files.
    destruct (index_files_accounts r files empty w HS HO HT)
      as (res & w' & Hrun & Hperm).
    exists res, w'. split; [|exact Hperm]. unfold bind. by rewrite Hrun. }
  subst found. destruct recursive.
  - destruct (Hloop (walk dir (if String.eqb pattern "" then "*" else pattern)
                       (loadSkipPatterns dir) (tree dir)))
      as (res & w' & Hrun & Hperm).
    exists res, w'. split; [exact Hrun|exact Hperm].
  - destruct (Glob _) as [files|e]; [|done].
    destruct (Hloop files) as (res & w' & Hrun & Hperm).
    exists res, w'. split; [exact Hrun|]. rewrite Hperm.
    rewrite list_filter_filter.
    by rewrite (list_filter_iff
                  (fun file => is_file file = true /\ is_file file = true)
                  (fun file => is_file file = true)) by tauto.
Qed.

End directory_indexing.

(** X29, witness: the project directory, none of whose files can be read. *)
Lemma IndexDirectory_accounts_for_files_witness :
  let r := Goldie.New {| Goldie.Dimensions := 3; Goldie.ChunkSize := 0;
                         Goldie.ChunkOverlap := 0 |} in
  exists res w',
    Goldie.IndexDirectory (H := ascii_runtime) (H0 := toy_embedder)
      (H1 := toy_files) (H2 := toy_paths) (H3 := toy_tree)
      r "proj" "*" true toy_world = (Goldie.Done (Store.Ok res), w') /\
    Permutation
      (Goldie.IndexedFiles res ++ Goldie.SkippedFiles res ++ Goldie.FailedFiles res)
      ["proj/a.md"; "proj/node_modules/x.md"].
Proof.
  intros r.
  assert (HT : forall path content,
            Goldie.ReadFile (FileSystem := toy_files) path = Store.Ok content ->
            GoString.len content < 2 ^ 62).
  { intros path content. cbn. destruct (String.eqb path "/tmp/a.txt"); [|done].
    by intros [= <-]. }
  exact (IndexDirectory_accounts_for_files (H := ascii_runtime) (H0 := toy_embedder)
           (H1 := toy_files) (H2 := toy_paths) (H3 := toy_tree)
           r "proj" "*" true toy_world
           ltac:(by vm_compute) ltac:(by vm_compute) HT).
Defined.
